(** * Chart renderer of the Obsidian dashboard: curve, interpolation, labels

    Shallow embedding of [src/app/page.tsx]: [generateSmoothPath],
    [getYAtX], [getLabelAtX] and the series paths of [MetricsChart].

    A JavaScript [number] is an IEEE 754 binary64 value.  The functions are
    written once over an arithmetic interface ([Arith]) and read at two
    instances:
    - [Binary64]: [spec_float] with the correctly rounded operations of
      the standard library's [SpecFloat] at precision 53 and [emax] 1024.
      This is the arithmetic the program runs on.
    - [Exact]: the rationals [Q], the arithmetic without rounding, used to
      say what a formula denotes before rounding.  Its division by zero is
      not that of the program; it is only read where no denominator is
      zero (constants, or the differences of a strictly ascending
      sequence).

    Reading a property of [undefined] raises a [TypeError] in JavaScript;
    the functions therefore return an [option], [None] being that error.

    A path string is kept as the list of its commands with their numbers;
    the conversion of a number to its decimal text is not modelled. *)

From Stdlib Require Import ZArith List String Bool Lia.
From Stdlib Require Import QArith Qfield Lqa.
From Stdlib Require Import SpecFloat.
From Stdlib Require Import DecimalString.
Import ListNotations.

Local Open Scope Z_scope.

(** ** Arithmetic interface *)

Class Arith (number : Type) : Type := {
  add : number -> number -> number;          (* a + b *)
  sub : number -> number -> number;          (* a - b *)
  mul : number -> number -> number;          (* a * b *)
  div : number -> number -> number;          (* a / b *)
  leb : number -> number -> bool;            (* a <= b *)
  ltb : number -> number -> bool;            (* a < b *)
  geb : number -> number -> bool;            (* a >= b *)
  fmax : number -> number -> number;         (* Math.max(a, b) *)
  of_int : Z -> number;                      (* integer literal or index *)
  of_dec : Z -> Z -> number                  (* decimal literal n / 10^k *)
}.

(** What the proofs use of the comparisons.  [defined] singles out the
    values that compare at all (every value but NaN). *)
Class OrderLaws (number : Type) {arith : Arith number} : Type := {
  defined : number -> Prop;
  geb_leb : forall a b, geb a b = leb b a;
  ltb_defined : forall a b, ltb a b = true -> defined a /\ defined b;
  leb_refl : forall a, defined a -> leb a a = true;
  ltb_leb : forall a b, ltb a b = true -> leb a b = true;
  ltb_not_leb : forall a b, ltb a b = true -> leb b a = false;
  not_leb_ltb : forall a b, defined a -> defined b -> leb a b = false -> ltb b a = true;
  ltb_trans : forall a b c, ltb a b = true -> ltb b c = true -> ltb a c = true;
  leb_ltb_trans : forall a b c, leb a b = true -> ltb b c = true -> ltb a c = true
}.

(** ** Errors: reading a property of [undefined] *)

Definition bind {A B : Type} (o : option A) (f : A -> option B) : option B :=
  match o with
  | Some a => f a
  | None => None
  end.

Notation "v <- e ;; k" := (bind e (fun v => k))
  (at level 61, e at next level, right associativity).

(** [points[i]]: [undefined] outside [0 .. length - 1]. *)
Definition lookup {A : Type} (l : list A) (i : Z) : option A :=
  if i <? 0 then None else nth_error l (Z.to_nat i).

Definition len {A : Type} (l : list A) : Z := Z.of_nat (List.length l).

(** [s || ''] for an optional string. *)
Definition orEmpty (s : option string) : string :=
  match s with
  | Some v => v
  | None => EmptyString
  end.

(** ** Data model *)

Section Chart.
Context {number : Type} {arith : Arith number}.

Record DataPoint : Type := {
  x : number;
  y : number;
  label : option string
}.

Record ChartLine : Type := {
  id : string;
  data : list DataPoint;
  lineLabel : string;                 (* field [label] of ChartLine *)
  color : string;
  lineOpacity : option number;
  lineWidth : option number;
  isPrimary : option bool
}.

(** A path string is a list of commands: [M x y] and [C x1 y1, x2 y2, x y];
    the empty string is the empty list. *)
Inductive PathCmd : Type :=
| MoveTo (px py : number)
| CurveTo (cp1x cp1y cp2x cp2y px py : number).

Definition Path : Type := list PathCmd.

Definition zero : number := of_int 0.
Definition hundred : number := of_int 100.
Definition six : number := of_int 6.
Definition half : number := of_dec 5 1.

(** ** generateSmoothPath *)

Definition scaleX (width xv : number) : number := mul (div xv hundred) width.
Definition scaleY (height yv : number) : number :=
  sub height (mul (div yv hundred) height).

(** The body of the loop at index [i]: the command appended to [path]. *)
Definition curveAt (points : list DataPoint) (width height : number) (i : Z)
  : option PathCmd :=
  p0 <- lookup points (Z.max 0 (i - 1)) ;;
  p1 <- lookup points i ;;
  p2 <- lookup points (i + 1) ;;
  p3 <- lookup points (Z.min (len points - 1) (i + 2)) ;;
  let cp1x := add (scaleX width (x p1))
                  (div (sub (scaleX width (x p2)) (scaleX width (x p0))) six) in
  let cp1y := add (scaleY height (y p1))
                  (div (sub (scaleY height (y p2)) (scaleY height (y p0))) six) in
  let cp2x := sub (scaleX width (x p2))
                  (div (sub (scaleX width (x p3)) (scaleX width (x p1))) six) in
  let cp2y := sub (scaleY height (y p2))
                  (div (sub (scaleY height (y p3)) (scaleY height (y p1))) six) in
  Some (CurveTo cp1x cp1y cp2x cp2y (scaleX width (x p2)) (scaleY height (y p2))).

(** [for (let i = ...; i < points.length - 1; i++)], [iters] iterations
    left, [path] the string built so far. *)
Fixpoint generateSmoothPath_loop (points : list DataPoint) (width height : number)
    (iters : nat) (i : Z) (path : Path) : option Path :=
  match iters with
  | O => Some path
  | S iters' =>
      c <- curveAt points width height i ;;
      generateSmoothPath_loop points width height iters' (i + 1) (path ++ [c])
  end.

Definition generateSmoothPath (points : list DataPoint) (width height : number)
  : option Path :=
  if len points <? 2 then Some []
  else
    p <- lookup points 0 ;;
    generateSmoothPath_loop points width height (Z.to_nat (len points - 1)) 0
      [MoveTo (scaleX width (x p)) (scaleY height (y p))].

(** ** getYAtX *)

(** The value returned inside the loop for the segment [(pi, pj)]. *)
Definition interpolate (pi pj : DataPoint) (targetX : number) : number :=
  let t := div (sub targetX (x pi)) (sub (x pj) (x pi)) in
  add (y pi) (mul t (sub (y pj) (y pi))).

Fixpoint getYAtX_loop (points : list DataPoint) (targetX : number)
    (iters : nat) (i : Z) : option number :=
  match iters with
  | O => pl <- lookup points (len points - 1) ;; Some (y pl)
  | S iters' =>
      pi <- lookup points i ;;
      if geb targetX (x pi) then
        pj <- lookup points (i + 1) ;;
        if leb targetX (x pj) then Some (interpolate pi pj targetX)
        else getYAtX_loop points targetX iters' (i + 1)
      else getYAtX_loop points targetX iters' (i + 1)
  end.

Definition getYAtX (points : list DataPoint) (targetX : number) : option number :=
  if len points =? 0 then Some zero
  else
    p0 <- lookup points 0 ;;
    if leb targetX (x p0) then Some (y p0)
    else
      pl <- lookup points (len points - 1) ;;
      if geb targetX (x pl) then Some (y pl)
      else getYAtX_loop points targetX (Z.to_nat (len points - 1)) 0.

(** ** getLabelAtX *)

(** [l.isPrimary] used as a condition. *)
Definition flagged (l : ChartLine) : bool :=
  match isPrimary l with
  | Some b => b
  | None => false
  end.

(** [lines.find(l => l.isPrimary) || lines[0]]; [None] is [undefined]. *)
Definition primaryLine (lines : list ChartLine) : option ChartLine :=
  match find flagged lines with
  | Some l => Some l
  | None => lookup lines 0
  end.

(** The label chosen inside the loop for the segment [(pi, pj)]. *)
Definition nearerLabel (pi pj : DataPoint) (targetX : number) : string :=
  let t := div (sub targetX (x pi)) (sub (x pj) (x pi)) in
  orEmpty (label (if ltb t half then pi else pj)).

Fixpoint getLabelAtX_loop (points : list DataPoint) (targetX : number)
    (iters : nat) (i : Z) : option string :=
  match iters with
  | O =>
      (* points[points.length - 1]?.label || '' *)
      Some (orEmpty (match lookup points (len points - 1) with
                     | Some pl => label pl
                     | None => None
                     end))
  | S iters' =>
      pi <- lookup points i ;;
      if geb targetX (x pi) then
        pj <- lookup points (i + 1) ;;
        if leb targetX (x pj) then Some (nearerLabel pi pj targetX)
        else getLabelAtX_loop points targetX iters' (i + 1)
      else getLabelAtX_loop points targetX iters' (i + 1)
  end.

Definition getLabelAtX (lines : list ChartLine) (targetX : number) : option string :=
  match primaryLine lines with
  | None => Some EmptyString           (* !primaryLine?.data *)
  | Some l =>
      getLabelAtX_loop (data l) targetX (Z.to_nat (len (data l) - 1)) 0
  end.

(** ** MetricsChart: the series paths *)

Record ProcessedLine : Type := {
  line : ChartLine;
  opacity : number;                   (* lineOpacity after defaulting *)
  strokeW : number                    (* lineWidth after defaulting *)
}.

(** The callback of [lines.map((line, idx) => ...)]. *)
Definition processLine (l : ChartLine) (idx : Z) : ProcessedLine :=
  {| line := l;
     opacity :=
       match lineOpacity l with
       | Some v => v
       | None => if flagged l then of_dec 9 1
                 else fmax (of_dec 15 2)
                           (sub (of_dec 4 1) (mul (of_int idx) (of_dec 8 2)))
       end;
     strokeW :=
       match lineWidth l with
       | Some v => v
       | None => if flagged l then of_dec 125 2 else of_dec 75 2
       end |}.

Fixpoint mapIndexed {A B : Type} (f : A -> Z -> B) (l : list A) (idx : Z) : list B :=
  match l with
  | [] => []
  | a :: l' => f a idx :: mapIndexed f l' (idx + 1)
  end.

Definition processedLines (lines : list ChartLine) : list ProcessedLine :=
  mapIndexed processLine lines 0.

(** One [<path>] element. *)
Record PathElement : Type := {
  key : string;
  d : Path;
  strokeOpacity : number;
  strokeWidth : number
}.

Definition chartWidth : number := of_int 280.

Definition pathElement (chartHeight : number) (pl : ProcessedLine)
  : option PathElement :=
  p <- generateSmoothPath (data (line pl)) chartWidth chartHeight ;;
  Some {| key := id (line pl); d := p;
          strokeOpacity := opacity pl; strokeWidth := strokeW pl |}.

Fixpoint mapM {A B : Type} (f : A -> option B) (l : list A) : option (list B) :=
  match l with
  | [] => Some []
  | a :: l' => b <- f a ;; bs <- mapM f l' ;; Some (b :: bs)
  end.

(** [[...processedLines].reverse().map(line => <path .../>)], in document
    order: a later element is painted over an earlier one. *)
Definition seriesPaths (lines : list ChartLine) (chartHeight : number)
  : option (list PathElement) :=
  mapM (pathElement chartHeight) (rev (processedLines lines)).

End Chart.

Arguments DataPoint number : clear implicits.
Arguments ChartLine number : clear implicits.
Arguments PathCmd number : clear implicits.
Arguments Path number : clear implicits.
Arguments ProcessedLine number : clear implicits.
Arguments PathElement number : clear implicits.

(** ** The arithmetic of the program: IEEE 754 binary64 *)

Module Binary64.

Definition prec : Z := 53.
Definition emax : Z := 1024.

Definition fadd : spec_float -> spec_float -> spec_float := SFadd prec emax.
Definition fsub : spec_float -> spec_float -> spec_float := SFsub prec emax.
Definition fmul : spec_float -> spec_float -> spec_float := SFmul prec emax.
Definition fdiv : spec_float -> spec_float -> spec_float := SFdiv prec emax.

Definition fgeb (a b : spec_float) : bool :=
  match SFcompare a b with
  | Some (Gt | Eq) => true
  | _ => false
  end.

(** [Math.max]: NaN if either argument is NaN, and [+0] above [-0]. *)
Definition max (a b : spec_float) : spec_float :=
  match SFcompare a b with
  | None => S754_nan
  | Some Lt => b
  | Some Gt => a
  | Some Eq => match a with S754_zero true => b | _ => a end
  end.

(** The number an integer literal denotes: the integer, rounded. *)
Definition of_Z (z : Z) : spec_float := binary_normalize prec emax z 0 false.

(** The number a decimal literal [n / 10^k] denotes.  [n] and [10^k] are
    exact for the literals of the program, and the quotient of two
    numbers is correctly rounded, so this is the nearest number. *)
Definition decimal (n k : Z) : spec_float := fdiv (of_Z n) (of_Z (10 ^ k)).

#[export] Instance arith : Arith spec_float := {|
  add := fadd;
  sub := fsub;
  mul := fmul;
  div := fdiv;
  leb := SFleb;
  ltb := SFltb;
  geb := fgeb;
  fmax := max;
  of_int := of_Z;
  of_dec := decimal
|}.

(** A number of the program is a [spec_float] that is a binary64 value. *)
Definition valid (a : spec_float) : Prop := valid_binary prec emax a = true.

Definition is_nan (a : spec_float) : bool :=
  match a with
  | S754_nan => true
  | _ => false
  end.

(** The exact value of a finite number. *)
Definition value (a : spec_float) : option Q :=
  match a with
  | S754_zero _ => Some 0%Q
  | S754_finite s m e =>
      let v := (inject_Z (Zpos m) * Qpower 2 e)%Q in
      Some (if s then Qopp v else v)
  | _ => None
  end.

(** *** Order and sign, for the proofs *)

(** Numbers other than NaN compare as their ranks do, lexicographically. *)
Definition rank (a : spec_float) : option (Z * Z * Z) :=
  match a with
  | S754_nan => None
  | S754_infinity true => Some (-2, 0, 0)
  | S754_infinity false => Some (2, 0, 0)
  | S754_zero _ => Some (0, 0, 0)
  | S754_finite true m e => Some (-1, - e, Zneg m)
  | S754_finite false m e => Some (1, e, Zpos m)
  end.

Definition lex (a b : Z * Z * Z) : comparison :=
  let '(a1, a2, a3) := a in
  let '(b1, b2, b3) := b in
  match a1 ?= b1 with
  | Eq => match a2 ?= b2 with
          | Eq => a3 ?= b3
          | c => c
          end
  | c => c
  end.

Definition lexlt (a b : Z * Z * Z) : Prop :=
  let '(a1, a2, a3) := a in
  let '(b1, b2, b3) := b in
  a1 < b1 \/ (a1 = b1 /\ (a2 < b2 \/ (a2 = b2 /\ a3 < b3))).

Definition lexle (a b : Z * Z * Z) : Prop :=
  let '(a1, a2, a3) := a in
  let '(b1, b2, b3) := b in
  a1 < b1 \/ (a1 = b1 /\ (a2 < b2 \/ (a2 = b2 /\ a3 <= b3))).

Definition notnan (a : spec_float) : Prop := is_nan a = false.

(** [a] has the sign [s] and is neither zero nor NaN. *)
Definition signed_nonzero (s : bool) (a : spec_float) : Prop :=
  match a with
  | S754_finite s' _ _ => s' = s
  | S754_infinity s' => s' = s
  | _ => False
  end.

End Binary64.

(** ** Arithmetic without rounding *)

Module Exact.

Definition qltb (a b : Q) : bool := negb (Qle_bool b a).
Definition qgeb (a b : Q) : bool := Qle_bool b a.
Definition qmax (a b : Q) : Q := if Qle_bool a b then b else a.
Definition ratio (n k : Z) : Q := (inject_Z n / inject_Z (10 ^ k))%Q.

#[export] Instance arith : Arith Q := {|
  add := Qplus;
  sub := Qminus;
  mul := Qmult;
  div := Qdiv;
  leb := Qle_bool;
  ltb := qltb;
  geb := qgeb;
  fmax := qmax;
  of_int := inject_Z;
  of_dec := ratio
|}.

(** The interpolation formula of getYAtX over the rationals. *)
Definition lerp (a ya b yb q : Q) : Q := (ya + (q - a) / (b - a) * (yb - ya))%Q.

(** A point [c] on the segment from [a] to [b]. *)
Definition onSegment (a b c : Q * Q) : Prop :=
  exists s : Q,
    (0 <= s)%Q /\ (s <= 1)%Q /\
    (fst c == fst a + s * (fst b - fst a))%Q /\
    (snd c == snd a + s * (snd b - snd a))%Q.

End Exact.

(** ** Notions of the claims *)

Section Notions.
Context {number : Type} {arith : Arith number}.
Implicit Types (points : list (DataPoint number)) (targetX : number) (i j k : Z).
Implicit Types (width height : number).

(** The condition of the loops at index [j]:
    [targetX >= points[j].x && targetX <= points[j + 1].x]. *)
Definition brackets points targetX j : bool :=
  match lookup points j, lookup points (j + 1) with
  | Some pj, Some pk => geb targetX (x pj) && leb targetX (x pk)
  | _, _ => false
  end.

(** [j] is the lowest index whose segment brackets [targetX]. *)
Definition firstBracket points targetX j : Prop :=
  brackets points targetX j = true /\
  forall k, 0 <= k < j -> brackets points targetX k = false.

(** The loop of [getYAtX] and [getLabelAtX] with its two results left
    open: [hit] inside the loop, [miss] after it. *)
Fixpoint scan {R : Type} (hit : DataPoint number -> DataPoint number -> R)
    (miss : option R) points targetX (iters : nat) i : option R :=
  match iters with
  | O => miss
  | S iters' =>
      pi <- lookup points i ;;
      if geb targetX (x pi) then
        pj <- lookup points (i + 1) ;;
        if leb targetX (x pj) then Some (hit pi pj)
        else scan hit miss points targetX iters' (i + 1)
      else scan hit miss points targetX iters' (i + 1)
  end.

(** Strictly ascending by [x]. *)
Fixpoint ascending points : bool :=
  match points with
  | p :: (p' :: _) as rest => ltb (x p) (x p') && ascending rest
  | _ => true
  end.

(** Ascending by [x], equal neighbours allowed. *)
Fixpoint sorted points : bool :=
  match points with
  | p :: (p' :: _) as rest => leb (x p) (x p') && sorted rest
  | _ => true
  end.

(** Some iteration of the loop finds its condition true. *)
Definition bracketed points targetX : bool :=
  existsb (fun n => brackets points targetX (Z.of_nat n))
          (seq 0 (List.length points - 1)).

(** The command appended for the segment from [p1] to [p2] with
    neighbours [p0] and [p3]. *)
Definition curveOf width height (p0 p1 p2 p3 : DataPoint number) : PathCmd number :=
  CurveTo
    (add (scaleX width (x p1))
         (div (sub (scaleX width (x p2)) (scaleX width (x p0))) six))
    (add (scaleY height (y p1))
         (div (sub (scaleY height (y p2)) (scaleY height (y p0))) six))
    (sub (scaleX width (x p2))
         (div (sub (scaleX width (x p3)) (scaleX width (x p1))) six))
    (sub (scaleY height (y p2))
         (div (sub (scaleY height (y p3)) (scaleY height (y p1))) six))
    (scaleX width (x p2)) (scaleY height (y p2)).

(** The path of a series: the result of [generateSmoothPath], which is
    never an error. *)
Definition smoothPath points width height : Path number :=
  match generateSmoothPath points width height with
  | Some path => path
  | None => []
  end.

Definition elementOf (chartHeight : number) (pl : ProcessedLine number)
  : PathElement number :=
  {| key := id (line pl);
     d := smoothPath (data (line pl)) chartWidth chartHeight;
     strokeOpacity := opacity pl;
     strokeWidth := strokeW pl |}.

(** Element and series at the same position of the output and of the
    reversed collection belong together. *)
Definition drawn (chartHeight : number) (e : PathElement number)
    (l : ChartLine number) : Prop :=
  key e = id l /\
  generateSmoothPath (data l) chartWidth chartHeight = Some (d e).

End Notions.

(** ** Sample data *)

Import Exact Binary64.

Definition point : Type := DataPoint spec_float.

(** A point without label at integer coordinates. *)
Definition pointAt (xv yv : Z) : point :=
  {| x := of_Z xv; y := of_Z yv; label := None |}.

(** The series [{x:0,y:0},{x:50,y:100},{x:100,y:0}]. *)
Definition tent : list point := [pointAt 0 0; pointAt 50 100; pointAt 100 0].

(** A labelled point on the axis. *)
Definition labelled (xv : Z) (s : string) : point :=
  {| x := of_Z xv; y := of_Z 0; label := Some s |}.

(** A series with the display fields left to their defaults. *)
Definition seriesOf (name : string) (flag : option bool) (pts : list point)
  : ChartLine spec_float :=
  {| id := name; data := pts; lineLabel := name; color := "#d4a89a";
     lineOpacity := None; lineWidth := None; isPrimary := flag |}.

(** One series of two adjacent points at x = 0 and x = 100. *)
Definition span : list (ChartLine spec_float) :=
  [seriesOf "span" None [labelled 0 "left"; labelled 100 "right"]].

(** Two points with the same x: sorted, not strictly ascending. *)
Definition level : list point := [pointAt 5 1; pointAt 5 2].

(** Two series, the second one flagged. *)
Definition openLine : ChartLine spec_float := seriesOf "open" None tent.
Definition closedLine : ChartLine spec_float := seriesOf "closed" (Some true) tent.
Definition pair : list (ChartLine spec_float) := [openLine; closedLine].

(** The exact position of a pair of finite numbers. *)
Definition position (a : spec_float * spec_float) : option (Q * Q) :=
  match value (fst a), value (snd a) with
  | Some u, Some v => Some (u, v)
  | _, _ => None
  end.

(** [c] is on the segment from [a] to [b], the three taken exactly. *)
Definition onSegment64 (a b c : spec_float * spec_float) : Prop :=
  match position a, position b, position c with
  | Some a', Some b', Some c' => Exact.onSegment a' b' c'
  | _, _, _ => False
  end.

(** The two points (0,0) and (100,100). *)
Definition diagonal : list point := [pointAt 0 0; pointAt 100 100].

(** The number 0.1 at x = 50 between 100 at x = 0 and 0 at x = 100. *)
Definition dip : list point :=
  [pointAt 0 100; {| x := of_Z 50; y := decimal 1 1; label := None |}; pointAt 100 0].

(** The number 0.1 at x = 50 and at x = 100, after 100 at x = 0. *)
Definition shelf : list point :=
  [pointAt 0 100;
   {| x := of_Z 50; y := decimal 1 1; label := None |};
   {| x := of_Z 100; y := decimal 1 1; label := None |}].

(** ** The markers under the pointer *)

Section Markers.
Context {number : Type} {arith : Arith number}.

(** One [<circle>] element. *)
Record Marker : Type := {
  markerKey : string;
  cx : number;
  cy : number;
  radius : number;
  fill : string;
  markerStroke : number                 (* strokeWidth of the circle *)
}.

(** The callback of [processedLines.map(line => <circle .../>)] at the
    hover position [hoverX]. *)
Definition markerOf (chartHeight hoverX : number) (pl : ProcessedLine number)
  : option Marker :=
  v <- getYAtX (data (line pl)) hoverX ;;
  Some {| markerKey := id (line pl);
          cx := mul (div hoverX hundred) chartWidth;
          cy := sub chartHeight (mul (div v hundred) chartHeight);
          radius := if flagged (line pl) then of_dec 35 1 else of_dec 25 1;
          fill := color (line pl);
          markerStroke := if flagged (line pl) then of_dec 15 1 else of_int 1 |}.

(** [hoverX !== null && processedLines.map(...)]: no marker without a
    hover position ([null] is [None]). *)
Definition hoverMarkers (lines : list (ChartLine number)) (chartHeight : number)
    (hoverX : option number) : option (list Marker) :=
  match hoverX with
  | None => Some []
  | Some h => mapM (markerOf chartHeight h) (processedLines lines)
  end.

(** The value under the pointer: the result of [getYAtX], which is never
    an error. *)
Definition valueAt (points : list (DataPoint number)) (targetX : number) : number :=
  match getYAtX points targetX with
  | Some v => v
  | None => zero
  end.

Definition markerAt (chartHeight hoverX : number) (pl : ProcessedLine number)
  : Marker :=
  {| markerKey := id (line pl);
     cx := mul (div hoverX hundred) chartWidth;
     cy := sub chartHeight
             (mul (div (valueAt (data (line pl)) hoverX) hundred) chartHeight);
     radius := if flagged (line pl) then of_dec 35 1 else of_dec 25 1;
     fill := color (line pl);
     markerStroke := if flagged (line pl) then of_dec 15 1 else of_int 1 |}.

(** The point a path ends at: the numbers of its last command. *)
Definition endPoint (path : Path number) : option (number * number) :=
  match rev path with
  | MoveTo px py :: _ => Some (px, py)
  | CurveTo _ _ _ _ px py :: _ => Some (px, py)
  | [] => None
  end.

(** The point a path starts at. *)
Definition startPoint (path : Path number) : option (number * number) :=
  match path with
  | MoveTo px py :: _ => Some (px, py)
  | _ => None
  end.

End Markers.

Arguments Marker number : clear implicits.

(** ** The pointer position *)

(** [Math.min]: NaN if either argument is NaN, and [-0] below [+0]. *)
Definition mathMin (a b : spec_float) : spec_float :=
  match SFcompare a b with
  | None => S754_nan
  | Some Lt => a
  | Some Gt => b
  | Some Eq => match a with S754_zero false => b | _ => a end
  end.

(** The body of [handleMouseMove]: the new [hoverX] for the pointer at
    [clientX] over a chart whose rectangle has the given [left] and
    [width]. *)
Definition handleMouseMove (clientX left width : spec_float) : option spec_float :=
  Some (Binary64.max (of_Z 0)
          (mathMin (of_Z 100)
             (fmul (fdiv (fsub clientX left) width) (of_Z 100)))).

(** [onMouseLeave]: [setHoverX(null)]. *)
Definition handleMouseLeave : option spec_float := None.

(** The [left] of the tooltip, in percent:
    [Math.min(80, Math.max(10, hoverX))]. *)
Definition tooltipLeft (hoverX : spec_float) : spec_float :=
  mathMin (of_Z 80) (Binary64.max (of_Z 10) hoverX).

(** A number that is zero or finite and not zero. *)
Definition finite (a : spec_float) : bool :=
  match a with
  | S754_zero _ | S754_finite _ _ _ => true
  | _ => false
  end.

(** ** generateTimeSeriesData *)

(** The text of a positive integer, as a template literal prints it. *)
Definition decimalText (n : Z) : string := NilZero.string_of_int (Z.to_int n).

(** [for (let i = ...; i <= days; i++)] with [iters] iterations left.
    [random n] is the result of the call of [Math.random] in iteration
    [n]; [days] is an integer count.  The counter [i] and the array are
    those of the program as long as [days] is at most [2 ^ 32 - 2]: up to
    there [i] is exact and the array can hold the points. *)
Fixpoint generateTimeSeriesData_loop (days : Z) (trend volatility : spec_float)
    (random : nat -> spec_float) (iters : nat) (i : Z) (current : spec_float)
    (points : list point) : list point :=
  match iters with
  | O => points
  | S iters' =>
      let current' :=
        Binary64.max (of_Z 0)
          (mathMin (of_Z 100)
             (fadd (fadd current trend)
                   (fmul (fmul (fsub (random (Z.to_nat i)) (decimal 5 1)) volatility)
                         (of_Z 100)))) in
      generateTimeSeriesData_loop days trend volatility random iters' (i + 1) current'
        (points ++ [{| x := fmul (fdiv (of_Z i) (of_Z days)) (of_Z 100);
                       y := current';
                       label := Some (decimalText (i + 1) ++ " Apr")%string |}])
  end.

(** [volatility] is optional and defaults to 0.02. *)
Definition generateTimeSeriesData (days : Z) (startValue endValue : spec_float)
    (volatility : option spec_float) (random : nat -> spec_float) : list point :=
  let vol := match volatility with Some v => v | None => decimal 2 2 end in
  let trend := fdiv (fsub endValue startValue) (of_Z days) in
  generateTimeSeriesData_loop days trend vol random (Z.to_nat (days + 1)) 0
    startValue [].

(** The x of the points for [days] days: they do not depend on the other
    arguments. *)
Definition dayPositions (days : Z) : list spec_float :=
  map (fun n => fmul (fdiv (of_Z (Z.of_nat n)) (of_Z days)) (of_Z 100))
      (seq 0 (Z.to_nat (days + 1))).

(** Strictly ascending numbers. *)
Fixpoint increasing (xs : list spec_float) : bool :=
  match xs with
  | a :: (b :: _) as rest => SFltb a b && increasing rest
  | _ => true
  end.


(** A series of labelled points that starts at x = 20. *)
Definition late : list (ChartLine spec_float) :=
  [seriesOf "late" None
     [ {| x := of_Z 20; y := of_Z 7; label := Some "first"%string |};
       {| x := of_Z 60; y := of_Z 8; label := Some "middle"%string |};
       {| x := of_Z 100; y := of_Z 9; label := Some "last"%string |} ]].

(** ** Rounding to the nearest number, for the proofs *)

(** The operations of [SpecFloat] round a mantissa that comes with the
    location of the exact result between it and its successor.  The pair
    is read as one integer, its code: four times the mantissa plus 0 for
    an exact result, 1 below the middle, 2 at the middle, 3 above it. *)
Definition loc_code (l : location) : Z :=
  match l with
  | loc_Exact => 0
  | loc_Inexact Lt => 1
  | loc_Inexact Eq => 2
  | loc_Inexact Gt => 3
  end.

Definition rec_code (mrs : shr_record) : Z :=
  4 * shr_m mrs + (if shr_r mrs then 2 else 0) + (if shr_s mrs then 1 else 0).

(** The code after one shift to the right. *)
Definition half_code (k : Z) : Z := 2 * (k / 4) + (if k mod 4 =? 0 then 0 else 1).

(** The location of the remainder [r] of a division by [b]. *)
Definition frac_code (r b : Z) : Z :=
  if r =? 0 then 0
  else match 2 * r ?= b with Lt => 1 | Eq => 2 | Gt => 3 end.

(** The code of the fraction [a / b]. *)
Definition code_of (a b : Z) : Z := 4 * (a / b) + frac_code (a mod b) b.

(** The mantissa nearest to a code, the even one at the middle. *)
Definition round_code (k : Z) : Z :=
  k / 4 +
  (if k mod 4 =? 3 then 1
   else if k mod 4 =? 2 then (if Z.even (k / 4) then 0 else 1)
   else 0).

(** The number with mantissa [m], at most [2 ^ 53], and exponent [e]:
    a zero, a finite number or the infinity past the largest exponent. *)
Definition pack (m e : Z) : spec_float :=
  if m =? 0 then S754_zero false
  else if m <? 2 ^ 53 then
    if e <=? 971 then S754_finite false (Z.to_pos m) e else S754_infinity false
  else
    if e + 1 <=? 971 then S754_finite false (Z.to_pos (2 ^ 52)) (e + 1)
    else S754_infinity false.

(** The number nearest to [(a / b) * 2 ^ G], for [0 <= a], [0 < b] and
    [G <= -1074]. *)
Definition rnd (G a b : Z) : spec_float :=
  let e := fexp prec emax (Zdigits2 (a / b) + G) in
  pack (round_code (code_of a (b * 2 ^ (e - G)))) e.

Definition signed (s : bool) (a : spec_float) : spec_float :=
  if s then SFopp a else a.

(** The number nearest to [z * 2 ^ G]. *)
Definition roundAt (G z : Z) : spec_float :=
  match z with
  | 0 => S754_zero false
  | Zpos _ => rnd G z 1
  | Zneg _ => SFopp (rnd G (- z) 1)
  end.

(** The value of a finite number in units of [2 ^ -1074], of which every
    finite number is a multiple. *)
Definition units (a : spec_float) : Z :=
  match a with
  | S754_finite s m e => cond_Zopp s (Zpos m * 2 ^ (e + 1074))
  | _ => 0
  end.

(** Equal as numbers: the same, or two zeros. *)
Definition same (a b : spec_float) : Prop := SFcompare a b = Some Eq.

(** Zero, positive, or the positive infinity, with the sign bit clear. *)
Definition nonneg (a : spec_float) : Prop :=
  a = S754_zero false \/ a = S754_infinity false \/
  exists p e, a = S754_finite false p e.

(** A finite number of the format. *)
Definition number64 (a : spec_float) : Prop := valid a /\ finite a = true.

(** A point whose coordinates are finite numbers of the format. *)
Definition sound (p : point) : Prop := number64 (x p) /\ number64 (y p).

(** ** More sample data *)

(** Two series with the same points, the second one flagged; the labels
    of the first are not those of the second. *)
Definition marked : list (ChartLine spec_float) :=
  [seriesOf "plain" None [labelled 0 "a"; labelled 100 "b"];
   seriesOf "main" (Some true) [labelled 0 "left"; labelled 100 "right"]].

(** A series without labels. *)
Definition bare : list (ChartLine spec_float) :=
  [seriesOf "bare" None [pointAt 0 0; pointAt 100 0]].

(** The largest number, about 1.8e308, and its opposite. *)
Definition largest : spec_float := S754_finite false 9007199254740991 971.
Definition lowest : spec_float := S754_finite true 9007199254740991 971.

(** [2 ^ 1023], about 9e307. *)
Definition far : spec_float := S754_finite false 4503599627370496 971.

(** Two points as far apart as the format allows. *)
Definition steep : list point :=
  [ {| x := lowest; y := of_Z 0; label := None |};
    {| x := largest; y := of_Z 1; label := None |} ].

(** Two points whose distance is rounded: from x = -2^54 to x = 2, the
    targets 1 and 2 are at the same rounded distance from the first. *)
Definition ledge : list point :=
  [ {| x := of_Z (- 2 ^ 54); y := of_Z 3; label := None |};
    {| x := of_Z 2; y := of_Z (2 ^ 53 + 6); label := None |} ].

(** Five series, none flagged, and the same with the third one flagged. *)
Definition plainFive : list (ChartLine spec_float) :=
  [seriesOf "a" None tent; seriesOf "b" None tent; seriesOf "c" None tent;
   seriesOf "d" None tent; seriesOf "e" None tent].

(** * Proofs *)

(** ** Order of binary64 numbers *)

Module Binary64Order.
Import Binary64.

Lemma lex_Lt (a b : Z * Z * Z) : lex a b = Lt <-> lexlt a b.
Proof.
  destruct a as [[a1 a2] a3], b as [[b1 b2] b3]; unfold lex, lexlt.
  destruct (Z.compare_spec a1 b1); [destruct (Z.compare_spec a2 b2)|..];
    try destruct (Z.compare_spec a3 b3);
    split; intros; try discriminate; try reflexivity; lia.
Qed.

Lemma lex_le (a b : Z * Z * Z) : lex a b <> Gt <-> lexle a b.
Proof.
  destruct a as [[a1 a2] a3], b as [[b1 b2] b3]; unfold lex, lexle.
  destruct (Z.compare_spec a1 b1); [destruct (Z.compare_spec a2 b2)|..];
    try destruct (Z.compare_spec a3 b3);
    split; intros; try discriminate; try congruence; lia.
Qed.

Lemma lex_antisym (a b : Z * Z * Z) : lex b a = CompOpp (lex a b).
Proof.
  destruct a as [[a1 a2] a3], b as [[b1 b2] b3]; unfold lex.
  rewrite (Z.compare_antisym a1 b1), (Z.compare_antisym a2 b2),
    (Z.compare_antisym a3 b3).
  destruct (a1 ?= b1), (a2 ?= b2), (a3 ?= b3); reflexivity.
Qed.

Lemma SFcompare_rank (a b : spec_float) :
  SFcompare a b =
  match rank a, rank b with
  | Some ka, Some kb => Some (lex ka kb)
  | _, _ => None
  end.
Proof.
  destruct a as [sa|sa| |sa ma ea], b as [sb|sb| |sb mb eb];
    try destruct sa; try destruct sb; try reflexivity.
  (* both negative: the order of exponents and mantissas is reversed *)
  cbn [SFcompare rank lex]. f_equal.
  change (-1 ?= -1) with Eq. cbv iota.
  rewrite Z.compare_opp, (Z.compare_antisym ea eb).
  destruct (ea ?= eb); reflexivity.
Qed.

Lemma SFltb_rank (a b : spec_float) :
  SFltb a b = true <->
  exists ka kb, rank a = Some ka /\ rank b = Some kb /\ lexlt ka kb.
Proof.
  unfold SFltb. rewrite SFcompare_rank.
  destruct (rank a) as [ka|], (rank b) as [kb|].
  - split.
    + intros Hc. exists ka, kb. repeat split; trivial. apply lex_Lt.
      destruct (lex ka kb); try discriminate. reflexivity.
    + intros (ka' & kb' & Ea & Eb & Hl). injection Ea as <-. injection Eb as <-.
      apply lex_Lt in Hl. rewrite Hl. reflexivity.
  - split; [discriminate|]. intros (? & ? & _ & E & _). discriminate.
  - split; [discriminate|]. intros (? & ? & E & _). discriminate.
  - split; [discriminate|]. intros (? & ? & E & _). discriminate.
Qed.

Lemma SFleb_rank (a b : spec_float) :
  SFleb a b = true <->
  exists ka kb, rank a = Some ka /\ rank b = Some kb /\ lexle ka kb.
Proof.
  unfold SFleb. rewrite SFcompare_rank.
  destruct (rank a) as [ka|], (rank b) as [kb|].
  - split.
    + intros Hc. exists ka, kb. repeat split; trivial. apply lex_le.
      destruct (lex ka kb); try discriminate; congruence.
    + intros (ka' & kb' & Ea & Eb & Hl). injection Ea as <-. injection Eb as <-.
      apply lex_le in Hl. destruct (lex ka kb); congruence.
  - split; [discriminate|]. intros (? & ? & _ & E & _). discriminate.
  - split; [discriminate|]. intros (? & ? & E & _). discriminate.
  - split; [discriminate|]. intros (? & ? & E & _). discriminate.
Qed.

Lemma fgeb_SFleb (a b : spec_float) : fgeb a b = SFleb b a.
Proof.
  unfold fgeb, SFleb. rewrite (SFcompare_rank a b), (SFcompare_rank b a).
  destruct (rank a) as [ka|], (rank b) as [kb|]; try reflexivity.
  rewrite (lex_antisym ka kb). destruct (lex ka kb); reflexivity.
Qed.

Ltac ranks :=
  repeat match goal with
  | H : SFltb _ _ = true |- _ =>
      apply SFltb_rank in H; destruct H as (? & ? & ? & ? & H)
  | H : SFleb _ _ = true |- _ =>
      apply SFleb_rank in H; destruct H as (? & ? & ? & ? & H)
  | H : rank ?a = Some _, H' : rank ?a = Some _ |- _ =>
      rewrite H in H'; injection H' as <-
  | H : rank ?a = Some _, H' : rank ?a = None |- _ =>
      rewrite H in H'; discriminate H'
  end.

Ltac triples :=
  repeat match goal with
  | k : (Z * Z * Z)%type |- _ => destruct k as [[? ?] ?]
  end;
  unfold lexlt, lexle in *.

Lemma notnan_rank (a : spec_float) : notnan a <-> exists k, rank a = Some k.
Proof.
  unfold notnan. destruct a as [s|s| |s m e]; try destruct s; cbn;
    split; intros; try discriminate; eauto; firstorder discriminate.
Qed.

Lemma SFleb_false_ltb (a b : spec_float) :
  notnan a -> notnan b -> SFleb a b = false -> SFltb b a = true.
Proof.
  intros [ka Ha]%notnan_rank [kb Hb]%notnan_rank Hle.
  apply SFltb_rank. exists kb, ka. repeat split; trivial.
  destruct (lex kb ka) eqn:E.
  - exfalso. assert (SFleb a b = true); [|congruence].
    apply SFleb_rank. exists ka, kb. repeat split; trivial.
    apply lex_le. rewrite lex_antisym, E. discriminate.
  - apply lex_Lt, E.
  - exfalso. assert (SFleb a b = true); [|congruence].
    apply SFleb_rank. exists ka, kb. repeat split; trivial.
    apply lex_le. rewrite lex_antisym, E. discriminate.
Qed.

#[export] Instance binary64_laws : OrderLaws spec_float.
Proof.
  refine {| defined := notnan |}.
  - exact fgeb_SFleb.
  - intros a b Hab. cbn in Hab. ranks. split; apply notnan_rank; eauto.
  - intros a [k Hk]%notnan_rank. apply SFleb_rank. exists k, k.
    repeat split; trivial. triples. lia.
  - intros a b Hab. cbn in Hab. ranks. apply SFleb_rank.
    do 2 eexists. repeat split; eauto. triples. lia.
  - intros a b Hab. cbn in Hab. ranks.
    destruct (SFleb b a) eqn:E; trivial. exfalso. ranks. triples. lia.
  - exact SFleb_false_ltb.
  - intros a b c Hab Hbc. cbn in Hab, Hbc. ranks. apply SFltb_rank.
    do 2 eexists. repeat split; eauto. triples. lia.
  - intros a b c Hab Hbc. cbn in Hab, Hbc. ranks. apply SFltb_rank.
    do 2 eexists. repeat split; eauto. triples. lia.
Defined.

End Binary64Order.

(** ** Order of the rationals *)

Module ExactOrder.
Import Exact.

Lemma qltb_lt (a b : Q) : qltb a b = true <-> (a < b)%Q.
Proof.
  unfold qltb. rewrite negb_true_iff, <- not_true_iff_false, Qle_bool_iff.
  split; [apply Qnot_le_lt | apply Qlt_not_le].
Qed.

Lemma qleb_false (a b : Q) : Qle_bool a b = false <-> (b < a)%Q.
Proof.
  rewrite <- not_true_iff_false, Qle_bool_iff.
  split; [apply Qnot_le_lt | apply Qlt_not_le].
Qed.

#[export] Instance exact_laws : OrderLaws Q.
Proof.
  refine {| defined := fun _ => True |}; cbn.
  - reflexivity.
  - auto.
  - intros a _. apply Qle_bool_iff, Qle_refl.
  - intros a b Hab%qltb_lt. apply Qle_bool_iff, Qlt_le_weak, Hab.
  - intros a b Hab%qltb_lt. apply qleb_false, Hab.
  - intros a b _ _ Hab%qleb_false. apply qltb_lt, Hab.
  - intros a b c Hab%qltb_lt Hbc%qltb_lt. apply qltb_lt. eapply Qlt_trans; eauto.
  - intros a b c Hab%Qle_bool_iff Hbc%qltb_lt. apply qltb_lt.
    eapply Qle_lt_trans; eauto.
Defined.

End ExactOrder.

(** ** Indexing *)

Section Lookup.
Context {A : Type}.
Implicit Types (l : list A) (i : Z).

Lemma len_nonneg l : 0 <= len l.
Proof. unfold len. lia. Qed.

Lemma lookup_range l i a : lookup l i = Some a -> 0 <= i < len l.
Proof.
  unfold lookup, len. destruct (Z.ltb_spec i 0); [discriminate|].
  intros E. assert (Hlt : (Z.to_nat i < List.length l)%nat).
  { apply nth_error_Some. congruence. }
  lia.
Qed.

Lemma lookup_defined l i : 0 <= i < len l -> exists a, lookup l i = Some a.
Proof.
  unfold lookup, len. intros Hi. destruct (Z.ltb_spec i 0); [lia|].
  destruct (nth_error l (Z.to_nat i)) eqn:E; [eauto|].
  apply nth_error_None in E. lia.
Qed.

Lemma lookup_zero a l : lookup (a :: l) 0 = Some a.
Proof. reflexivity. Qed.

Lemma lookup_succ a l i : 0 <= i -> lookup (a :: l) (i + 1) = lookup l i.
Proof.
  intros Hi. unfold lookup.
  destruct (Z.ltb_spec (i + 1) 0); [lia|]. destruct (Z.ltb_spec i 0); [lia|].
  replace (Z.to_nat (i + 1)) with (S (Z.to_nat i)) by lia. reflexivity.
Qed.

Lemma lookup_nil i : lookup (@nil A) i = None.
Proof. unfold lookup. destruct (i <? 0); [|destruct (Z.to_nat i)]; reflexivity. Qed.

Lemma len_cons a l : len (a :: l) = len l + 1.
Proof. unfold len. cbn [List.length]. lia. Qed.

End Lookup.

(** ** The segment search shared by the two lookups *)

Section Search.
Context {number : Type} {arith : Arith number} {laws : OrderLaws number}.
Implicit Types (points : list (DataPoint number)) (targetX : number) (i j k : Z).

Lemma getYAtX_loop_scan points targetX iters i :
  getYAtX_loop points targetX iters i =
  scan (fun pi pj => interpolate pi pj targetX)
       (pl <- lookup points (len points - 1) ;; Some (y pl))
       points targetX iters i.
Proof.
  revert i. induction iters as [|n IH]; intros i; cbn; [reflexivity|].
  destruct (lookup points i) as [pi|]; cbn; [|reflexivity].
  destruct (geb targetX (x pi)); [|apply IH].
  destruct (lookup points (i + 1)) as [pj|]; cbn; [|reflexivity].
  destruct (leb targetX (x pj)); [reflexivity|apply IH].
Qed.

Lemma getLabelAtX_loop_scan points targetX iters i :
  getLabelAtX_loop points targetX iters i =
  scan (fun pi pj => nearerLabel pi pj targetX)
       (Some (orEmpty (match lookup points (len points - 1) with
                       | Some pl => label pl
                       | None => None
                       end)))
       points targetX iters i.
Proof.
  revert i. induction iters as [|n IH]; intros i; cbn; [reflexivity|].
  destruct (lookup points i) as [pi|]; cbn; [|reflexivity].
  destruct (geb targetX (x pi)); [|apply IH].
  destruct (lookup points (i + 1)) as [pj|]; cbn; [|reflexivity].
  destruct (leb targetX (x pj)); [reflexivity|apply IH].
Qed.

(** The search returns at the first bracketing segment at or after [i]. *)
Lemma scan_hit {R : Type} (hit : DataPoint number -> DataPoint number -> R) miss
    points targetX iters i k pk pk' :
  0 <= i <= k -> k < i + Z.of_nat iters ->
  lookup points k = Some pk -> lookup points (k + 1) = Some pk' ->
  brackets points targetX k = true ->
  (forall j, i <= j < k -> brackets points targetX j = false) ->
  scan hit miss points targetX iters i = Some (hit pk pk').
Proof.
  revert i. induction iters as [|n IH]; intros i Hik Hk Ek Ek' Hb Hfirst; [lia|].
  cbn [scan].
  destruct (Z.eq_dec i k) as [->|Hne].
  - rewrite Ek. cbn [bind]. unfold brackets in Hb. rewrite Ek, Ek' in Hb.
    apply andb_true_iff in Hb as [-> Hb]. rewrite Ek'. cbn [bind].
    rewrite Hb. reflexivity.
  - assert (Hi : 0 <= i < len points).
    { apply lookup_range in Ek. lia. }
    destruct (lookup_defined points i Hi) as [pi Ei]. rewrite Ei. cbn [bind].
    assert (Hi' : 0 <= i + 1 < len points).
    { apply lookup_range in Ek. lia. }
    destruct (lookup_defined points (i + 1) Hi') as [pj Ej].
    assert (Hbi : brackets points targetX i = false) by (apply Hfirst; lia).
    unfold brackets in Hbi. rewrite Ei, Ej in Hbi.
    assert (Hrec : scan hit miss points targetX n (i + 1) = Some (hit pk pk')).
    { apply IH; trivial; try lia. intros j Hj. apply Hfirst. lia. }
    destruct (geb targetX (x pi)); [|exact Hrec].
    rewrite Ej. cbn [bind]. cbn in Hbi. rewrite Hbi. exact Hrec.
Qed.

(** Without a bracketing segment the search falls through. *)
Lemma scan_miss {R : Type} (hit : DataPoint number -> DataPoint number -> R) miss
    points targetX iters i :
  0 <= i -> i + Z.of_nat iters <= len points - 1 ->
  (forall j, i <= j < i + Z.of_nat iters -> brackets points targetX j = false) ->
  scan hit miss points targetX iters i = miss.
Proof.
  revert i. induction iters as [|n IH]; intros i Hi Hlen Hnone; [reflexivity|].
  cbn [scan].
  destruct (lookup_defined points i) as [pi Ei]; [lia|].
  destruct (lookup_defined points (i + 1)) as [pj Ej]; [lia|].
  assert (Hbi : brackets points targetX i = false) by (apply Hnone; lia).
  unfold brackets in Hbi. rewrite Ei, Ej in Hbi.
  assert (Hrec : scan hit miss points targetX n (i + 1) = miss).
  { apply IH; try lia. intros j Hj. apply Hnone. lia. }
  rewrite Ei. cbn [bind]. destruct (geb targetX (x pi)); [|exact Hrec].
  rewrite Ej. cbn [bind]. cbn in Hbi. rewrite Hbi. exact Hrec.
Qed.

(** *** Ascending sequences *)

Lemma ascending_adjacent points i pi pj :
  ascending points = true ->
  lookup points i = Some pi -> lookup points (i + 1) = Some pj ->
  ltb (x pi) (x pj) = true.
Proof.
  intros Hasc Ei Ej. assert (Hi : 0 <= i) by (apply lookup_range in Ei; lia).
  revert points Hasc Ei Ej. pattern i. apply natlike_ind; trivial; clear i Hi.
  - intros [|p [|p' rest]] Hasc Ei Ej; try discriminate.
    cbn in Ei, Ej. injection Ei as <-. injection Ej as <-.
    cbn in Hasc. apply andb_true_iff in Hasc. tauto.
  - intros i Hi IH [|p [|p' rest]] Hasc Ei Ej.
    + rewrite lookup_nil in Ei. discriminate.
    + unfold Z.succ in Ei. rewrite lookup_succ, lookup_nil in Ei by lia. discriminate.
    + unfold Z.succ in Ei, Ej. rewrite lookup_succ in Ei, Ej by lia.
      apply (IH (p' :: rest)); trivial.
      cbn in Hasc. apply andb_true_iff in Hasc. tauto.
Qed.

Lemma ascending_lt points (n : nat) : forall i pi pj,
  ascending points = true ->
  lookup points i = Some pi -> lookup points (i + 1 + Z.of_nat n) = Some pj ->
  ltb (x pi) (x pj) = true.
Proof.
  induction n as [|n IH]; intros i pi pj Hasc Ei Ej.
  - replace (i + 1 + Z.of_nat 0) with (i + 1) in Ej by lia.
    eapply ascending_adjacent; eauto.
  - pose proof (lookup_range _ _ _ Ei). pose proof (lookup_range _ _ _ Ej).
    destruct (lookup_defined points (i + 1 + Z.of_nat n)) as [pm Em]; [lia|].
    apply ltb_trans with (x pm).
    + eapply IH; eauto.
    + apply (ascending_adjacent points (i + 1 + Z.of_nat n)); trivial.
      rewrite <- Ej. f_equal. lia.
Qed.

Lemma ascending_lt_index points i j pi pj :
  ascending points = true -> i < j ->
  lookup points i = Some pi -> lookup points j = Some pj ->
  ltb (x pi) (x pj) = true.
Proof.
  intros Hasc Hij Ei Ej.
  apply (ascending_lt points (Z.to_nat (j - i - 1)) i); trivial.
  rewrite <- Ej. f_equal. lia.
Qed.

End Search.

(** ** getYAtX, branch by branch *)

Section Interpolator.
Context {number : Type} {arith : Arith number} {laws : OrderLaws number}.
Implicit Types (points : list (DataPoint number)) (targetX : number) (i j k : Z).

Lemma len_nonzero points i p : lookup points i = Some p -> (len points =? 0) = false.
Proof. intros E%lookup_range. apply Z.eqb_neq. lia. Qed.

Lemma getYAtX_clamp_left points targetX p0 :
  lookup points 0 = Some p0 -> leb targetX (x p0) = true ->
  getYAtX points targetX = Some (y p0).
Proof.
  intros E0 Hle. unfold getYAtX. rewrite (len_nonzero _ _ _ E0), E0. cbn [bind].
  rewrite Hle. reflexivity.
Qed.

Lemma getYAtX_clamp_right points targetX p0 pl :
  lookup points 0 = Some p0 -> leb targetX (x p0) = false ->
  lookup points (len points - 1) = Some pl -> geb targetX (x pl) = true ->
  getYAtX points targetX = Some (y pl).
Proof.
  intros E0 Hle El Hge. unfold getYAtX.
  rewrite (len_nonzero _ _ _ E0), E0. cbn [bind]. rewrite Hle, El. cbn [bind].
  rewrite Hge. reflexivity.
Qed.

Lemma getYAtX_inside points targetX p0 pl :
  lookup points 0 = Some p0 -> leb targetX (x p0) = false ->
  lookup points (len points - 1) = Some pl -> geb targetX (x pl) = false ->
  getYAtX points targetX =
  getYAtX_loop points targetX (Z.to_nat (len points - 1)) 0.
Proof.
  intros E0 Hle El Hge. unfold getYAtX.
  rewrite (len_nonzero _ _ _ E0), E0. cbn [bind]. rewrite Hle, El. cbn [bind].
  rewrite Hge. reflexivity.
Qed.

(** Past the two clamps the value is the interpolation on the first
    bracketing segment. *)
Lemma getYAtX_segment points targetX p0 pl k pk pk' :
  lookup points 0 = Some p0 -> leb targetX (x p0) = false ->
  lookup points (len points - 1) = Some pl -> geb targetX (x pl) = false ->
  lookup points k = Some pk -> lookup points (k + 1) = Some pk' ->
  firstBracket points targetX k ->
  getYAtX points targetX = Some (interpolate pk pk' targetX).
Proof.
  intros E0 Hle El Hge Ek Ek' [Hb Hfirst].
  rewrite (getYAtX_inside _ _ _ _ E0 Hle El Hge), getYAtX_loop_scan.
  pose proof (lookup_range _ _ _ Ek). pose proof (lookup_range _ _ _ Ek').
  apply (scan_hit (fun pi pj => interpolate pi pj targetX) _ points targetX
           _ 0 k pk pk'); trivial; lia.
Qed.

(** In an ascending sequence a bracketing segment exists for every
    [targetX] strictly between the first and the last [x]. *)
Lemma first_bracket_from points targetX pl (n : nat) : forall i pi,
  ascending points = true ->
  lookup points (len points - 1) = Some pl -> ltb targetX (x pl) = true ->
  len points - 1 - i = Z.of_nat n ->
  lookup points i = Some pi -> leb (x pi) targetX = true ->
  (forall j, 0 <= j < i -> brackets points targetX j = false) ->
  exists k pk pk',
    lookup points k = Some pk /\ lookup points (k + 1) = Some pk' /\
    firstBracket points targetX k.
Proof.
  induction n as [|n IH]; intros i pi Hasc El Hlt Hn Ei Hge Hbefore.
  - replace (len points - 1) with i in El by lia.
    assert (pi = pl) as -> by congruence.
    apply ltb_not_leb in Hlt. congruence.
  - pose proof (lookup_range _ _ _ Ei) as Hi.
    destruct (lookup_defined points (i + 1)) as [pj Ej]; [lia|].
    pose proof (ascending_adjacent _ _ _ _ Hasc Ei Ej) as Hij.
    destruct (leb targetX (x pj)) eqn:Hle.
    + exists i, pi, pj. repeat split; trivial.
      unfold brackets. rewrite Ei, Ej, geb_leb, Hge, Hle. reflexivity.
    + assert (Hjt : ltb (x pj) targetX = true).
      { apply not_leb_ltb; trivial.
        - apply (ltb_defined _ _ Hlt).
        - apply (ltb_defined _ _ Hij). }
      apply (IH (i + 1) pj); trivial; try lia.
      * apply ltb_leb, Hjt.
      * intros j Hj. destruct (Z.eq_dec j i) as [->|]; [|apply Hbefore; lia].
        unfold brackets. rewrite Ei, Ej, Hle. apply andb_false_r.
Qed.

Lemma first_bracket_exists points targetX p0 pl :
  ascending points = true ->
  lookup points 0 = Some p0 -> ltb (x p0) targetX = true ->
  lookup points (len points - 1) = Some pl -> ltb targetX (x pl) = true ->
  exists k pk pk',
    lookup points k = Some pk /\ lookup points (k + 1) = Some pk' /\
    firstBracket points targetX k.
Proof.
  intros Hasc E0 H0 El Hl.
  pose proof (lookup_range _ _ _ E0).
  apply (first_bracket_from points targetX pl (Z.to_nat (len points - 1)) 0 p0);
    trivial; try lia.
  apply ltb_leb, H0.
Qed.

(** The value at a sample point of an ascending sequence: the sample's
    own [y] at both ends, the interpolation on the segment to its left
    in between. *)
Lemma getYAtX_at_first points p0 :
  ascending points = true -> lookup points 0 = Some p0 ->
  getYAtX points (x p0) = Some (y p0).
Proof.
  intros Hasc E0. destruct points as [|p [|p' rest]]; [discriminate| |].
  - injection E0 as <-. unfold getYAtX. cbn.
    destruct (leb (x p) (x p)); [reflexivity|].
    destruct (geb (x p) (x p)); reflexivity.
  - injection E0 as <-. apply getYAtX_clamp_left with (p0 := p); [reflexivity|].
    cbn in Hasc. apply andb_true_iff in Hasc as [Hlt _].
    apply leb_refl, (ltb_defined _ _ Hlt).
Qed.

Lemma getYAtX_at_last points pl :
  ascending points = true -> lookup points (len points - 1) = Some pl ->
  getYAtX points (x pl) = Some (y pl).
Proof.
  intros Hasc El. pose proof (lookup_range _ _ _ El) as Hl.
  destruct (Z.eq_dec (len points) 1) as [E1|Hn].
  - replace (len points - 1) with 0 in El by lia. apply getYAtX_at_first; trivial.
  - destruct (lookup_defined points 0) as [p0 E0]; [lia|].
    assert (Hlt : ltb (x p0) (x pl) = true).
    { apply (ascending_lt_index points 0 (len points - 1)); trivial. lia. }
    apply getYAtX_clamp_right with (p0 := p0); trivial.
    + apply ltb_not_leb, Hlt.
    + rewrite geb_leb. apply leb_refl, (ltb_defined _ _ Hlt).
Qed.

Lemma getYAtX_at_inner points i pp pi :
  ascending points = true -> 0 < i < len points - 1 ->
  lookup points (i - 1) = Some pp -> lookup points i = Some pi ->
  getYAtX points (x pi) = Some (interpolate pp pi (x pi)).
Proof.
  intros Hasc Hi Ep Ei.
  destruct (lookup_defined points 0) as [p0 E0]; [lia|].
  destruct (lookup_defined points (len points - 1)) as [pl El]; [lia|].
  assert (H0 : ltb (x p0) (x pi) = true).
  { apply (ascending_lt_index points 0 i); trivial. lia. }
  assert (Hl : ltb (x pi) (x pl) = true).
  { apply (ascending_lt_index points i (len points - 1)); trivial. lia. }
  assert (Hp : ltb (x pp) (x pi) = true).
  { apply (ascending_lt_index points (i - 1) i); trivial. lia. }
  apply getYAtX_segment with (p0 := p0) (pl := pl) (k := i - 1); trivial.
  - apply ltb_not_leb, H0.
  - rewrite geb_leb. apply ltb_not_leb, Hl.
  - rewrite <- Ei. f_equal. lia.
  - split.
    + unfold brackets. replace (i - 1 + 1) with i by lia. rewrite Ep, Ei.
      rewrite geb_leb, (ltb_leb _ _ Hp), (leb_refl (x pi)); [reflexivity|].
      apply (ltb_defined _ _ Hp).
    + intros k Hk. unfold brackets.
      destruct (lookup_defined points k) as [pk Ek]; [lia|].
      destruct (lookup_defined points (k + 1)) as [pk' Ek']; [lia|].
      rewrite Ek, Ek'.
      assert (Hlt : ltb (x pk') (x pi) = true).
      { apply (ascending_lt_index points (k + 1) i); trivial. lia. }
      rewrite (ltb_not_leb _ _ Hlt). apply andb_false_r.
Qed.

End Interpolator.

(** ** getLabelAtX, branch by branch *)

Section Labels.
Context {number : Type} {arith : Arith number} {laws : OrderLaws number}.
Implicit Types (lines : list (ChartLine number)) (targetX : number) (i j k : Z).

Lemma find_unflagged lines :
  (forall l, In l lines -> flagged l = false) -> find flagged lines = None.
Proof.
  induction lines as [|l lines IH]; intros Hall; [reflexivity|].
  cbn [find]. rewrite (Hall l (or_introl eq_refl)).
  apply IH. intros l' Hin. apply Hall. right. exact Hin.
Qed.

Lemma primaryLine_flagged lines l :
  find flagged lines = Some l -> primaryLine lines = Some l.
Proof. unfold primaryLine. intros ->. reflexivity. Qed.

Lemma primaryLine_fallback lines :
  (forall l, In l lines -> flagged l = false) ->
  primaryLine lines = lookup lines 0.
Proof. unfold primaryLine. intros ->%find_unflagged. reflexivity. Qed.

Lemma getLabelAtX_no_data lines l targetX :
  primaryLine lines = Some l -> data l = [] ->
  getLabelAtX lines targetX = Some EmptyString.
Proof. unfold getLabelAtX. intros -> ->. reflexivity. Qed.

Lemma getLabelAtX_segment lines l targetX k pk pk' :
  primaryLine lines = Some l ->
  lookup (data l) k = Some pk -> lookup (data l) (k + 1) = Some pk' ->
  firstBracket (data l) targetX k ->
  getLabelAtX lines targetX = Some (nearerLabel pk pk' targetX).
Proof.
  unfold getLabelAtX. intros -> Ek Ek' [Hb Hfirst]. rewrite getLabelAtX_loop_scan.
  pose proof (lookup_range _ _ _ Ek). pose proof (lookup_range _ _ _ Ek').
  apply (scan_hit (fun pi pj => nearerLabel pi pj targetX) _ (data l) targetX
           _ 0 k pk pk'); trivial; lia.
Qed.

Lemma getLabelAtX_beyond lines l targetX :
  primaryLine lines = Some l ->
  (forall j, brackets (data l) targetX j = false) ->
  getLabelAtX lines targetX =
  Some (orEmpty (match lookup (data l) (len (data l) - 1) with
                 | Some pl => label pl
                 | None => None
                 end)).
Proof.
  unfold getLabelAtX. intros -> Hnone. rewrite getLabelAtX_loop_scan.
  pose proof (len_nonneg (data l)).
  destruct (Z.eq_dec (len (data l)) 0) as [E|Hne].
  - rewrite E. reflexivity.
  - apply scan_miss; try lia. intros j _. apply Hnone.
Qed.

Lemma nearerLabel_left (pi pj : DataPoint number) targetX :
  ltb (div (sub targetX (x pi)) (sub (x pj) (x pi))) half = true ->
  nearerLabel pi pj targetX = orEmpty (label pi).
Proof. unfold nearerLabel. intros ->. reflexivity. Qed.

Lemma nearerLabel_right (pi pj : DataPoint number) targetX :
  geb (div (sub targetX (x pi)) (sub (x pj) (x pi))) half = true ->
  nearerLabel pi pj targetX = orEmpty (label pj).
Proof.
  unfold nearerLabel. rewrite geb_leb. intros Hge.
  destruct (ltb _ half) eqn:Hlt; [|reflexivity].
  apply ltb_not_leb in Hlt. congruence.
Qed.

End Labels.

(** ** generateSmoothPath, command by command *)

Section Curve.
Context {number : Type} {arith : Arith number}.
Implicit Types (points : list (DataPoint number)) (width height : number) (i k : Z).

Lemma curveAt_defined points width height i :
  0 <= i < len points - 1 ->
  exists p0 p1 p2 p3,
    lookup points (Z.max 0 (i - 1)) = Some p0 /\
    lookup points i = Some p1 /\
    lookup points (i + 1) = Some p2 /\
    lookup points (Z.min (len points - 1) (i + 2)) = Some p3 /\
    curveAt points width height i = Some (curveOf width height p0 p1 p2 p3).
Proof.
  intros Hi.
  destruct (lookup_defined points (Z.max 0 (i - 1))) as [p0 E0]; [lia|].
  destruct (lookup_defined points i) as [p1 E1]; [lia|].
  destruct (lookup_defined points (i + 1)) as [p2 E2]; [lia|].
  destruct (lookup_defined points (Z.min (len points - 1) (i + 2))) as [p3 E3]; [lia|].
  exists p0, p1, p2, p3. repeat split; trivial.
  unfold curveAt. rewrite E0, E1, E2, E3. reflexivity.
Qed.

Lemma generateSmoothPath_loop_spec points width height (iters : nat) :
  forall i path,
    0 <= i -> i + Z.of_nat iters <= len points - 1 ->
    exists cs,
      generateSmoothPath_loop points width height iters i path = Some (path ++ cs) /\
      List.length cs = iters /\
      forall k, 0 <= k < Z.of_nat iters ->
                lookup cs k = curveAt points width height (i + k).
Proof.
  induction iters as [|n IH]; intros i path Hi Hlen.
  - exists []. cbn. rewrite app_nil_r. repeat split; trivial. lia.
  - destruct (curveAt_defined points width height i) as (p0 & p1 & p2 & p3 & _ & _ & _ & _ & Ec);
      [lia|].
    destruct (IH (i + 1) (path ++ [curveOf width height p0 p1 p2 p3]))
      as (cs & Eloop & Hlen' & Hnth); [lia|lia|].
    exists (curveOf width height p0 p1 p2 p3 :: cs).
    cbn [generateSmoothPath_loop]. rewrite Ec. cbn [bind]. rewrite Eloop.
    rewrite <- app_assoc. repeat split; [cbn; lia|].
    intros k Hk. destruct (Z.eq_dec k 0) as [->|Hne].
    + rewrite lookup_zero, Z.add_0_r. symmetry. exact Ec.
    + replace k with (k - 1 + 1) at 1 by lia. rewrite lookup_succ by lia.
      rewrite Hnth by lia. f_equal. lia.
Qed.

Lemma generateSmoothPath_short points width height :
  len points < 2 -> generateSmoothPath points width height = Some [].
Proof.
  intros Hlt. unfold generateSmoothPath.
  destruct (Z.ltb_spec (len points) 2); [reflexivity|lia].
Qed.

Lemma generateSmoothPath_long points width height :
  2 <= len points ->
  exists p cs,
    lookup points 0 = Some p /\
    generateSmoothPath points width height =
      Some (MoveTo (scaleX width (x p)) (scaleY height (y p)) :: cs) /\
    len cs = len points - 1 /\
    forall i, 0 <= i < len points - 1 ->
              lookup cs i = curveAt points width height i.
Proof.
  intros Hge. unfold generateSmoothPath.
  destruct (Z.ltb_spec (len points) 2); [lia|].
  destruct (lookup_defined points 0) as [p E0]; [lia|]. rewrite E0. cbn [bind].
  destruct (generateSmoothPath_loop_spec points width height
              (Z.to_nat (len points - 1)) 0
              [MoveTo (scaleX width (x p)) (scaleY height (y p))])
    as (cs & Eloop & Hlen & Hnth); [lia|lia|].
  exists p, cs. rewrite Eloop. repeat split; trivial.
  - unfold len at 1. lia.
  - intros i Hi. rewrite Hnth by lia. reflexivity.
Qed.

(** The function raises no error. *)
Lemma generateSmoothPath_total points width height :
  exists path, generateSmoothPath points width height = Some path.
Proof.
  destruct (Z.lt_ge_cases (len points) 2) as [Hlt|Hge].
  - eexists. apply generateSmoothPath_short, Hlt.
  - destruct (generateSmoothPath_long points width height Hge) as (p & cs & _ & E & _).
    eexists. exact E.
Qed.

(** ** The series paths of MetricsChart *)

Implicit Types (lines : list (ChartLine number)).

Lemma generateSmoothPath_smoothPath points width height :
  generateSmoothPath points width height = Some (smoothPath points width height).
Proof.
  unfold smoothPath.
  destruct (generateSmoothPath_total points width height) as [path ->]. reflexivity.
Qed.

Lemma pathElement_elementOf chartHeight (pl : ProcessedLine number) :
  pathElement chartHeight pl = Some (elementOf chartHeight pl).
Proof. unfold pathElement. rewrite generateSmoothPath_smoothPath. reflexivity. Qed.

Lemma mapM_total {A B : Type} (f : A -> option B) (g : A -> B) (l : list A) :
  (forall a, f a = Some (g a)) -> mapM f l = Some (map g l).
Proof.
  intros Hf. induction l as [|a l IH]; [reflexivity|].
  cbn [mapM map]. rewrite Hf, IH. reflexivity.
Qed.

Lemma mapIndexed_line lines idx :
  map line (mapIndexed processLine lines idx) = lines.
Proof.
  revert idx. induction lines as [|l lines IH]; intros idx; [reflexivity|].
  cbn [mapIndexed map]. rewrite IH. reflexivity.
Qed.

Lemma seriesPaths_spec lines chartHeight :
  seriesPaths lines chartHeight =
  Some (map (elementOf chartHeight) (rev (processedLines lines))).
Proof. unfold seriesPaths. apply mapM_total, pathElement_elementOf. Qed.

Lemma seriesPaths_keys lines chartHeight :
  map key (map (elementOf chartHeight) (rev (processedLines lines))) =
  rev (map id lines).
Proof.
  rewrite map_map. cbn [elementOf key].
  rewrite <- (map_map line id), (map_rev line). unfold processedLines.
  rewrite mapIndexed_line. apply map_rev.
Qed.

End Curve.

(** ** No bracketing segment, and the right clamp *)

Section Bracketed.
Context {number : Type} {arith : Arith number} {laws : OrderLaws number}.
Implicit Types (points : list (DataPoint number)) (targetX : number).

Lemma brackets_range points targetX j :
  brackets points targetX j = true -> 0 <= j < len points - 1.
Proof.
  unfold brackets.
  destruct (lookup points j) as [pj|] eqn:Ej; [|discriminate].
  destruct (lookup points (j + 1)) as [pk|] eqn:Ek; [|discriminate].
  apply lookup_range in Ej, Ek. lia.
Qed.

Lemma bracketed_false points targetX :
  bracketed points targetX = false ->
  forall j, brackets points targetX j = false.
Proof.
  unfold bracketed. intros Hnone j.
  destruct (brackets points targetX j) eqn:Hb; [|reflexivity].
  pose proof (brackets_range _ _ _ Hb) as Hj. unfold len in Hj.
  assert (Hex : existsb (fun n => brackets points targetX (Z.of_nat n))
                        (seq 0 (List.length points - 1)) = true).
  { apply existsb_exists. exists (Z.to_nat j). split.
    - apply in_seq. lia.
    - rewrite Z2Nat.id by lia. exact Hb. }
  congruence.
Qed.

(** At or past the last [x] of an ascending sequence with a first [x]
    below the target the clamps of getYAtX agree with the claim. *)
Lemma getYAtX_clamp_right_ascending points targetX pl :
  ascending points = true ->
  lookup points (len points - 1) = Some pl -> geb targetX (x pl) = true ->
  getYAtX points targetX = Some (y pl).
Proof.
  intros Hasc El Hge. pose proof (lookup_range _ _ _ El) as Hl.
  destruct (lookup_defined points 0) as [p0 E0]; [lia|].
  destruct (leb targetX (x p0)) eqn:Hle.
  - destruct (Z.eq_dec (len points) 1) as [E1|Hn].
    + replace (len points - 1) with 0 in El by lia.
      assert (p0 = pl) as -> by congruence.
      apply getYAtX_clamp_left; trivial.
    + exfalso. assert (Hlt : ltb (x p0) (x pl) = true).
      { apply (ascending_lt_index points 0 (len points - 1)); trivial. lia. }
      pose proof (leb_ltb_trans _ _ _ Hle Hlt) as Hq.
      apply ltb_not_leb in Hq. rewrite geb_leb in Hge. congruence.
  - apply getYAtX_clamp_right with (p0 := p0); trivial.
Qed.

End Bracketed.

(** ** Paint order *)

Section PaintOrder.
Context {number : Type} {arith : Arith number}.
Implicit Types (lines : list (ChartLine number)).

Lemma lookup_last_app {A : Type} (l : list A) (a : A) :
  lookup (l ++ [a]) (len (l ++ [a]) - 1) = Some a.
Proof.
  unfold lookup, len. rewrite length_app. cbn [List.length].
  destruct (Z.ltb_spec (Z.of_nat (List.length l + 1) - 1) 0); [lia|].
  replace (Z.to_nat (Z.of_nat (List.length l + 1) - 1)) with (List.length l) by lia.
  rewrite nth_error_app2, Nat.sub_diag by lia. reflexivity.
Qed.

Lemma drawn_elementOf chartHeight (pl : ProcessedLine number) :
  drawn chartHeight (elementOf chartHeight pl) (line pl).
Proof. split; [reflexivity|]. symmetry. cbn. symmetry. apply generateSmoothPath_smoothPath. Qed.

Lemma Forall2_map_both {A B C : Type} (R : B -> C -> Prop) (f : A -> B) (g : A -> C)
    (l : list A) :
  (forall a, R (f a) (g a)) -> Forall2 R (map f l) (map g l).
Proof. intros HR. induction l as [|a l IH]; cbn; constructor; auto. Qed.

Lemma seriesPaths_drawn lines chartHeight :
  Forall2 (drawn chartHeight)
          (map (elementOf chartHeight) (rev (processedLines lines)))
          (rev lines).
Proof.
  replace (rev lines) with (map line (rev (processedLines lines))).
  - apply Forall2_map_both, drawn_elementOf.
  - rewrite map_rev. unfold processedLines. rewrite mapIndexed_line. reflexivity.
Qed.

Lemma seriesPaths_last lines chartHeight l :
  lookup lines 0 = Some l ->
  exists e,
    lookup (map (elementOf chartHeight) (rev (processedLines lines)))
           (len (map (elementOf chartHeight) (rev (processedLines lines))) - 1)
    = Some e /\
    drawn chartHeight e l.
Proof.
  destruct lines as [|l0 rest]; [discriminate|]. intros [= ->].
  unfold processedLines. cbn [mapIndexed rev]. rewrite map_app. cbn [map].
  eexists. split; [apply lookup_last_app|].
  apply (drawn_elementOf chartHeight (processLine l 0)).
Qed.

Lemma primaryLine_first lines l :
  lookup lines 0 = Some l ->
  flagged l = true \/ (forall l', In l' lines -> flagged l' = false) ->
  primaryLine lines = Some l.
Proof.
  intros E0 [Hl|Hnone].
  - destruct lines as [|l0 rest]; [discriminate|]. injection E0 as ->.
    unfold primaryLine. cbn [find]. rewrite Hl. reflexivity.
  - unfold primaryLine. rewrite (find_unflagged lines Hnone). exact E0.
Qed.

End PaintOrder.

(** ** Strictly inside a segment *)

Section Inside.
Context {number : Type} {arith : Arith number} {laws : OrderLaws number}.
Implicit Types (points : list (DataPoint number)) (targetX : number) (i j k : Z).

(** Strictly between two neighbours of an ascending sequence the value
    is the interpolation on their segment. *)
Lemma getYAtX_strictly_inside points targetX i pi pj :
  ascending points = true ->
  lookup points i = Some pi -> lookup points (i + 1) = Some pj ->
  ltb (x pi) targetX = true -> ltb targetX (x pj) = true ->
  getYAtX points targetX = Some (interpolate pi pj targetX).
Proof.
  intros Hasc Ei Ej Hi Hj.
  pose proof (lookup_range _ _ _ Ei) as Ri. pose proof (lookup_range _ _ _ Ej) as Rj.
  destruct (lookup_defined points 0) as [p0 E0]; [lia|].
  destruct (lookup_defined points (len points - 1)) as [pl El]; [lia|].
  assert (H0 : ltb (x p0) targetX = true).
  { destruct (Z.eq_dec i 0) as [->|Hne].
    - assert (p0 = pi) as -> by congruence. exact Hi.
    - apply ltb_trans with (x pi); trivial.
      apply (ascending_lt_index points 0 i); trivial. lia. }
  assert (Hl : ltb targetX (x pl) = true).
  { destruct (Z.eq_dec (i + 1) (len points - 1)) as [E|Hne].
    - rewrite E in Ej. assert (pl = pj) as -> by congruence. exact Hj.
    - apply ltb_trans with (x pj); trivial.
      apply (ascending_lt_index points (i + 1) (len points - 1)); trivial. lia. }
  apply getYAtX_segment with (p0 := p0) (pl := pl) (k := i); trivial.
  - apply ltb_not_leb, H0.
  - rewrite geb_leb. apply ltb_not_leb, Hl.
  - split.
    + unfold brackets. rewrite Ei, Ej, geb_leb, (ltb_leb _ _ Hi), (ltb_leb _ _ Hj).
      reflexivity.
    + intros k Hk. unfold brackets.
      destruct (lookup_defined points k) as [pk Ek]; [lia|].
      destruct (lookup_defined points (k + 1)) as [pk' Ek']; [lia|].
      rewrite Ek, Ek'.
      assert (Hlt : ltb (x pk') targetX = true).
      { destruct (Z.eq_dec (k + 1) i) as [E|Hne].
        - rewrite E in Ek'. assert (pk' = pi) as -> by congruence. exact Hi.
        - apply ltb_trans with (x pi); trivial.
          apply (ascending_lt_index points (k + 1) i); trivial. lia. }
      rewrite (ltb_not_leb _ _ Hlt). apply andb_false_r.
Qed.

End Inside.

(** ** getYAtX and generateSmoothPath without rounding *)

Module ExactFacts.
Import Exact ExactOrder.

Lemma interpolate_lerp (pi pj : DataPoint Q) (q : Q) :
  interpolate pi pj q = lerp (x pi) (y pi) (x pj) (y pj) q.
Proof. reflexivity. Qed.

Lemma lerp_left (a ya b yb q : Q) : (q == a)%Q -> (lerp a ya b yb q == ya)%Q.
Proof. intros Hq. unfold lerp, Qdiv. rewrite Hq. ring. Qed.

Lemma lerp_right (a ya b yb q : Q) :
  (a < b)%Q -> (q == b)%Q -> (lerp a ya b yb q == yb)%Q.
Proof.
  intros Hab Hq. unfold lerp. rewrite Hq. field.
  intros E. lra.
Qed.

Lemma lerp_increasing (a ya b yb q1 q2 : Q) :
  (a < b)%Q -> (q1 <= q2)%Q -> (ya <= yb)%Q ->
  (lerp a ya b yb q1 <= lerp a ya b yb q2)%Q.
Proof.
  intros Hab Hq Hy. unfold lerp, Qdiv.
  assert (Hc : (0 < / (b - a))%Q) by (apply Qinv_lt_0_compat; lra).
  assert (Hcy : (0 <= / (b - a) * (yb - ya))%Q) by (apply Qmult_le_0_compat; lra).
  assert (Hprod : (0 <= (q2 - q1) * (/ (b - a) * (yb - ya)))%Q)
    by (apply Qmult_le_0_compat; lra).
  lra.
Qed.

Lemma lerp_decreasing (a ya b yb q1 q2 : Q) :
  (a < b)%Q -> (q1 <= q2)%Q -> (yb <= ya)%Q ->
  (lerp a ya b yb q2 <= lerp a ya b yb q1)%Q.
Proof.
  intros Hab Hq Hy. unfold lerp, Qdiv.
  assert (Hc : (0 < / (b - a))%Q) by (apply Qinv_lt_0_compat; lra).
  assert (Hcy : (0 <= / (b - a) * (ya - yb))%Q) by (apply Qmult_le_0_compat; lra).
  assert (Hprod : (0 <= (q2 - q1) * (/ (b - a) * (ya - yb)))%Q)
    by (apply Qmult_le_0_compat; lra).
  lra.
Qed.

Lemma ascending_Qlt (points : list (DataPoint Q)) i j pi pj :
  ascending points = true -> i < j ->
  lookup points i = Some pi -> lookup points j = Some pj ->
  (x pi < x pj)%Q.
Proof.
  intros Hasc Hij Ei Ej. apply qltb_lt.
  apply (ascending_lt_index points i j pi pj Hasc Hij Ei Ej).
Qed.

(** On the closed segment between two neighbours of an ascending sequence
    the value is that of the interpolation formula on that segment. *)
Lemma getYAtX_on_segment (points : list (DataPoint Q)) (q : Q) i (pi pj : DataPoint Q) :
  ascending points = true ->
  lookup points i = Some pi -> lookup points (i + 1) = Some pj ->
  (x pi <= q)%Q -> (q <= x pj)%Q ->
  exists v, getYAtX points q = Some v /\
            (v == lerp (x pi) (y pi) (x pj) (y pj) q)%Q.
Proof.
  intros Hasc Ei Ej Hi Hj.
  pose proof (lookup_range _ _ _ Ei) as Ri. pose proof (lookup_range _ _ _ Ej) as Rj.
  pose proof (ascending_Qlt points i (i + 1) pi pj Hasc ltac:(lia) Ei Ej) as Hij.
  destruct (lookup_defined points 0) as [p0 E0]; [lia|].
  destruct (lookup_defined points (len points - 1)) as [pl El]; [lia|].
  destruct (Qle_bool q (x p0)) eqn:Hle0.
  - (* at or before the first point: [i] is 0 and [q] is its [x] *)
    exists (y p0). split; [apply getYAtX_clamp_left; trivial|].
    apply Qle_bool_iff in Hle0.
    destruct (Z.eq_dec i 0) as [->|Hne].
    + assert (p0 = pi) as -> by congruence.
      symmetry. apply lerp_left. lra.
    + pose proof (ascending_Qlt points 0 i p0 pi Hasc ltac:(lia) E0 Ei). lra.
  - apply qleb_false in Hle0.
    destruct (Qle_bool (x pl) q) eqn:Hlel.
    + (* at or after the last point: [i + 1] is last and [q] is its [x] *)
      exists (y pl). split.
      { apply getYAtX_clamp_right with (p0 := p0); trivial.
        apply qleb_false, Hle0. }
      apply Qle_bool_iff in Hlel.
      destruct (Z.eq_dec (i + 1) (len points - 1)) as [E|Hne].
      * rewrite E in Ej. assert (pl = pj) as -> by congruence.
        symmetry. apply lerp_right; trivial. lra.
      * pose proof (ascending_Qlt points (i + 1) (len points - 1) pj pl Hasc
                      ltac:(lia) Ej El). lra.
    + apply qleb_false in Hlel.
      destruct (first_bracket_exists points q p0 pl Hasc E0
                  (proj2 (qltb_lt _ _) Hle0) El (proj2 (qltb_lt _ _) Hlel))
        as (k & pk & pk' & Ek & Ek' & Hfirst).
      exists (interpolate pk pk' q). split.
      { apply getYAtX_segment with (p0 := p0) (pl := pl) (k := k); trivial.
        - apply qleb_false, Hle0.
        - apply qleb_false, Hlel. }
      pose proof (lookup_range _ _ _ Ek) as Rk.
      destruct Hfirst as [Hb Hfirst]. unfold brackets in Hb. rewrite Ek, Ek' in Hb.
      apply andb_true_iff in Hb as [Hbk Hbk'].
      apply Qle_bool_iff in Hbk, Hbk'.
      destruct (Z.lt_trichotomy k i) as [Hlt|[->|Hgt]].
      * (* the segment to the left, met at its right end *)
        destruct (Z.eq_dec (k + 1) i) as [E|Hne].
        -- rewrite E in Ek'. assert (pk' = pi) as -> by congruence.
           pose proof (ascending_Qlt points k i pk pi Hasc ltac:(lia) Ek Ei).
           rewrite interpolate_lerp, lerp_right, lerp_left; trivial; try reflexivity; lra.
        -- pose proof (ascending_Qlt points (k + 1) i pk' pi Hasc ltac:(lia) Ek' Ei).
           lra.
      * assert (pk = pi) as -> by congruence. assert (pk' = pj) as -> by congruence.
        reflexivity.
      * exfalso. assert (Hbi : brackets points q i = false) by (apply Hfirst; lia).
        unfold brackets in Hbi. rewrite Ei, Ej in Hbi.
        apply andb_false_iff in Hbi as [Hbi|Hbi]; apply qleb_false in Hbi; lra.
Qed.

(** At a sample point the value is the sample's own [y]. *)
Lemma getYAtX_at_sample (points : list (DataPoint Q)) i (pi : DataPoint Q) :
  ascending points = true -> lookup points i = Some pi ->
  exists v, getYAtX points (x pi) = Some v /\ (v == y pi)%Q.
Proof.
  intros Hasc Ei. pose proof (lookup_range _ _ _ Ei) as Ri.
  destruct (Z.eq_dec i 0) as [->|Hne0].
  { exists (y pi). split; [apply getYAtX_at_first; trivial|reflexivity]. }
  destruct (Z.eq_dec i (len points - 1)) as [->|Hnel].
  { exists (y pi). split; [apply getYAtX_at_last; trivial|reflexivity]. }
  destruct (lookup_defined points (i - 1)) as [pp Ep]; [lia|].
  exists (interpolate pp pi (x pi)). split.
  - apply getYAtX_at_inner with (i := i); trivial. lia.
  - rewrite interpolate_lerp. apply lerp_right; [|reflexivity].
    apply (ascending_Qlt points (i - 1) i pp pi Hasc); trivial. lia.
Qed.

(** Between two neighbours the value follows their [y]. *)
Lemma getYAtX_monotone (points : list (DataPoint Q)) i (pi pj : DataPoint Q) (q1 q2 : Q) :
  ascending points = true ->
  lookup points i = Some pi -> lookup points (i + 1) = Some pj ->
  (x pi <= q1)%Q -> (q1 <= q2)%Q -> (q2 <= x pj)%Q ->
  exists v1 v2,
    getYAtX points q1 = Some v1 /\ getYAtX points q2 = Some v2 /\
    ((y pi <= y pj)%Q -> (v1 <= v2)%Q) /\
    ((y pj <= y pi)%Q -> (v2 <= v1)%Q).
Proof.
  intros Hasc Ei Ej H1 H12 H2.
  pose proof (ascending_Qlt points i (i + 1) pi pj Hasc ltac:(lia) Ei Ej) as Hij.
  destruct (getYAtX_on_segment points q1 i pi pj Hasc Ei Ej) as (v1 & E1 & Hv1);
    [lra|lra|].
  destruct (getYAtX_on_segment points q2 i pi pj Hasc Ei Ej) as (v2 & E2 & Hv2);
    [lra|lra|].
  exists v1, v2. repeat split; trivial; intros Hy; rewrite Hv1, Hv2.
  - apply lerp_increasing; trivial.
  - apply lerp_decreasing; trivial.
Qed.

Lemma onSegment_cross (a b c : Q * Q) :
  onSegment a b c ->
  ((fst c - fst a) * (snd b - snd a) == (snd c - snd a) * (fst b - fst a))%Q.
Proof. intros (s & _ & _ & -> & ->). ring. Qed.

(** For two points the neighbours clamp to the points themselves and
    both control points are on the segment between the mapped points. *)
Lemma generateSmoothPath_two (p1 p2 : DataPoint Q) (width height : Q) :
  exists c1x c1y c2x c2y : Q,
    generateSmoothPath [p1; p2] width height =
    Some [MoveTo (scaleX width (x p1)) (scaleY height (y p1));
          CurveTo c1x c1y c2x c2y (scaleX width (x p2)) (scaleY height (y p2))] /\
    onSegment (scaleX width (x p1), scaleY height (y p1))
              (scaleX width (x p2), scaleY height (y p2)) (c1x, c1y) /\
    onSegment (scaleX width (x p1), scaleY height (y p1))
              (scaleX width (x p2), scaleY height (y p2)) (c2x, c2y).
Proof.
  do 4 eexists. split; [reflexivity|]. split.
  - exists (1 # 6)%Q. cbn [fst snd add sub div arith six of_int].
    repeat split; try lra; field.
  - exists (5 # 6)%Q. cbn [fst snd add sub div arith six of_int].
    repeat split; try lra; field.
Qed.

End ExactFacts.

(** ** No error is raised *)

Section Total.
Context {number : Type} {arith : Arith number}.
Implicit Types (points : list (DataPoint number)) (targetX : number) (i : Z).

Lemma getYAtX_loop_total points targetX (iters : nat) : forall i,
  0 <= i -> i + Z.of_nat iters <= len points - 1 ->
  exists v, getYAtX_loop points targetX iters i = Some v.
Proof.
  induction iters as [|n IH]; intros i Hi Hlen; cbn [getYAtX_loop].
  - destruct (lookup_defined points (len points - 1)) as [pl El]; [lia|].
    rewrite El. cbn [bind]. eauto.
  - destruct (lookup_defined points i) as [pi Ei]; [lia|].
    destruct (lookup_defined points (i + 1)) as [pj Ej]; [lia|].
    rewrite Ei. cbn [bind]. destruct (geb targetX (x pi)); [|apply IH; lia].
    rewrite Ej. cbn [bind]. destruct (leb targetX (x pj)); [eauto|apply IH; lia].
Qed.

Lemma getYAtX_total points targetX : exists v, getYAtX points targetX = Some v.
Proof.
  unfold getYAtX. pose proof (len_nonneg points) as Hlen.
  destruct (Z.eqb_spec (len points) 0) as [E|Hne]; [eauto|].
  destruct (lookup_defined points 0) as [p0 E0]; [lia|].
  destruct (lookup_defined points (len points - 1)) as [pl El]; [lia|].
  rewrite E0. cbn [bind]. destruct (leb targetX (x p0)); [eauto|].
  rewrite El. cbn [bind]. destruct (geb targetX (x pl)); [eauto|].
  apply getYAtX_loop_total; lia.
Qed.

Lemma getLabelAtX_loop_total points targetX (iters : nat) : forall i,
  0 <= i -> iters = O \/ i + Z.of_nat iters <= len points - 1 ->
  exists s, getLabelAtX_loop points targetX iters i = Some s.
Proof.
  induction iters as [|n IH]; intros i Hi Hlen; cbn [getLabelAtX_loop]; [eauto|].
  destruct Hlen as [Hlen|Hlen]; [discriminate|].
  destruct (lookup_defined points i) as [pi Ei]; [lia|].
  destruct (lookup_defined points (i + 1)) as [pj Ej]; [lia|].
  assert (Hrec : exists s, getLabelAtX_loop points targetX n (i + 1) = Some s).
  { apply IH; [lia|]. right. lia. }
  rewrite Ei. cbn [bind]. destruct (geb targetX (x pi)); [|exact Hrec].
  rewrite Ej. cbn [bind]. destruct (leb targetX (x pj)); [eauto|exact Hrec].
Qed.

Lemma getLabelAtX_total (lines : list (ChartLine number)) targetX :
  exists s, getLabelAtX lines targetX = Some s.
Proof.
  unfold getLabelAtX. destruct (primaryLine lines) as [l|]; [|eauto].
  apply getLabelAtX_loop_total; [lia|].
  pose proof (len_nonneg (data l)).
  destruct (Z.eq_dec (len (data l)) 0) as [E|Hne].
  - left. rewrite E. reflexivity.
  - right. lia.
Qed.

Lemma lookup_Forall {A : Type} (P : A -> Prop) (l : list A) i (a : A) :
  Forall P l -> lookup l i = Some a -> P a.
Proof.
  intros Hall. unfold lookup. destruct (i <? 0); [discriminate|].
  intros Ha%nth_error_In. rewrite Forall_forall in Hall. auto.
Qed.

End Total.

(** ** Rounding keeps a positive difference positive *)

Module Binary64Sub.
Import Binary64 Binary64Order.

Lemma fexp_max (e : Z) : fexp prec emax e = Z.max (e - 53) (-1074).
Proof. reflexivity. Qed.

Lemma fexp_least (e : Z) : -1074 <= fexp prec emax e.
Proof. rewrite fexp_max. lia. Qed.

Lemma digits2_size (m : positive) : digits2_pos m = Pos.size m.
Proof. induction m as [m IH|m IH|]; cbn; congruence. Qed.

(** [2 ^ (digits - 1) <= m < 2 ^ digits]. *)
Lemma digits2_bounds (m : positive) :
  2 ^ (Zpos (digits2_pos m) - 1) <= Zpos m < 2 ^ Zpos (digits2_pos m).
Proof.
  rewrite digits2_size. split.
  - pose proof (Pos.size_le m) as Hle.
    apply Pos2Z.pos_le_pos in Hle. rewrite Pos2Z.inj_pow, (Pos2Z.inj_xO m) in Hle.
    assert (E : 2 ^ Zpos (Pos.size m) = 2 * 2 ^ (Zpos (Pos.size m) - 1)).
    { rewrite <- Z.pow_succ_r by lia. f_equal. lia. }
    lia.
  - pose proof (Pos.size_gt m) as Hgt.
    apply Pos2Z.pos_lt_pos in Hgt. rewrite Pos2Z.inj_pow in Hgt. exact Hgt.
Qed.

(** The mantissa of a binary64 number has at most 53 digits, and exactly
    53 above the least exponent. *)
Lemma bounded_digits (m : positive) (e : Z) :
  bounded prec emax m e = true ->
  -1074 <= e /\ Zpos (digits2_pos m) <= 53 /\
  (-1074 < e -> Zpos (digits2_pos m) = 53).
Proof.
  unfold bounded, canonical_mantissa. intros [Hc _]%andb_true_iff.
  apply Z.eqb_eq in Hc. rewrite fexp_max in Hc. lia.
Qed.

Lemma shl_align_value (m : positive) (e ez : Z) :
  ez <= e -> Zpos (fst (shl_align m e ez)) = Zpos m * 2 ^ (e - ez).
Proof.
  intros Hle. unfold shl_align.
  destruct (ez - e) as [|d|d] eqn:Ed; cbn [fst].
  - replace (e - ez) with 0 by lia. lia.
  - lia.
  - rewrite (Pos.iter_swap_gen _ _ Zpos xO (Z.mul 2)) by reflexivity.
    change (Pos.iter (Z.mul 2) (Zpos m) d) with (Z.shiftl (Zpos m) (Zpos d)).
    rewrite Z.shiftl_mul_pow2 by lia. f_equal. f_equal. lia.
Qed.

(** *** Shifting right *)

Lemma shr_1_m (mrs : shr_record) :
  0 <= shr_m mrs -> shr_m (shr_1 mrs) = Z.shiftr (shr_m mrs) 1.
Proof.
  destruct mrs as [m r s]. cbn [shr_m]. intros Hm. rewrite <- Z.div2_spec.
  destruct m as [|[p|p|]|p]; try reflexivity. lia.
Qed.

Lemma shiftr_nonneg (a n : Z) : 0 <= a -> 0 <= n -> 0 <= Z.shiftr a n.
Proof. intros Ha Hn. apply Z.shiftr_nonneg. exact Ha. Qed.

Lemma iter_shr_1_m (p : positive) : forall mrs : shr_record,
  0 <= shr_m mrs ->
  shr_m (iter_pos shr_1 p mrs) = Z.shiftr (shr_m mrs) (Zpos p).
Proof.
  induction p as [p IH|p IH|]; intros mrs Hm; cbn [iter_pos].
  - assert (H1 : 0 <= shr_m (shr_1 mrs)).
    { rewrite shr_1_m by trivial. apply shiftr_nonneg; lia. }
    assert (H2 : 0 <= shr_m (iter_pos shr_1 p (shr_1 mrs))).
    { rewrite IH by trivial. apply shiftr_nonneg; lia. }
    rewrite IH, IH, shr_1_m by trivial.
    rewrite !Z.shiftr_shiftr by lia. f_equal. lia.
  - assert (H2 : 0 <= shr_m (iter_pos shr_1 p mrs)).
    { rewrite IH by trivial. apply shiftr_nonneg; lia. }
    rewrite IH, IH by trivial.
    rewrite Z.shiftr_shiftr by lia. f_equal. lia.
  - apply shr_1_m, Hm.
Qed.

Lemma shr_record_of_loc_m (m : Z) (l : location) :
  shr_m (shr_record_of_loc m l) = m.
Proof. destruct l as [|[ | | ]]; reflexivity. Qed.

(** Shifting to the exponent of the format keeps a positive mantissa
    positive, above the least exponent. *)
Lemma shr_fexp_positive (m : positive) (e : Z) (l : location) :
  -1074 <= e ->
  0 < shr_m (fst (shr_fexp prec emax (Zpos m) e l)) /\
  -1074 <= snd (shr_fexp prec emax (Zpos m) e l).
Proof.
  intros He. unfold shr_fexp, shr. cbn [Zdigits2].
  pose proof (digits2_bounds m) as [Hlow _].
  pose proof (fexp_least (Zpos (digits2_pos m) + e)) as Hf.
  rewrite fexp_max in *.
  destruct (Z.max (Zpos (digits2_pos m) + e - 53) (-1074) - e) as [|n|n] eqn:En;
    cbn [fst snd]; rewrite ?shr_record_of_loc_m; try lia.
  split; [|lia].
  rewrite iter_shr_1_m by (rewrite shr_record_of_loc_m; lia).
  rewrite shr_record_of_loc_m, Z.shiftr_div_pow2 by lia.
  apply Z.div_str_pos. split; [apply Z.pow_pos_nonneg; lia|].
  apply Z.le_trans with (2 ^ (Zpos (digits2_pos m) - 1)); trivial.
  apply Z.pow_le_mono_r; lia.
Qed.

Lemma round_nearest_even_positive (m : Z) (l : location) :
  0 < m -> 0 < round_nearest_even m l.
Proof.
  intros Hm. destruct l as [|[ | | ]]; cbn [round_nearest_even]; try lia.
  destruct (Z.even m); lia.
Qed.

(** A positive mantissa above the least exponent rounds to a number of
    the same sign that is not zero. *)
Lemma binary_round_aux_nonzero (s : bool) (m : positive) (e : Z) (l : location) :
  -1074 <= e -> signed_nonzero s (binary_round_aux prec emax s (Zpos m) e l).
Proof.
  intros He. unfold binary_round_aux.
  pose proof (shr_fexp_positive m e l He) as [Hm1 He1].
  destruct (shr_fexp prec emax (Zpos m) e l) as [mrs' e'].
  cbn [fst snd] in Hm1, He1.
  pose proof (round_nearest_even_positive (shr_m mrs') (loc_of_shr_record mrs') Hm1)
    as Hr.
  destruct (round_nearest_even (shr_m mrs') (loc_of_shr_record mrs')) as [|m1|m1];
    try lia.
  pose proof (shr_fexp_positive m1 e' loc_Exact He1) as [Hm2 _].
  destruct (shr_fexp prec emax (Zpos m1) e' loc_Exact) as [mrs'' e''].
  cbn [fst] in Hm2.
  destruct (shr_m mrs'') as [|m2|m2]; try lia.
  destruct (e'' <=? emax - prec); reflexivity.
Qed.

Lemma binary_round_nonzero (s : bool) (m : positive) (e : Z) :
  -1074 <= e -> signed_nonzero s (binary_round prec emax s m e).
Proof.
  intros He. unfold binary_round.
  pose proof (fexp_least (Zpos (digits2_pos m) + e)) as Hf.
  unfold shl_align.
  destruct (fexp prec emax (Zpos (digits2_pos m) + e) - e) as [|d|d] eqn:Ed;
    apply binary_round_aux_nonzero; lia.
Qed.

Lemma signed_nonzero_positive (a : spec_float) :
  signed_nonzero false a -> SFltb (of_Z 0) a = true.
Proof. destruct a as [s|s| |s m e]; cbn; intros Hs; try contradiction; subst; reflexivity. Qed.

(** *** The difference of two numbers in order *)

(** Of two mantissas of the format in lexicographic order of exponent and
    mantissa the second is the larger once both are aligned. *)
Lemma aligned_lt (m1 m2 : positive) (e1 e2 : Z) :
  bounded prec emax m1 e1 = true -> bounded prec emax m2 e2 = true ->
  e1 < e2 \/ (e1 = e2 /\ Zpos m1 < Zpos m2) ->
  Zpos (fst (shl_align m1 e1 (Z.min e1 e2))) <
  Zpos (fst (shl_align m2 e2 (Z.min e1 e2))).
Proof.
  intros (He1 & Hd1 & _)%bounded_digits (He2 & _ & Hd2)%bounded_digits Hlt.
  rewrite !shl_align_value by lia.
  destruct Hlt as [Hlt|[-> Hlt]].
  - replace (Z.min e1 e2) with e1 by lia. rewrite Z.sub_diag, Z.mul_1_r.
    pose proof (digits2_bounds m1) as [_ Hm1].
    pose proof (digits2_bounds m2) as [Hm2 _].
    rewrite Hd2 in Hm2 by lia.
    assert (H53 : 2 ^ Zpos (digits2_pos m1) <= 2 ^ 53)
      by (apply Z.pow_le_mono_r; lia).
    assert (Hp : 2 ^ 1 <= 2 ^ (e2 - e1)) by (apply Z.pow_le_mono_r; lia).
    change (2 ^ (53 - 1)) with 4503599627370496 in Hm2.
    change (2 ^ 53) with 9007199254740992 in H53.
    change (2 ^ 1) with 2 in Hp. nia.
  - rewrite Z.min_id, Z.sub_diag. lia.
Qed.

(** The difference [b - a] of two binary64 numbers with [a < b] is
    greater than zero: it does not round to zero. *)
Lemma fsub_positive (a b : spec_float) :
  valid a -> valid b -> SFltb a b = true -> SFltb (of_Z 0) (fsub b a) = true.
Proof.
  intros Ha Hb Hlt. apply SFltb_rank in Hlt as (ka & kb & Eka & Ekb & Hlt).
  destruct a as [sa|sa| |sa ma ea], b as [sb|sb| |sb mb eb];
    try destruct sa; try destruct sb; cbn in Eka, Ekb; try discriminate;
    injection Eka as <-; injection Ekb as <-; cbn in Hlt; try lia;
    try reflexivity.
  all: unfold valid in Ha, Hb; cbn [valid_binary] in Ha, Hb.
  all: apply signed_nonzero_positive; unfold fsub; cbn [SFsub cond_Zopp].
  - (* both negative *)
    pose proof (bounded_digits _ _ Ha) as (Hea & _).
    pose proof (bounded_digits _ _ Hb) as (Heb & _).
    assert (Hal : Zpos (fst (shl_align mb eb (Z.min eb ea))) <
                  Zpos (fst (shl_align ma ea (Z.min eb ea)))).
    { apply aligned_lt; trivial. lia. }
    unfold binary_normalize.
    destruct (- Zpos (fst (shl_align mb eb (Z.min eb ea))) -
              - Zpos (fst (shl_align ma ea (Z.min eb ea)))) as [|D|D] eqn:ED; try lia.
    apply binary_round_nonzero. lia.
  - (* a negative, b positive *)
    pose proof (bounded_digits _ _ Ha) as (Hea & _).
    pose proof (bounded_digits _ _ Hb) as (Heb & _).
    unfold binary_normalize.
    destruct (Zpos (fst (shl_align mb eb (Z.min eb ea))) -
              - Zpos (fst (shl_align ma ea (Z.min eb ea)))) as [|D|D] eqn:ED; try lia.
    apply binary_round_nonzero. lia.
  - (* both positive *)
    pose proof (bounded_digits _ _ Ha) as (Hea & _).
    pose proof (bounded_digits _ _ Hb) as (Heb & _).
    assert (Hal : Zpos (fst (shl_align ma ea (Z.min ea eb))) <
                  Zpos (fst (shl_align mb eb (Z.min ea eb)))).
    { apply aligned_lt; trivial. lia. }
    rewrite Z.min_comm in Hal.
    unfold binary_normalize.
    destruct (Zpos (fst (shl_align mb eb (Z.min eb ea))) -
              Zpos (fst (shl_align ma ea (Z.min eb ea)))) as [|D|D] eqn:ED; try lia.
    apply binary_round_nonzero. lia.
Qed.

End Binary64Sub.

(** ** Math.max, Math.min and NaN *)

Module Binary64Clamp.
Import Binary64 Binary64Order.


Lemma SFcompare_antisym (a b : spec_float) :
  SFcompare b a = option_map CompOpp (SFcompare a b).
Proof.
  rewrite (SFcompare_rank a b), (SFcompare_rank b a).
  destruct (rank a) as [ka|], (rank b) as [kb|]; try reflexivity.
  cbn [option_map]. rewrite (lex_antisym ka kb). reflexivity.
Qed.

Lemma SFcompare_notnan (a b : spec_float) :
  is_nan a = false -> is_nan b = false -> exists c, SFcompare a b = Some c.
Proof.
  intros [ka Ha]%notnan_rank [kb Hb]%notnan_rank.
  rewrite SFcompare_rank, Ha, Hb. eauto.
Qed.

Lemma lex_Eq (a b : Z * Z * Z) : lex a b = Eq -> a = b.
Proof.
  destruct a as [[a1 a2] a3], b as [[b1 b2] b3]. unfold lex.
  destruct (Z.compare_spec a1 b1); try discriminate.
  destruct (Z.compare_spec a2 b2); try discriminate.
  destruct (Z.compare_spec a3 b3); try discriminate.
  intros _. congruence.
Qed.

(** Numbers that compare equal are the same, or both zero. *)
Lemma SFcompare_Eq (a b : spec_float) :
  SFcompare a b = Some Eq ->
  a = b \/ (exists s s', a = S754_zero s /\ b = S754_zero s').
Proof.
  rewrite SFcompare_rank.
  destruct (rank a) as [ka|] eqn:Ha; [|discriminate].
  destruct (rank b) as [kb|] eqn:Hb; [|discriminate].
  intros [= Hlex%lex_Eq]. subst kb.
  destruct a as [sa|sa| |sa ma ea], b as [sb|sb| |sb mb eb];
    try destruct sa; try destruct sb; cbn in Ha, Hb; try congruence;
    eauto; left; injection Ha as <-; injection Hb; intros; f_equal; lia.
Qed.

Lemma SFleb_of_compare (a b : spec_float) (c : comparison) :
  SFcompare a b = Some c -> c <> Gt -> SFleb a b = true.
Proof. unfold SFleb. intros -> Hc. destruct c; congruence. Qed.

(** [Math.max] of two numbers is one of them and not below either. *)
Lemma max_cases (a b : spec_float) :
  is_nan a = false -> is_nan b = false ->
  (Binary64.max a b = a /\ SFleb b a = true) \/
  (Binary64.max a b = b /\ SFleb a b = true).
Proof.
  intros Ha Hb. destruct (SFcompare_notnan a b Ha Hb) as [c Hc].
  pose proof (SFcompare_antisym a b) as Hba. rewrite Hc in Hba. cbn in Hba.
  unfold Binary64.max. rewrite Hc. destruct c.
  - destruct a as [[|]| | |]; [right|left|left|left|left]; split; trivial;
      first [apply (SFleb_of_compare _ _ _ Hc) | apply (SFleb_of_compare _ _ _ Hba)];
      discriminate.
  - right. split; trivial. apply (SFleb_of_compare _ _ _ Hc). discriminate.
  - left. split; trivial. apply (SFleb_of_compare _ _ _ Hba). discriminate.
Qed.

(** [Math.min] of two numbers is one of them and not above either. *)
Lemma min_cases (a b : spec_float) :
  is_nan a = false -> is_nan b = false ->
  (mathMin a b = a /\ SFleb a b = true) \/
  (mathMin a b = b /\ SFleb b a = true).
Proof.
  intros Ha Hb. destruct (SFcompare_notnan a b Ha Hb) as [c Hc].
  pose proof (SFcompare_antisym a b) as Hba. rewrite Hc in Hba. cbn in Hba.
  unfold mathMin. rewrite Hc. destruct c.
  - destruct a as [[|]| | |]; [left|right|left|left|left]; split; trivial;
      first [apply (SFleb_of_compare _ _ _ Hc) | apply (SFleb_of_compare _ _ _ Hba)];
      discriminate.
  - left. split; trivial. apply (SFleb_of_compare _ _ _ Hc). discriminate.
  - right. split; trivial. apply (SFleb_of_compare _ _ _ Hba). discriminate.
Qed.



Lemma SFleb_notnan (a b : spec_float) :
  SFleb a b = true -> is_nan a = false /\ is_nan b = false.
Proof.
  unfold SFleb. destruct a as [sa|sa| |sa ma ea], b as [sb|sb| |sb mb eb];
    cbn; intros H; try discriminate; auto.
Qed.

Lemma SFleb_trans (a b c : spec_float) :
  SFleb a b = true -> SFleb b c = true -> SFleb a c = true.
Proof.
  intros Hab Hbc. ranks. apply SFleb_rank.
  do 2 eexists. repeat split; eauto. triples. lia.
Qed.

(** [Math.max(lo, Math.min(hi, v))] is NaN for NaN and otherwise between
    [lo] and [hi]. *)
Lemma clamp_range (lo hi v : spec_float) :
  SFleb lo hi = true -> is_nan v = false ->
  is_nan (Binary64.max lo (mathMin hi v)) = false /\
  SFleb lo (Binary64.max lo (mathMin hi v)) = true /\
  SFleb (Binary64.max lo (mathMin hi v)) hi = true.
Proof.
  intros Hlh Hv. destruct (SFleb_notnan _ _ Hlh) as [Hlo Hhi].
  assert (Hm : is_nan (mathMin hi v) = false /\ SFleb (mathMin hi v) hi = true).
  { destruct (min_cases hi v Hhi Hv) as [[-> H]|[-> H]]; split; trivial.
    apply SFleb_rank. apply notnan_rank in Hhi as [k Hk].
    exists k, k. repeat split; trivial. triples. lia. }
  destruct Hm as [Hmn Hmh].
  destruct (max_cases lo (mathMin hi v) Hlo Hmn) as [[-> H]|[-> H]].
  - repeat split; trivial.
    apply SFleb_rank. apply notnan_rank in Hlo as [k Hk].
    exists k, k. repeat split; trivial. triples. lia.
  - repeat split; trivial.
Qed.

(** [Math.min(hi, Math.max(lo, v))], likewise. *)
Lemma pin_range (lo hi v : spec_float) :
  SFleb lo hi = true -> is_nan v = false ->
  is_nan (mathMin hi (Binary64.max lo v)) = false /\
  SFleb lo (mathMin hi (Binary64.max lo v)) = true /\
  SFleb (mathMin hi (Binary64.max lo v)) hi = true.
Proof.
  intros Hlh Hv. destruct (SFleb_notnan _ _ Hlh) as [Hlo Hhi].
  assert (Hm : is_nan (Binary64.max lo v) = false /\
               SFleb lo (Binary64.max lo v) = true).
  { destruct (max_cases lo v Hlo Hv) as [[-> H]|[-> H]]; split; trivial.
    apply SFleb_rank. apply notnan_rank in Hlo as [k Hk].
    exists k, k. repeat split; trivial. triples. lia. }
  destruct Hm as [Hmn Hml].
  destruct (min_cases hi (Binary64.max lo v) Hhi Hmn) as [[-> H]|[-> H]].
  - repeat split; trivial.
    apply SFleb_rank. apply notnan_rank in Hhi as [k Hk].
    exists k, k. repeat split; trivial. triples. lia.
  - repeat split; trivial.
Qed.

End Binary64Clamp.

(** ** Operations on finite numbers do not give NaN *)

Module Binary64Finite.
Import Binary64 Binary64Order Binary64Sub.

Lemma shr_fexp_nonneg (m e : Z) (l : location) :
  0 <= m -> 0 <= shr_m (fst (shr_fexp prec emax m e l)).
Proof.
  intros Hm. unfold shr_fexp, shr.
  destruct (fexp prec emax (Zdigits2 m + e) - e) as [|n|n]; cbn [fst];
    rewrite ?shr_record_of_loc_m; trivial.
  rewrite iter_shr_1_m by (rewrite shr_record_of_loc_m; trivial).
  rewrite shr_record_of_loc_m. apply Z.shiftr_nonneg, Hm.
Qed.

Lemma round_nearest_even_nonneg (m : Z) (l : location) :
  0 <= m -> 0 <= round_nearest_even m l.
Proof.
  intros Hm. destruct l as [|[ | | ]]; cbn [round_nearest_even]; try lia.
  destruct (Z.even m); lia.
Qed.

(** Rounding a mantissa that is not negative gives a zero, a finite
    number or an infinity. *)
Lemma binary_round_aux_notnan (s : bool) (m e : Z) (l : location) :
  0 <= m -> is_nan (binary_round_aux prec emax s m e l) = false.
Proof.
  intros Hm. unfold binary_round_aux.
  pose proof (shr_fexp_nonneg m e l Hm) as H1.
  destruct (shr_fexp prec emax m e l) as [mrs' e']. cbn [fst] in H1.
  pose proof (round_nearest_even_nonneg _ (loc_of_shr_record mrs') H1) as Hr.
  pose proof (shr_fexp_nonneg _ e' loc_Exact Hr) as H2.
  destruct (shr_fexp prec emax
              (round_nearest_even (shr_m mrs') (loc_of_shr_record mrs')) e' loc_Exact)
    as [mrs'' e''].
  cbn [fst] in H2.
  destruct (shr_m mrs'') as [|m2|m2]; try lia; [reflexivity|].
  destruct (e'' <=? emax - prec); reflexivity.
Qed.

Lemma binary_round_notnan (s : bool) (m : positive) (e : Z) :
  is_nan (binary_round prec emax s m e) = false.
Proof.
  unfold binary_round.
  destruct (shl_align m e (fexp prec emax (Zpos (digits2_pos m) + e))) as [mz ez].
  apply binary_round_aux_notnan. lia.
Qed.

Lemma binary_normalize_notnan (m e : Z) (szero : bool) :
  is_nan (binary_normalize prec emax m e szero) = false.
Proof.
  destruct m as [|m|m]; cbn [binary_normalize];
    [reflexivity|apply binary_round_notnan..].
Qed.

(** An integer literal is a number. *)
Lemma of_Z_notnan (z : Z) : is_nan (of_Z z) = false.
Proof. apply binary_normalize_notnan. Qed.

(** The difference of a finite number and a number is a number. *)
Lemma fsub_notnan (a b : spec_float) :
  finite a = true -> is_nan b = false -> is_nan (fsub a b) = false.
Proof.
  destruct a as [sa|sa| |sa ma ea], b as [sb|sb| |sb mb eb];
    try discriminate; intros _ _; unfold fsub; cbn [SFsub];
    try reflexivity; try (destruct sa, sb; reflexivity).
  apply binary_normalize_notnan.
Qed.

(** A number times a finite number that is not zero is a number. *)
Lemma fmul_notnan (a : spec_float) (s : bool) (m : positive) (e : Z) :
  is_nan a = false -> is_nan (fmul a (S754_finite s m e)) = false.
Proof.
  destruct a as [sa|sa| |sa ma ea]; try discriminate; intros _;
    unfold fmul; cbn [SFmul]; try reflexivity.
  apply binary_round_aux_notnan. lia.
Qed.

Lemma div_eucl_nonneg (a : Z) (b : positive) :
  0 <= a -> 0 <= fst (Z.div_eucl a (Zpos b)).
Proof.
  intros Ha. change (fst (Z.div_eucl a (Zpos b))) with (a / Zpos b).
  apply Z.div_pos; lia.
Qed.

(** A number divided by a finite number that is not zero is a number. *)
Lemma fdiv_notnan (a : spec_float) (s : bool) (m : positive) (e : Z) :
  is_nan a = false -> is_nan (fdiv a (S754_finite s m e)) = false.
Proof.
  destruct a as [sa|sa| |sa ma ea]; try discriminate; intros _;
    unfold fdiv; cbn [SFdiv]; try reflexivity.
  unfold SFdiv_core_binary.
  set (shifted := match _ - _ - _ with Zpos _ => Z.shiftl (Zpos ma) _ | Z0 => Zpos ma | Zneg _ => 0 end).
  assert (Hs : 0 <= shifted).
  { unfold shifted. destruct (ea - e - _) as [|n|n]; try lia.
    apply Z.shiftl_nonneg. lia. }
  pose proof (div_eucl_nonneg shifted m Hs) as Hq.
  destruct (Z.div_eucl shifted (Zpos m)) as [q r]. cbn [fst] in Hq.
  apply binary_round_aux_notnan, Hq.
Qed.

(** A finite number minus itself is a zero. *)
Lemma fsub_self (a : spec_float) :
  finite a = true -> exists s, fsub a a = S754_zero s.
Proof.
  destruct a as [sa|sa| |sa ma ea]; try discriminate; intros _;
    unfold fsub; cbn [SFsub].
  - destruct sa; eauto.
  - rewrite Z.sub_diag. cbn [binary_normalize]. eauto.
Qed.

End Binary64Finite.

(** ** Up to the right neighbour, and right of the last sample *)

Section Within.
Context {number : Type} {arith : Arith number} {laws : OrderLaws number}.
Implicit Types (points : list (DataPoint number)) (targetX : number) (i j k : Z).

(** Right of a sample and up to its neighbour, the neighbour itself only
    when it is not the last sample, the value is the interpolation on
    their segment. *)
Lemma getYAtX_within points targetX i pi pj :
  ascending points = true ->
  lookup points i = Some pi -> lookup points (i + 1) = Some pj ->
  ltb (x pi) targetX = true -> leb targetX (x pj) = true ->
  ltb targetX (x pj) = true \/ i + 1 < len points - 1 ->
  getYAtX points targetX = Some (interpolate pi pj targetX).
Proof.
  intros Hasc Ei Ej Hi Hj Hright.
  pose proof (lookup_range _ _ _ Ei) as Ri. pose proof (lookup_range _ _ _ Ej) as Rj.
  destruct (lookup_defined points 0) as [p0 E0]; [lia|].
  destruct (lookup_defined points (len points - 1)) as [pl El]; [lia|].
  assert (H0 : ltb (x p0) targetX = true).
  { destruct (Z.eq_dec i 0) as [->|Hne].
    - assert (p0 = pi) as -> by congruence. exact Hi.
    - apply ltb_trans with (x pi); trivial.
      apply (ascending_lt_index points 0 i); trivial. lia. }
  assert (Hl : ltb targetX (x pl) = true).
  { destruct Hright as [Hlt|Hidx].
    - destruct (Z.eq_dec (i + 1) (len points - 1)) as [E|Hne].
      + rewrite E in Ej. assert (pl = pj) as -> by congruence. exact Hlt.
      + apply ltb_trans with (x pj); trivial.
        apply (ascending_lt_index points (i + 1) (len points - 1)); trivial. lia.
    - apply leb_ltb_trans with (x pj); trivial.
      apply (ascending_lt_index points (i + 1) (len points - 1)); trivial. }
  apply getYAtX_segment with (p0 := p0) (pl := pl) (k := i); trivial.
  - apply ltb_not_leb, H0.
  - rewrite geb_leb. apply ltb_not_leb, Hl.
  - split.
    + unfold brackets. rewrite Ei, Ej, geb_leb, (ltb_leb _ _ Hi), Hj. reflexivity.
    + intros k Hk. unfold brackets.
      destruct (lookup_defined points k) as [pk Ek]; [lia|].
      destruct (lookup_defined points (k + 1)) as [pk' Ek']; [lia|].
      rewrite Ek, Ek'.
      assert (Hlt : ltb (x pk') targetX = true).
      { destruct (Z.eq_dec (k + 1) i) as [E|Hne].
        - rewrite E in Ek'. assert (pk' = pi) as -> by congruence. exact Hi.
        - apply ltb_trans with (x pi); trivial.
          apply (ascending_lt_index points (k + 1) i); trivial. lia. }
      rewrite (ltb_not_leb _ _ Hlt). apply andb_false_r.
Qed.

(** Right of the last sample of an ascending sequence no segment
    brackets. *)
Lemma brackets_right points targetX pl :
  ascending points = true ->
  lookup points (len points - 1) = Some pl -> ltb (x pl) targetX = true ->
  forall j, brackets points targetX j = false.
Proof.
  intros Hasc El Hlt j. unfold brackets.
  destruct (lookup points j) as [pj|] eqn:Ej; [|reflexivity].
  destruct (lookup points (j + 1)) as [pk|] eqn:Ek; [|reflexivity].
  assert (Hk : ltb (x pk) targetX = true).
  { pose proof (lookup_range _ _ _ Ek).
    destruct (Z.eq_dec (j + 1) (len points - 1)) as [E|Hne].
    - rewrite E in Ek. assert (pl = pk) as -> by congruence. exact Hlt.
    - apply ltb_trans with (x pl); trivial.
      apply (ascending_lt_index points (j + 1) (len points - 1)); trivial. lia. }
  rewrite (ltb_not_leb _ _ Hk). apply andb_false_r.
Qed.

End Within.

(** ** Rounding to the nearest number is monotone *)

Module Binary64Round.
Import Binary64 Binary64Order Binary64Sub Binary64Clamp Binary64Finite.

Ltac divmod := Z.div_mod_to_equations; lia.

Lemma rec_code_loc (m : Z) (l : location) :
  rec_code (shr_record_of_loc m l) = 4 * m + loc_code l.
Proof.
  destruct l as [|[ | | ]]; unfold rec_code;
    cbn [shr_record_of_loc shr_m shr_r shr_s loc_code]; lia.
Qed.

Lemma loc_code_range (l : location) : 0 <= loc_code l <= 3.
Proof. destruct l as [|[ | | ]]; cbn; lia. Qed.

Lemma half_code_split (m c : Z) :
  0 <= c <= 3 -> half_code (4 * m + c) = 2 * m + (if c =? 0 then 0 else 1).
Proof.
  intros Hc. unfold half_code.
  assert (E1 : (4 * m + c) / 4 = m) by divmod.
  assert (E2 : (4 * m + c) mod 4 = c) by divmod.
  rewrite E1, E2. reflexivity.
Qed.

Lemma shr_1_code (mrs : shr_record) :
  0 <= shr_m mrs ->
  rec_code (shr_1 mrs) = half_code (rec_code mrs) /\ 0 <= shr_m (shr_1 mrs).
Proof.
  destruct mrs as [m r s]. cbn [shr_m]. intros Hm. unfold rec_code at 2.
  cbn [shr_m shr_r shr_s].
  replace (4 * m + (if r then 2 else 0) + (if s then 1 else 0))
    with (4 * m + ((if r then 2 else 0) + (if s then 1 else 0))) by lia.
  rewrite half_code_split by (destruct r, s; lia).
  destruct m as [|[p|p|]|p]; try lia; destruct r, s; split; cbn; lia.
Qed.

Lemma iter_shr_1_code (p : positive) : forall mrs : shr_record,
  0 <= shr_m mrs ->
  rec_code (iter_pos shr_1 p mrs) = iter_pos half_code p (rec_code mrs) /\
  0 <= shr_m (iter_pos shr_1 p mrs).
Proof.
  induction p as [p IH|p IH|]; intros mrs Hm; cbn [iter_pos].
  - destruct (shr_1_code mrs Hm) as [E1 H1].
    destruct (IH _ H1) as [E2 H2]. destruct (IH _ H2) as [E3 H3].
    rewrite E3, E2, E1. auto.
  - destruct (IH _ Hm) as [E2 H2]. destruct (IH _ H2) as [E3 H3].
    rewrite E3, E2. auto.
  - apply shr_1_code, Hm.
Qed.

(** Codes of fractions *)
Lemma frac_code_range (r b : Z) : 0 <= frac_code r b <= 3.
Proof.
  unfold frac_code. destruct (r =? 0); [lia|]. destruct (2 * r ?= b); lia.
Qed.

Lemma code_of_div (a b : Z) : code_of a b / 4 = a / b.
Proof.
  unfold code_of. pose proof (frac_code_range (a mod b) b). divmod.
Qed.

Lemma frac_code_eqb (r b : Z) : (frac_code r b =? 0) = (r =? 0).
Proof.
  unfold frac_code. destruct (r =? 0); [reflexivity|].
  destruct (2 * r ?= b); reflexivity.
Qed.

Lemma half_code_of (a b : Z) :
  0 <= a -> 0 < b -> half_code (code_of a b) = code_of a (2 * b).
Proof.
  intros Ha Hb. unfold code_of at 1.
  rewrite half_code_split by apply frac_code_range.
  rewrite frac_code_eqb. unfold code_of.
  pose proof (Z.div_mod a b ltac:(lia)) as E.
  pose proof (Z.mod_pos_bound a b Hb) as Hr.
  pose proof (Z.div_mod (a / b) 2 ltac:(lia)) as E2.
  pose proof (Z.mod_pos_bound (a / b) 2 ltac:(lia)) as Hq.
  assert (Hc : (a / b) mod 2 = 0 \/ (a / b) mod 2 = 1) by lia.
  assert (Hdiv : a / (2 * b) = a / b / 2).
  { rewrite Z.mul_comm, <- Z.div_div by lia. reflexivity. }
  assert (Hmod : a mod (2 * b) = (a / b) mod 2 * b + a mod b).
  { symmetry. apply Z.mod_unique_pos with (q := a / b / 2).
    - destruct Hc as [-> | ->]; lia.
    - rewrite E at 1. rewrite E2 at 1. ring. }
  rewrite Hdiv, Hmod.
  set (q := a / b) in *. set (r := a mod b) in *.
  unfold frac_code.
  destruct Hc as [Hc|Hc]; rewrite Hc in *;
  destruct (Z.eqb_spec r 0) as [Er|Er];
    [ destruct (Z.eqb_spec (0 * b + r) 0) as [Es|Es]
    | destruct (Z.eqb_spec (0 * b + r) 0) as [Es|Es]
    | destruct (Z.eqb_spec (1 * b + r) 0) as [Es|Es]
    | destruct (Z.eqb_spec (1 * b + r) 0) as [Es|Es] ]; try lia.
  - destruct (Z.compare_spec (2 * (0 * b + r)) (2 * b)); lia.
  - destruct (Z.compare_spec (2 * (1 * b + r)) (2 * b)); lia.
  - destruct (Z.compare_spec (2 * (1 * b + r)) (2 * b)); lia.
Qed.

Lemma code_of_scale (c a b : Z) :
  0 < c -> 0 < b -> code_of (c * a) (c * b) = code_of a b.
Proof.
  intros Hc Hb. unfold code_of.
  rewrite Z.div_mul_cancel_l, Z.mul_mod_distr_l by lia. f_equal.
  unfold frac_code.
  destruct (Z.eqb_spec (c * (a mod b)) 0) as [E|E];
    destruct (Z.eqb_spec (a mod b) 0) as [E'|E']; try nia; try reflexivity.
  destruct (Z.compare_spec (2 * (c * (a mod b))) (c * b));
    destruct (Z.compare_spec (2 * (a mod b)) b); try reflexivity; nia.
Qed.

Lemma code_of_mono (a1 b1 a2 b2 : Z) :
  0 <= a1 -> 0 < b1 -> 0 <= a2 -> 0 < b2 -> a1 * b2 <= a2 * b1 ->
  code_of a1 b1 <= code_of a2 b2.
Proof.
  intros Ha1 Hb1 Ha2 Hb2 Hle. unfold code_of.
  pose proof (Z.div_mod a1 b1 ltac:(lia)) as E1.
  pose proof (Z.mod_pos_bound a1 b1 Hb1) as Hr1.
  pose proof (Z.div_mod a2 b2 ltac:(lia)) as E2.
  pose proof (Z.mod_pos_bound a2 b2 Hb2) as Hr2.
  pose proof (frac_code_range (a1 mod b1) b1).
  pose proof (frac_code_range (a2 mod b2) b2).
  set (q1 := a1 / b1) in *. set (r1 := a1 mod b1) in *.
  set (q2 := a2 / b2) in *. set (r2 := a2 mod b2) in *.
  assert (Hq : q1 <= q2).
  { destruct (Z.le_gt_cases q1 q2) as [|Hgt]; [trivial|exfalso].
    assert (H1 : b1 * (q2 + 1) <= a1) by nia.
    assert (H2 : a2 < b2 * (q2 + 1)) by nia.
    assert (H3 : b1 * (q2 + 1) * b2 <= a1 * b2) by nia.
    assert (H4 : a2 * b1 < b2 * (q2 + 1) * b1) by nia.
    lia. }
  destruct (Z.eq_dec q1 q2) as [Eqq|Hne]; [|lia].
  assert (Hr : r1 * b2 <= r2 * b1).
  { rewrite E1, E2, Eqq in Hle. nia. }
  rewrite Eqq. apply Z.add_le_mono_l. unfold frac_code.
  destruct (Z.eqb_spec r1 0); destruct (Z.eqb_spec r2 0);
    destruct (Z.compare_spec (2 * r1) b1); destruct (Z.compare_spec (2 * r2) b2);
    try lia; nia.
Qed.


(** round_code *)
Lemma round_code_split (m c : Z) :
  0 <= c <= 3 ->
  round_code (4 * m + c) =
  m + (if c =? 3 then 1 else if c =? 2 then (if Z.even m then 0 else 1) else 0).
Proof.
  intros Hc. unfold round_code.
  assert (E1 : (4 * m + c) / 4 = m) by divmod.
  assert (E2 : (4 * m + c) mod 4 = c) by divmod.
  rewrite E1, E2. reflexivity.
Qed.

Lemma code_split (k : Z) : k = 4 * (k / 4) + k mod 4 /\ 0 <= k mod 4 <= 3.
Proof. divmod. Qed.

Lemma round_code_bounds (k : Z) : k / 4 <= round_code k <= k / 4 + 1.
Proof.
  unfold round_code. destruct (k mod 4 =? 3); [lia|].
  destruct (k mod 4 =? 2); [|lia]. destruct (Z.even (k / 4)); lia.
Qed.

Lemma round_code_mono (k1 k2 : Z) : k1 <= k2 -> round_code k1 <= round_code k2.
Proof.
  intros Hle. pose proof (round_code_bounds k1). pose proof (round_code_bounds k2).
  destruct (code_split k1) as [E1 H1]. destruct (code_split k2) as [E2 H2].
  destruct (Z.eq_dec (k1 / 4) (k2 / 4)) as [Eq|Hne]; [|lia].
  unfold round_code. rewrite Eq.
  destruct (Z.eqb_spec (k1 mod 4) 3); destruct (Z.eqb_spec (k2 mod 4) 3);
    destruct (Z.eqb_spec (k1 mod 4) 2); destruct (Z.eqb_spec (k2 mod 4) 2);
    destruct (Z.even (k2 / 4)); lia.
Qed.

Lemma round_code_exact (m : Z) : round_code (4 * m) = m.
Proof.
  replace (4 * m) with (4 * m + 0) by lia. rewrite round_code_split by lia.
  cbn. lia.
Qed.

Lemma round_nearest_even_code (mrs : shr_record) :
  round_nearest_even (shr_m mrs) (loc_of_shr_record mrs) = round_code (rec_code mrs).
Proof.
  destruct mrs as [m r s]. unfold rec_code. cbn [shr_m shr_r shr_s].
  replace (4 * m + (if r then 2 else 0) + (if s then 1 else 0))
    with (4 * m + ((if r then 2 else 0) + (if s then 1 else 0))) by lia.
  rewrite round_code_split by (destruct r, s; lia).
  destruct r, s; cbn [loc_of_shr_record round_nearest_even Z.add Z.eqb Pos.eqb Pos.add];
    try lia.
  destruct (Z.even m); lia.
Qed.

(** Shifting a code *)
Lemma iter_half_code_of (a : Z) (p : positive) : forall c,
  0 <= a -> 0 < c ->
  iter_pos half_code p (code_of a c) = code_of a (c * 2 ^ Zpos p).
Proof.
  induction p as [p IH|p IH|]; intros c Ha Hc; cbn [iter_pos].
  - assert (Hp : 0 < 2 ^ Zpos p) by (apply Z.pow_pos_nonneg; lia).
    rewrite half_code_of, IH, IH by nia. f_equal.
    rewrite (Pos2Z.inj_xI p), Z.pow_add_r, Z.pow_mul_r by lia.
    change (2 ^ 2) with 4. change (2 ^ 1) with 2.
    replace (4 ^ Zpos p) with (2 ^ Zpos p * 2 ^ Zpos p).
    + ring.
    + rewrite <- Z.pow_mul_l. reflexivity.
  - assert (Hp : 0 < 2 ^ Zpos p) by (apply Z.pow_pos_nonneg; lia).
    rewrite IH, IH by nia. f_equal.
    rewrite (Pos2Z.inj_xO p), Z.pow_mul_r by lia.
    change (2 ^ 2) with 4.
    replace (4 ^ Zpos p) with (2 ^ Zpos p * 2 ^ Zpos p).
    + ring.
    + rewrite <- Z.pow_mul_l. reflexivity.
  - rewrite half_code_of by trivial. f_equal. change (2 ^ 1) with 2. ring.
Qed.

Lemma shr_fexp_code (m e : Z) (l : location) (G a b : Z) :
  0 <= m -> 0 <= a -> 0 < b -> G <= e ->
  code_of a (b * 2 ^ (e - G)) = 4 * m + loc_code l ->
  e <= fexp prec emax (Zdigits2 m + e) ->
  exists mrs,
    shr_fexp prec emax m e l = (mrs, fexp prec emax (Zdigits2 m + e)) /\
    rec_code mrs = code_of a (b * 2 ^ (fexp prec emax (Zdigits2 m + e) - G)) /\
    0 <= shr_m mrs.
Proof.
  intros Hm Ha Hb HG Hcode Hle. unfold shr_fexp, shr.
  set (e' := fexp prec emax (Zdigits2 m + e)) in *.
  destruct (e' - e) as [|p|p] eqn:En; try lia.
  - exists (shr_record_of_loc m l). replace e' with e by lia.
    rewrite rec_code_loc, shr_record_of_loc_m. auto.
  - assert (Hm' : 0 <= shr_m (shr_record_of_loc m l))
      by (rewrite shr_record_of_loc_m; trivial).
    destruct (iter_shr_1_code p _ Hm') as [E H].
    exists (iter_pos shr_1 p (shr_record_of_loc m l)).
    split; [f_equal; lia|]. split; [|exact H].
    rewrite E, rec_code_loc, <- Hcode.
    assert (Hp : 0 < 2 ^ (e - G)) by (apply Z.pow_pos_nonneg; lia).
    rewrite iter_half_code_of by nia. f_equal.
    rewrite <- Z.mul_assoc, <- Z.pow_add_r by lia. do 2 f_equal. lia.
Qed.

(** Digits *)
Lemma Zdigits2_nonneg (x : Z) : 0 <= Zdigits2 x.
Proof. destruct x; cbn; lia. Qed.

Lemma Zdigits2_bounds (x : Z) :
  0 < x -> 2 ^ (Zdigits2 x - 1) <= x < 2 ^ Zdigits2 x.
Proof. destruct x as [|p|p]; try lia. intros _. apply digits2_bounds. Qed.

Lemma Zdigits2_unique (x d : Z) :
  0 < x -> 2 ^ (d - 1) <= x < 2 ^ d -> Zdigits2 x = d.
Proof.
  intros Hx [Hl Hu]. pose proof (Zdigits2_bounds x Hx) as [Hl' Hu'].
  pose proof (Zdigits2_nonneg x) as Hn.
  assert (Hd : 0 <= d).
  { destruct (Z.le_gt_cases 0 d); trivial.
    rewrite Z.pow_neg_r in Hu by lia. lia. }
  assert (H1 : d - 1 < Zdigits2 x).
  { apply (Z.pow_lt_mono_r_iff 2); lia. }
  assert (H2 : Zdigits2 x - 1 < d).
  { apply (Z.pow_lt_mono_r_iff 2); lia. }
  lia.
Qed.

Lemma Zdigits2_mono (x y : Z) : 0 <= x <= y -> Zdigits2 x <= Zdigits2 y.
Proof.
  intros [Hx Hxy]. destruct (Z.eq_dec x 0) as [->|Hne].
  - apply Zdigits2_nonneg.
  - pose proof (Zdigits2_bounds x ltac:(lia)) as [Hl _].
    pose proof (Zdigits2_bounds y ltac:(lia)) as [_ Hu].
    pose proof (Zdigits2_nonneg y).
    assert (H1 : Zdigits2 x - 1 < Zdigits2 y).
    { apply (Z.pow_lt_mono_r_iff 2); lia. }
    lia.
Qed.

Lemma Zdigits2_shift (x n : Z) :
  0 <= n -> 0 < x / 2 ^ n -> Zdigits2 x = Zdigits2 (x / 2 ^ n) + n.
Proof.
  intros Hn Hq. assert (Hp : 0 < 2 ^ n) by (apply Z.pow_pos_nonneg; lia).
  pose proof (Zdigits2_bounds _ Hq) as [Hl Hu].
  pose proof (Zdigits2_nonneg (x / 2 ^ n)) as Hd.
  assert (Hd1 : 1 <= Zdigits2 (x / 2 ^ n)).
  { destruct (Z.eq_dec (Zdigits2 (x / 2 ^ n)) 0) as [E|]; [|lia].
    rewrite E in Hu. change (2 ^ 0) with 1 in Hu. lia. }
  pose proof (Z.div_mod x (2 ^ n) ltac:(lia)) as E.
  pose proof (Z.mod_pos_bound x (2 ^ n) Hp) as Hr.
  apply Zdigits2_unique; [nia|].
  replace (Zdigits2 (x / 2 ^ n) + n - 1) with (Zdigits2 (x / 2 ^ n) - 1 + n) by lia.
  rewrite !Z.pow_add_r by lia. nia.
Qed.

Lemma Zdigits2_below (x n : Z) : 0 <= n -> 0 <= x < 2 ^ n -> Zdigits2 x <= n.
Proof.
  intros Hn [Hx Hu]. destruct (Z.eq_dec x 0) as [->|Hne]; [cbn; lia|].
  pose proof (Zdigits2_bounds x ltac:(lia)) as [Hl _].
  assert (H1 : Zdigits2 x - 1 < n).
  { apply (Z.pow_lt_mono_r_iff 2); lia. }
  lia.
Qed.

(** The mantissa at the exponent of the format *)
Lemma canon_rnd (G a b : Z) :
  G <= -1074 -> 0 <= a -> 0 < b ->
  -1074 <= fexp prec emax (Zdigits2 (a / b) + G) /\
  0 <= a / b / 2 ^ (fexp prec emax (Zdigits2 (a / b) + G) - G) < 2 ^ 53 /\
  (fexp prec emax (Zdigits2 (a / b) + G) = -1074 \/
   2 ^ 52 <= a / b / 2 ^ (fexp prec emax (Zdigits2 (a / b) + G) - G)).
Proof.
  intros HG Ha Hb. set (X := a / b). assert (HX : 0 <= X) by (apply Z.div_pos; lia).
  rewrite fexp_max. set (D := Zdigits2 X).
  set (e := Z.max (D + G - 53) (-1074)).
  assert (Hp : 0 < 2 ^ (e - G)) by (apply Z.pow_pos_nonneg; lia).
  split; [lia|].
  destruct (Z.eq_dec X 0) as [E0|Hne].
  - rewrite E0. rewrite Z.div_0_l by lia. split; [lia|]. left.
    unfold e, D. rewrite E0. cbn [Zdigits2]. lia.
  - pose proof (Zdigits2_bounds X ltac:(lia)) as [Hl Hu]. fold D in Hl, Hu.
    pose proof (Zdigits2_nonneg X) as HD. fold D in HD.
    split; [split|].
    + apply Z.div_pos; lia.
    + apply Z.div_lt_upper_bound; [lia|].
      rewrite <- Z.pow_add_r by lia.
      apply Z.lt_le_trans with (2 ^ D); [exact Hu|].
      apply Z.pow_le_mono_r; lia.
    + destruct (Z.eq_dec e (-1074)) as [|Hn]; [left; trivial|right].
      assert (He : e = D + G - 53) by lia.
      apply Z.div_le_lower_bound; [lia|].
      rewrite <- Z.pow_add_r by lia.
      replace (e - G + 52) with (D - 1) by lia. exact Hl.
Qed.


Lemma finish_pack (s : bool) (m e : Z) :
  -1074 <= e -> 0 <= m <= 2 ^ 53 ->
  (let '(mrs, e') := shr_fexp prec emax m e loc_Exact in
   match shr_m mrs with
   | 0 => S754_zero s
   | Zpos p => if e' <=? emax - prec then S754_finite s p e' else S754_infinity s
   | Zneg _ => S754_nan
   end) = signed s (pack m e).
Proof.
  intros He Hm. unfold shr_fexp, shr. rewrite fexp_max.
  change (emax - prec) with 971.
  destruct (Z.eq_dec m (2 ^ 53)) as [->|Hne].
  - change (Zdigits2 (2 ^ 53)) with 54.
    replace (Z.max (54 + e - 53) (-1074) - e) with 1 by lia.
    cbn [iter_pos shr_record_of_loc]. unfold pack.
    change (2 ^ 53 =? 0) with false. change (2 ^ 53 <? 2 ^ 53) with false.
    cbv iota. change (shr_m (shr_1 {| shr_m := 2 ^ 53; shr_r := false; shr_s := false |}))
      with (2 ^ 52).
    change (2 ^ 52) with (Zpos (Z.to_pos (2 ^ 52))) at 1. cbv iota.
    destruct (e + 1 <=? 971); destruct s; reflexivity.
  - destruct m as [|p|p]; try lia.
    + cbn [Zdigits2].
      destruct (Z.max (0 + e - 53) (-1074) - e) as [|n|n] eqn:En; try lia;
        destruct s; reflexivity.
    + assert (Hd : Zdigits2 (Zpos p) <= 53) by (apply Zdigits2_below; lia).
      cbn [Zdigits2] in *.
      unfold pack. change (Zpos p =? 0) with false.
      assert (Hlt : (Zpos p <? 2 ^ 53) = true) by (apply Z.ltb_lt; lia).
      rewrite Hlt. cbv iota. cbn [Z.to_pos].
      destruct (Z.max (Zpos (digits2_pos p) + e - 53) (-1074) - e) as [|n|n] eqn:En;
        try lia; cbn [shr_record_of_loc shr_m];
        destruct (e <=? 971); destruct s; reflexivity.
Qed.

Lemma div_code (a b m c : Z) : 0 <= c <= 3 -> code_of a b = 4 * m + c -> a / b = m.
Proof. intros Hc E. rewrite <- code_of_div, E. divmod. Qed.

(** Rounding a mantissa with its location is rounding the number it
    stands for. *)
Lemma binary_round_aux_rnd (s : bool) (m e : Z) (l : location) (G a b : Z) :
  G <= -1074 -> G <= e -> 0 <= m -> 0 <= a -> 0 < b ->
  code_of a (b * 2 ^ (e - G)) = 4 * m + loc_code l ->
  e <= fexp prec emax (Zdigits2 m + e) ->
  binary_round_aux prec emax s m e l = signed s (rnd G a b).
Proof.
  intros HG HGe Hm Ha Hb Hcode Hle.
  assert (Hp : 0 < 2 ^ (e - G)) by (apply Z.pow_pos_nonneg; lia).
  assert (Em : a / b / 2 ^ (e - G) = m).
  { rewrite Z.div_div by lia. apply (div_code _ _ _ _ (loc_code_range l) Hcode). }
  assert (Ee : fexp prec emax (Zdigits2 m + e) = fexp prec emax (Zdigits2 (a / b) + G)).
  { destruct (Z.eq_dec m 0) as [E0|Hne].
    - rewrite E0 in *. cbn [Zdigits2] in *. rewrite fexp_max in Hle.
      assert (HX : 0 <= a / b) by (apply Z.div_pos; lia).
      assert (Hlt : a / b < 2 ^ (e - G)).
      { pose proof (Z.div_mod (a / b) (2 ^ (e - G)) ltac:(lia)) as E.
        pose proof (Z.mod_pos_bound (a / b) (2 ^ (e - G)) Hp). nia. }
      pose proof (Zdigits2_below (a / b) (e - G) ltac:(lia) ltac:(lia)).
      rewrite !fexp_max. lia.
    - rewrite (Zdigits2_shift (a / b) (e - G)) by lia. rewrite Em. f_equal. lia. }
  destruct (shr_fexp_code m e l G a b Hm Ha Hb HGe Hcode Hle) as (mrs & E1 & Ec & Hmrs).
  unfold binary_round_aux. rewrite E1, round_nearest_even_code, Ec, Ee.
  destruct (canon_rnd G a b HG Ha Hb) as (He' & Hm' & _).
  set (e' := fexp prec emax (Zdigits2 (a / b) + G)) in *.
  assert (Hp' : 0 < 2 ^ (e' - G)) by (apply Z.pow_pos_nonneg; lia).
  pose proof (round_code_bounds (code_of a (b * 2 ^ (e' - G)))) as Hr.
  rewrite code_of_div, <- Z.div_div in Hr by lia.
  apply finish_pack; lia.
Qed.

(** Order of the packed results *)
Lemma SFleb_finite_pos (m1 m2 : positive) (e1 e2 : Z) :
  e1 < e2 \/ (e1 = e2 /\ Zpos m1 <= Zpos m2) ->
  SFleb (S754_finite false m1 e1) (S754_finite false m2 e2) = true.
Proof.
  intros H. apply SFleb_rank. eexists _, _. split; [reflexivity|].
  split; [reflexivity|]. unfold lexle. lia.
Qed.

Lemma pack_le (m1 e1 m2 e2 : Z) :
  0 <= m1 <= 2 ^ 53 -> 0 <= m2 <= 2 ^ 53 ->
  (e1 = e2 /\ m1 <= m2) \/ (e1 < e2 /\ 2 ^ 52 <= m2) ->
  SFleb (pack m1 e1) (pack m2 e2) = true.
Proof.
  intros H1 H2 Hle. unfold pack.
  change (2 ^ 53) with 9007199254740992 in *.
  change (2 ^ 52) with 4503599627370496 in *.
  destruct (Z.eqb_spec m1 0) as [E1|N1]; destruct (Z.eqb_spec m2 0) as [E2|N2];
    destruct (Z.ltb_spec m1 9007199254740992);
    destruct (Z.ltb_spec m2 9007199254740992);
    destruct (Z.leb_spec e1 971); destruct (Z.leb_spec e2 971);
    destruct (Z.leb_spec (e1 + 1) 971); destruct (Z.leb_spec (e2 + 1) 971);
    try lia; try reflexivity;
    apply SFleb_finite_pos; rewrite ?Z2Pos.id by lia; lia.
Qed.

Lemma div_frac_mono (a1 b1 a2 b2 : Z) :
  0 <= a1 -> 0 < b1 -> 0 <= a2 -> 0 < b2 -> a1 * b2 <= a2 * b1 ->
  a1 / b1 <= a2 / b2.
Proof.
  intros Ha1 Hb1 Ha2 Hb2 Hle.
  pose proof (code_of_mono a1 b1 a2 b2 Ha1 Hb1 Ha2 Hb2 Hle) as Hc.
  rewrite <- (code_of_div a1 b1), <- (code_of_div a2 b2).
  apply Z.div_le_mono; lia.
Qed.

(** Rounding is monotone. *)
Theorem rnd_mono (G a1 b1 a2 b2 : Z) :
  G <= -1074 -> 0 <= a1 -> 0 < b1 -> 0 <= a2 -> 0 < b2 -> a1 * b2 <= a2 * b1 ->
  SFleb (rnd G a1 b1) (rnd G a2 b2) = true.
Proof.
  intros HG Ha1 Hb1 Ha2 Hb2 Hle. unfold rnd.
  destruct (canon_rnd G a1 b1 HG Ha1 Hb1) as (He1 & Hm1 & Hc1).
  destruct (canon_rnd G a2 b2 HG Ha2 Hb2) as (He2 & Hm2 & Hc2).
  pose proof (div_frac_mono _ _ _ _ Ha1 Hb1 Ha2 Hb2 Hle) as HX.
  assert (HX1 : 0 <= a1 / b1) by (apply Z.div_pos; lia).
  pose proof (Zdigits2_mono _ _ (conj HX1 HX)) as HD.
  set (e1 := fexp prec emax (Zdigits2 (a1 / b1) + G)) in *.
  set (e2 := fexp prec emax (Zdigits2 (a2 / b2) + G)) in *.
  assert (He : e1 <= e2) by (unfold e1, e2; rewrite !fexp_max; lia).
  assert (Hp1 : 0 < 2 ^ (e1 - G)) by (apply Z.pow_pos_nonneg; lia).
  assert (Hp2 : 0 < 2 ^ (e2 - G)) by (apply Z.pow_pos_nonneg; lia).
  pose proof (round_code_bounds (code_of a1 (b1 * 2 ^ (e1 - G)))) as Hr1.
  pose proof (round_code_bounds (code_of a2 (b2 * 2 ^ (e2 - G)))) as Hr2.
  rewrite code_of_div, <- Z.div_div in Hr1, Hr2 by lia.
  apply pack_le; try lia.
  destruct (Z.eq_dec e1 e2) as [Ee|Hne].
  - left. split; [exact Ee|]. apply round_code_mono. rewrite Ee.
    apply code_of_mono; nia.
  - right. lia.
Qed.

(** The result of rounding is a number of the format. *)
Lemma pack_valid (m e : Z) :
  -1074 <= e -> 0 <= m <= 2 ^ 53 -> (e = -1074 \/ 2 ^ 52 <= m) ->
  valid (pack m e).
Proof.
  intros He Hm Hc. unfold pack, valid.
  destruct (Z.eqb_spec m 0); [reflexivity|].
  destruct (Z.ltb_spec m (2 ^ 53)).
  - destruct (Z.leb_spec e 971); [|reflexivity].
    cbn [valid_binary]. unfold bounded, canonical_mantissa.
    apply andb_true_iff. split; [|apply Z.leb_le; exact H0].
    apply Z.eqb_eq. rewrite fexp_max.
    assert (Hz : Zpos (digits2_pos (Z.to_pos m)) = Zdigits2 m).
    { destruct m; try lia. reflexivity. }
    rewrite Hz. pose proof (Zdigits2_below m 53 ltac:(lia) ltac:(lia)).
    destruct Hc as [->|Hc]; [lia|].
    assert (Zdigits2 m = 53) by (apply Zdigits2_unique; change (53 - 1) with 52; lia).
    lia.
  - destruct (Z.leb_spec (e + 1) 971); [|reflexivity].
    cbn [valid_binary]. unfold bounded, canonical_mantissa.
    apply andb_true_iff. split; [|apply Z.leb_le; exact H0].
    apply Z.eqb_eq. rewrite fexp_max.
    change (Zpos (digits2_pos (Z.to_pos (2 ^ 52)))) with 53. lia.
Qed.

Lemma rnd_valid (G a b : Z) :
  G <= -1074 -> 0 <= a -> 0 < b -> valid (rnd G a b).
Proof.
  intros HG Ha Hb. unfold rnd.
  destruct (canon_rnd G a b HG Ha Hb) as (He & Hm & Hc).
  set (e := fexp prec emax (Zdigits2 (a / b) + G)) in *.
  assert (Hp : 0 < 2 ^ (e - G)) by (apply Z.pow_pos_nonneg; lia).
  pose proof (round_code_bounds (code_of a (b * 2 ^ (e - G)))) as Hr.
  rewrite code_of_div, <- Z.div_div in Hr by lia.
  apply pack_valid; lia.
Qed.

(** The result of rounding is zero, positive or the positive infinity. *)
Lemma pack_sign (m e : Z) :
  pack m e = S754_zero false \/ pack m e = S754_infinity false \/
  exists p e', pack m e = S754_finite false p e'.
Proof.
  unfold pack. destruct (m =? 0); [auto|].
  destruct (m <? 2 ^ 53); [destruct (e <=? 971)|destruct (e + 1 <=? 971)]; eauto.
Qed.


Lemma rank_opp (a : spec_float) :
  rank (SFopp a) =
  option_map (fun k => let '(c, e, m) := k in (- c, - e, - m)) (rank a).
Proof. destruct a as [[|]|[|]| |[|] m e]; cbn; try reflexivity; do 3 f_equal; lia. Qed.

Lemma SFleb_opp (a b : spec_float) : SFleb (SFopp a) (SFopp b) = SFleb b a.
Proof.
  unfold SFleb. rewrite !SFcompare_rank, !rank_opp.
  destruct (rank a) as [[[a1 a2] a3]|], (rank b) as [[[b1 b2] b3]|]; try reflexivity.
  cbn [option_map lex]. rewrite !Z.compare_opp.
  rewrite (Z.compare_antisym a1 b1), (Z.compare_antisym a2 b2),
    (Z.compare_antisym a3 b3).
  destruct (a1 ?= b1), (a2 ?= b2), (a3 ?= b3); reflexivity.
Qed.

Lemma same_sym (a b : spec_float) : same a b -> same b a.
Proof. unfold same. rewrite (SFcompare_antisym a b). intros ->. reflexivity. Qed.

Lemma same_rank (a b : spec_float) : same a b -> rank a = rank b /\ notnan a.
Proof.
  unfold same. rewrite SFcompare_rank.
  destruct (rank a) as [ka|] eqn:Ea; [|discriminate].
  destruct (rank b) as [kb|]; [|discriminate].
  intros [= E%lex_Eq]. subst. split; [reflexivity|].
  apply notnan_rank. eauto.
Qed.

Lemma SFleb_same_l (a a' b : spec_float) : same a a' -> SFleb a b = SFleb a' b.
Proof.
  intros [E _]%same_rank. unfold SFleb. rewrite !SFcompare_rank, E. reflexivity.
Qed.

Lemma SFleb_same_r (a b b' : spec_float) : same b b' -> SFleb a b = SFleb a b'.
Proof.
  intros [E _]%same_rank. unfold SFleb. rewrite !SFcompare_rank, E. reflexivity.
Qed.

Lemma same_refl (a : spec_float) : is_nan a = false -> same a a.
Proof.
  intros [k Hk]%notnan_rank. unfold same. rewrite SFcompare_rank, Hk.
  destruct k as [[k1 k2] k3]. cbn. rewrite !Z.compare_refl. reflexivity.
Qed.

Lemma SFleb_refl (a : spec_float) : is_nan a = false -> SFleb a a = true.
Proof. intros H. unfold SFleb. rewrite (same_refl a H). reflexivity. Qed.

Lemma rnd_sign (G a b : Z) :
  rnd G a b = S754_zero false \/ rnd G a b = S754_infinity false \/
  exists p e, rnd G a b = S754_finite false p e.
Proof. apply pack_sign. Qed.

(** A number with its sign bit clear is not below one with it set. *)
Lemma SFleb_signs (a b : spec_float) :
  (a = S754_zero false \/ a = S754_infinity false \/
   exists p e, a = S754_finite false p e) ->
  (b = S754_zero false \/ b = S754_infinity false \/
   exists p e, b = S754_finite false p e) ->
  SFleb (SFopp a) b = true.
Proof.
  intros [->|[->|(p & e & ->)]] [->|[->|(p' & e' & ->)]]; reflexivity.
Qed.

Lemma SFleb_zero_sign (b : spec_float) :
  (b = S754_zero false \/ b = S754_infinity false \/
   exists p e, b = S754_finite false p e) ->
  SFleb (S754_zero false) b = true.
Proof. intros [->|[->|(p' & e' & ->)]]; reflexivity. Qed.

Lemma roundAt_mono (G z1 z2 : Z) :
  G <= -1074 -> z1 <= z2 -> SFleb (roundAt G z1) (roundAt G z2) = true.
Proof.
  intros HG Hle. unfold roundAt.
  destruct z1 as [|p1|p1], z2 as [|p2|p2]; try lia.
  - reflexivity.
  - apply SFleb_zero_sign, rnd_sign.
  - apply rnd_mono; lia.
  - apply (SFleb_signs _ (S754_zero false)); [apply rnd_sign|auto].
  - apply SFleb_signs; apply rnd_sign.
  - rewrite SFleb_opp. apply rnd_mono; lia.
Qed.

Lemma roundAt_valid (G z : Z) : G <= -1074 -> valid (roundAt G z).
Proof.
  intros HG. unfold roundAt. destruct z as [|p|p]; [reflexivity| |].
  - apply rnd_valid; lia.
  - pose proof (rnd_valid G (- Zneg p) 1 HG ltac:(lia) ltac:(lia)) as Hv.
    destruct (rnd G (- Zneg p) 1); exact Hv.
Qed.

Lemma roundAt_notnan (G z : Z) : is_nan (roundAt G z) = false.
Proof.
  unfold roundAt. destruct z as [|p|p]; [reflexivity| |].
  - destruct (rnd_sign G (Zpos p) 1) as [->|[->|(q & e & ->)]]; reflexivity.
  - destruct (rnd_sign G (- Zneg p) 1) as [->|[->|(q & e & ->)]]; reflexivity.
Qed.

Lemma code_of_multiple (m c : Z) : 0 < c -> code_of (m * c) c = 4 * m.
Proof.
  intros Hc. unfold code_of. rewrite Z.div_mul, Z.mod_mul by lia.
  cbn. lia.
Qed.

(** A number of the format rounds to itself. *)
Lemma rnd_exact (G : Z) (m : positive) (e : Z) :
  G <= -1074 -> bounded prec emax m e = true ->
  rnd G (Zpos m * 2 ^ (e - G)) 1 = S754_finite false m e.
Proof.
  intros HG Hb. pose proof (bounded_digits m e Hb) as (He & Hd & Hn).
  unfold bounded, canonical_mantissa in Hb. apply andb_true_iff in Hb as [Hc Hmax].
  apply Z.eqb_eq in Hc. apply Z.leb_le in Hmax. change (emax - prec) with 971 in Hmax.
  assert (Hp : 0 < 2 ^ (e - G)) by (apply Z.pow_pos_nonneg; lia).
  unfold rnd. rewrite Z.div_1_r.
  assert (Ed : Zdigits2 (Zpos m * 2 ^ (e - G)) = Zpos (digits2_pos m) + (e - G)).
  { rewrite (Zdigits2_shift _ (e - G)) by (rewrite ?Z.div_mul; lia).
    rewrite Z.div_mul by lia. reflexivity. }
  rewrite Ed.
  replace (Zpos (digits2_pos m) + (e - G) + G) with (Zpos (digits2_pos m) + e) by lia.
  rewrite Hc, Z.mul_1_l, code_of_multiple, round_code_exact by lia.
  unfold pack. change (Zpos m =? 0) with false.
  pose proof (digits2_bounds m) as [_ Hu].
  assert (H53 : 2 ^ Zpos (digits2_pos m) <= 2 ^ 53) by (apply Z.pow_le_mono_r; lia).
  assert (Hlt : (Zpos m <? 2 ^ 53) = true) by (apply Z.ltb_lt; lia).
  rewrite Hlt. assert (Hle : (e <=? 971) = true) by (apply Z.leb_le; lia).
  rewrite Hle. reflexivity.
Qed.

Lemma shl_align_snd (m : positive) (e ez : Z) :
  snd (shl_align m e ez) = Z.min e ez.
Proof. unfold shl_align. destruct (ez - e) as [|d|d] eqn:Ed; cbn [snd]; lia. Qed.

Lemma binary_round_rnd (s : bool) (m : positive) (e G : Z) :
  G <= -1074 -> G <= e ->
  binary_round prec emax s m e = signed s (rnd G (Zpos m * 2 ^ (e - G)) 1).
Proof.
  intros HG HGe. unfold binary_round.
  set (ez := fexp prec emax (Zpos (digits2_pos m) + e)).
  assert (Hez : -1074 <= ez) by apply fexp_least.
  destruct (shl_align m e ez) as [mz e'] eqn:Es.
  assert (Esnd : e' = Z.min e ez).
  { rewrite <- (shl_align_snd m e ez), Es. reflexivity. }
  assert (Efst : Zpos mz = Zpos m * 2 ^ (e - e')).
  { destruct (Z.le_gt_cases ez e).
    - replace e' with ez by lia. rewrite <- (shl_align_value m e ez) by lia.
      rewrite Es. reflexivity.
    - replace e' with e by lia. rewrite Z.sub_diag, Z.mul_1_r.
      unfold shl_align in Es. destruct (ez - e) as [|d|d] eqn:Ed; try lia;
        congruence. }
  assert (Hp : 0 < 2 ^ (e' - G)) by (apply Z.pow_pos_nonneg; lia).
  assert (Hp' : 0 < 2 ^ (e - e')) by (apply Z.pow_pos_nonneg; lia).
  apply binary_round_aux_rnd; try lia.
  - cbn [loc_code]. rewrite Z.add_0_r, Z.mul_1_l, Efst.
    replace (2 ^ (e - G)) with (2 ^ (e - e') * 2 ^ (e' - G))
      by (rewrite <- Z.pow_add_r by lia; f_equal; lia).
    rewrite Z.mul_assoc. apply code_of_multiple. lia.
  - assert (Ed : Zdigits2 (Zpos mz) = Zpos (digits2_pos m) + (e - e')).
    { rewrite Efst. rewrite (Zdigits2_shift _ (e - e')) by (rewrite ?Z.div_mul; lia).
      rewrite Z.div_mul by lia. reflexivity. }
    rewrite Ed. replace (Zpos (digits2_pos m) + (e - e') + e')
      with (Zpos (digits2_pos m) + e) by lia.
    fold ez. lia.
Qed.

Lemma binary_normalize_roundAt (z e G : Z) :
  G <= -1074 -> G <= e ->
  binary_normalize prec emax z e false = roundAt G (z * 2 ^ (e - G)).
Proof.
  intros HG HGe. assert (Hp : 0 < 2 ^ (e - G)) by (apply Z.pow_pos_nonneg; lia).
  unfold roundAt. destruct z as [|m|m]; cbn [binary_normalize].
  - reflexivity.
  - rewrite (binary_round_rnd false m e G HG HGe).
    destruct (Zpos m * 2 ^ (e - G)) eqn:E; try lia. reflexivity.
  - rewrite (binary_round_rnd true m e G HG HGe).
    destruct (Zneg m * 2 ^ (e - G)) eqn:E; try lia. cbn [signed].
    do 2 f_equal. lia.
Qed.


(** *** The order of numbers is the order of their values *)

Lemma units_lt (m1 m2 : positive) (e1 e2 : Z) :
  bounded prec emax m1 e1 = true -> bounded prec emax m2 e2 = true ->
  e1 < e2 \/ (e1 = e2 /\ Zpos m1 < Zpos m2) ->
  Zpos m1 * 2 ^ (e1 + 1074) < Zpos m2 * 2 ^ (e2 + 1074).
Proof.
  intros (He1 & Hd1 & _)%bounded_digits (He2 & _ & Hd2)%bounded_digits Hlt.
  assert (Hp1 : 0 < 2 ^ (e1 + 1074)) by (apply Z.pow_pos_nonneg; lia).
  destruct Hlt as [Hlt|[-> Hlt]]; [|nia].
  pose proof (digits2_bounds m1) as [_ Hm1].
  pose proof (digits2_bounds m2) as [Hm2 _].
  rewrite Hd2 in Hm2 by lia.
  assert (H53 : 2 ^ Zpos (digits2_pos m1) <= 2 ^ 53) by (apply Z.pow_le_mono_r; lia).
  replace (e2 + 1074) with (e2 - e1 - 1 + 1 + (e1 + 1074)) by lia.
  rewrite (Z.pow_add_r 2 (e2 - e1 - 1 + 1)), (Z.pow_add_r 2 (e2 - e1 - 1)) by lia.
  set (P := 2 ^ (e1 + 1074)) in *.
  assert (Hp : 0 < 2 ^ (e2 - e1 - 1)) by (apply Z.pow_pos_nonneg; lia).
  set (R := 2 ^ (e2 - e1 - 1)) in *.
  change (2 ^ (53 - 1)) with 4503599627370496 in Hm2.
  change (2 ^ 53) with 9007199254740992 in H53.
  change (2 ^ 1) with 2.
  assert (H1 : Zpos m1 * P < 9007199254740992 * P) by nia.
  assert (H2 : 4503599627370496 * (R * 2 * P) <= Zpos m2 * (R * 2 * P)) by nia.
  assert (H3 : 9007199254740992 * P <= 4503599627370496 * (R * 2 * P)) by nia.
  lia.
Qed.

Lemma SFleb_units (a b : spec_float) :
  valid a -> valid b -> finite a = true -> finite b = true ->
  SFleb a b = true -> units a <= units b.
Proof.
  intros Va Vb Fa Fb Hle. apply SFleb_rank in Hle as (ka & kb & Eka & Ekb & Hle).
  destruct a as [sa|sa| |sa ma ea], b as [sb|sb| |sb mb eb]; try discriminate;
    try destruct sa; try destruct sb; cbn in Eka, Ekb;
    injection Eka as <-; injection Ekb as <-; cbn in Hle; cbn [units cond_Zopp];
    try lia;
    repeat match goal with
    | |- context [Zpos ?m * 2 ^ (?e + 1074)] =>
        lazymatch goal with
        | H : 0 < Zpos m * 2 ^ (e + 1074) |- _ => fail
        | _ => assert (0 < Zpos m * 2 ^ (e + 1074))
                 by (apply Z.mul_pos_pos; [lia|apply Z.pow_pos_nonneg; lia])
        end
    end; try lia.
  - (* both negative *)
    unfold valid in Va, Vb. cbn [valid_binary] in Va, Vb.
    destruct (Z.eq_dec ea eb) as [->|Hne].
    + destruct (Z.eq_dec (Zpos ma) (Zpos mb)) as [E|Hm]; [rewrite E; lia|].
      pose proof (units_lt mb ma eb eb Vb Va ltac:(lia)). lia.
    + pose proof (units_lt mb ma eb ea Vb Va ltac:(lia)). lia.
  - (* both positive *)
    unfold valid in Va, Vb. cbn [valid_binary] in Va, Vb.
    destruct (Z.eq_dec ea eb) as [->|Hne].
    + destruct (Z.eq_dec (Zpos ma) (Zpos mb)) as [E|Hm]; [rewrite E; lia|].
      pose proof (units_lt ma mb eb eb Va Vb ltac:(lia)). lia.
    + pose proof (units_lt ma mb ea eb Va Vb ltac:(lia)). lia.
Qed.

(** *** The operations round the exact result *)

Lemma roundAt_units (a : spec_float) :
  valid a -> finite a = true -> same (roundAt (-1074) (units a)) a.
Proof.
  intros Va Fa. destruct a as [sa|sa| |sa ma ea]; try discriminate.
  - destruct sa; reflexivity.
  - unfold valid in Va. cbn [valid_binary] in Va.
    pose proof (bounded_digits _ _ Va) as (He & _).
    assert (Hp : 0 < Zpos ma * 2 ^ (ea + 1074))
      by (apply Z.mul_pos_pos; [lia|apply Z.pow_pos_nonneg; lia]).
    pose proof (rnd_exact (-1074) ma ea ltac:(lia) Va) as E.
    replace (ea - -1074) with (ea + 1074) in E by lia.
    unfold roundAt, units. destruct sa; cbn [cond_Zopp].
    + destruct (- (Zpos ma * 2 ^ (ea + 1074))) as [|p|p] eqn:Ep; try lia.
      rewrite <- Ep, Z.opp_involutive, E. apply same_refl. reflexivity.
    + destruct (Zpos ma * 2 ^ (ea + 1074)) as [|p|p] eqn:Ep; try lia.
      rewrite E. apply same_refl. reflexivity.
Qed.

Lemma cond_Zopp_mul (s : bool) (a b : Z) : cond_Zopp s a * b = cond_Zopp s (a * b).
Proof. destruct s; cbn [cond_Zopp]; lia. Qed.

Lemma aligned_units (s : bool) (m : positive) (e ez : Z) :
  -1074 <= ez -> ez <= e ->
  cond_Zopp s (Zpos (fst (shl_align m e ez))) * 2 ^ (ez - -1074) =
  units (S754_finite s m e).
Proof.
  intros Hz Hle. rewrite shl_align_value, cond_Zopp_mul by lia. cbn [units].
  f_equal. rewrite <- Z.mul_assoc, <- Z.pow_add_r by lia. do 2 f_equal. lia.
Qed.

Lemma fsub_roundAt (a c : spec_float) :
  valid a -> valid c -> finite a = true -> finite c = true ->
  same (fsub a c) (roundAt (-1074) (units a - units c)).
Proof.
  intros Va Vc Fa Fc.
  destruct a as [sa|sa| |sa ma ea]; try discriminate;
    destruct c as [sc|sc| |sc mc ec]; try discriminate.
  - destruct sa, sc; reflexivity.
  - replace (units (S754_zero sa) - units (S754_finite sc mc ec))
      with (units (S754_finite (negb sc) mc ec))
      by (cbn [units]; destruct sc; cbn [negb cond_Zopp]; lia).
    apply same_sym. apply (roundAt_units (S754_finite (negb sc) mc ec)); trivial.
  - replace (units (S754_finite sa ma ea) - units (S754_zero sc))
      with (units (S754_finite sa ma ea)) by (cbn [units]; lia).
    apply same_sym. apply (roundAt_units (S754_finite sa ma ea)); trivial.
  - unfold valid in Va, Vc. cbn [valid_binary] in Va, Vc.
    pose proof (bounded_digits _ _ Va) as (Hea & _).
    pose proof (bounded_digits _ _ Vc) as (Hec & _).
    unfold fsub. cbn [SFsub].
    rewrite (binary_normalize_roundAt _ _ (-1074)) by lia.
    rewrite Z.mul_sub_distr_r, !aligned_units by lia.
    apply same_refl, roundAt_notnan.
Qed.

Lemma fadd_roundAt (a c : spec_float) :
  valid a -> valid c -> finite a = true -> finite c = true ->
  same (fadd a c) (roundAt (-1074) (units a + units c)).
Proof.
  intros Va Vc Fa Fc.
  destruct a as [sa|sa| |sa ma ea]; try discriminate;
    destruct c as [sc|sc| |sc mc ec]; try discriminate.
  - destruct sa, sc; reflexivity.
  - replace (units (S754_zero sa) + units (S754_finite sc mc ec))
      with (units (S754_finite sc mc ec)) by (cbn [units]; lia).
    apply same_sym. apply (roundAt_units (S754_finite sc mc ec)); trivial.
  - replace (units (S754_finite sa ma ea) + units (S754_zero sc))
      with (units (S754_finite sa ma ea)) by (cbn [units]; lia).
    apply same_sym. apply (roundAt_units (S754_finite sa ma ea)); trivial.
  - unfold valid in Va, Vc. cbn [valid_binary] in Va, Vc.
    pose proof (bounded_digits _ _ Va) as (Hea & _).
    pose proof (bounded_digits _ _ Vc) as (Hec & _).
    unfold fadd. cbn [SFadd].
    rewrite (binary_normalize_roundAt _ _ (-1074)) by lia.
    rewrite Z.mul_add_distr_r, !aligned_units by lia.
    apply same_refl, roundAt_notnan.
Qed.

(** Subtraction is monotone in its first argument and antitone in its
    second, addition monotone. *)
Lemma fsub_mono_l (a a' c : spec_float) :
  valid a -> valid a' -> valid c ->
  finite a = true -> finite a' = true -> finite c = true ->
  SFleb a a' = true -> SFleb (fsub a c) (fsub a' c) = true.
Proof.
  intros Va Va' Vc Fa Fa' Fc Hle.
  rewrite (SFleb_same_l _ _ _ (fsub_roundAt a c Va Vc Fa Fc)).
  rewrite (SFleb_same_r _ _ _ (fsub_roundAt a' c Va' Vc Fa' Fc)).
  apply roundAt_mono; [lia|].
  pose proof (SFleb_units a a' Va Va' Fa Fa' Hle). lia.
Qed.

Lemma fsub_mono_r (a c c' : spec_float) :
  valid a -> valid c -> valid c' ->
  finite a = true -> finite c = true -> finite c' = true ->
  SFleb c c' = true -> SFleb (fsub a c') (fsub a c) = true.
Proof.
  intros Va Vc Vc' Fa Fc Fc' Hle.
  rewrite (SFleb_same_l _ _ _ (fsub_roundAt a c' Va Vc' Fa Fc')).
  rewrite (SFleb_same_r _ _ _ (fsub_roundAt a c Va Vc Fa Fc)).
  apply roundAt_mono; [lia|].
  pose proof (SFleb_units c c' Vc Vc' Fc Fc' Hle). lia.
Qed.

Lemma fadd_mono_finite (a c c' : spec_float) :
  valid a -> valid c -> valid c' ->
  finite a = true -> finite c = true -> finite c' = true ->
  SFleb c c' = true -> SFleb (fadd a c) (fadd a c') = true.
Proof.
  intros Va Vc Vc' Fa Fc Fc' Hle.
  rewrite (SFleb_same_l _ _ _ (fadd_roundAt a c Va Vc Fa Fc)).
  rewrite (SFleb_same_r _ _ _ (fadd_roundAt a c' Va Vc' Fa Fc')).
  apply roundAt_mono; [lia|].
  pose proof (SFleb_units c c' Vc Vc' Fc Fc' Hle). lia.
Qed.


(** *** Multiplication and division *)

Lemma Zdigits2_pow (k : Z) : 0 <= k -> Zdigits2 (2 ^ k) = k + 1.
Proof.
  intros Hk. assert (Hp : 0 < 2 ^ k) by (apply Z.pow_pos_nonneg; lia).
  apply Zdigits2_unique; [exact Hp|]. replace (k + 1 - 1) with k by lia.
  split; [lia|]. rewrite Z.pow_add_r by lia. change (2 ^ 1) with 2. lia.
Qed.

Lemma mul_exponent (mt md : positive) (et ed : Z) :
  bounded prec emax mt et = true -> bounded prec emax md ed = true ->
  et + ed <= fexp prec emax (Zdigits2 (Zpos (mt * md)) + (et + ed)).
Proof.
  intros (Het & Hdt & Hnt)%bounded_digits (Hed & Hdd & Hnd)%bounded_digits.
  pose proof (digits2_bounds mt) as [Hlt _].
  pose proof (digits2_bounds md) as [Hld _].
  set (dt := Zpos (digits2_pos mt)) in *. set (dd := Zpos (digits2_pos md)) in *.
  assert (Hdt1 : 1 <= dt) by (unfold dt; lia).
  assert (Hdd1 : 1 <= dd) by (unfold dd; lia).
  assert (Hpt : 0 < 2 ^ (dt - 1)) by (apply Z.pow_pos_nonneg; lia).
  assert (Hpd : 0 < 2 ^ (dd - 1)) by (apply Z.pow_pos_nonneg; lia).
  assert (Hprod : 2 ^ (dt - 1 + (dd - 1)) <= Zpos (mt * md)).
  { rewrite Z.pow_add_r, Pos2Z.inj_mul by lia. nia. }
  assert (Hdig : dt + dd - 1 <= Zdigits2 (Zpos (mt * md))).
  { replace (dt + dd - 1) with (dt - 1 + (dd - 1) + 1) by lia.
    rewrite <- Zdigits2_pow by lia. apply Zdigits2_mono.
    split; [apply Z.pow_nonneg; lia|exact Hprod]. }
  rewrite fexp_max. lia.
Qed.

Lemma fmul_roundAt (t d : spec_float) :
  valid t -> valid d -> finite t = true -> finite d = true ->
  same (fmul t d) (roundAt (-2148) (units t * units d)).
Proof.
  intros Vt Vd Ft Fd.
  destruct t as [st|st| |st mt et]; try discriminate;
    destruct d as [sd|sd| |sd md ed]; try discriminate;
    try (cbn [units]; rewrite ?Z.mul_0_l, ?Z.mul_0_r; unfold fmul; cbn [SFmul];
         destruct (xorb _ _); reflexivity).
  unfold valid in Vt, Vd. cbn [valid_binary] in Vt, Vd.
  pose proof (bounded_digits _ _ Vt) as (Het & _).
  pose proof (bounded_digits _ _ Vd) as (Hed & _).
  pose proof (mul_exponent mt md et ed Vt Vd) as Hexp.
  assert (Hpt : 0 < 2 ^ (et + 1074)) by (apply Z.pow_pos_nonneg; lia).
  assert (Hpd : 0 < 2 ^ (ed + 1074)) by (apply Z.pow_pos_nonneg; lia).
  assert (Hpow : 2 ^ (et + ed - -2148) = 2 ^ (et + 1074) * 2 ^ (ed + 1074)).
  { rewrite <- Z.pow_add_r by lia. f_equal. lia. }
  unfold fmul. cbn [SFmul].
  rewrite (binary_round_aux_rnd _ _ _ _ (-2148)
             (Zpos mt * 2 ^ (et + 1074) * (Zpos md * 2 ^ (ed + 1074))) 1);
    try lia.
  - set (A := Zpos mt * 2 ^ (et + 1074)). set (B := Zpos md * 2 ^ (ed + 1074)).
    assert (HAB : 0 < A * B) by (unfold A, B; nia).
    cbn [units]. fold A B. unfold roundAt.
    destruct st, sd; cbn [cond_Zopp xorb signed].
    + replace (- A * - B) with (A * B) by lia.
      destruct (A * B) eqn:E; try lia. apply same_refl.
      destruct (rnd_sign (-2148) (Zpos p) 1) as [->|[->|(q & e & ->)]]; reflexivity.
    + destruct (- A * B) eqn:E; try lia.
      replace (- Zneg p) with (A * B) by lia. apply same_refl.
      destruct (rnd_sign (-2148) (A * B) 1) as [->|[->|(q & e & ->)]]; reflexivity.
    + destruct (A * - B) eqn:E; try lia.
      replace (- Zneg p) with (A * B) by lia. apply same_refl.
      destruct (rnd_sign (-2148) (A * B) 1) as [->|[->|(q & e & ->)]]; reflexivity.
    + destruct (A * B) eqn:E; try lia. apply same_refl.
      destruct (rnd_sign (-2148) (Zpos p) 1) as [->|[->|(q & e & ->)]]; reflexivity.
  - cbn [loc_code]. rewrite Z.add_0_r, Z.mul_1_l, Hpow, Pos2Z.inj_mul.
    replace (Zpos mt * 2 ^ (et + 1074) * (Zpos md * 2 ^ (ed + 1074)))
      with (Zpos mt * Zpos md * (2 ^ (et + 1074) * 2 ^ (ed + 1074))) by ring.
    apply code_of_multiple. nia.
Qed.

Lemma new_location_code (nb k : Z) :
  0 < nb -> 0 <= k < nb -> loc_code (new_location nb k) = frac_code k nb.
Proof.
  intros Hnb Hk. unfold new_location, new_location_even, new_location_odd, frac_code.
  destruct (Z.even nb) eqn:Ev; destruct (Z.eqb_spec k 0) as [E|N]; try reflexivity.
  assert (Hodd : Z.odd nb = true) by (rewrite <- Z.negb_even, Ev; reflexivity).
  apply Z.odd_spec in Hodd as [j Ej].
  destruct (Z.compare_spec (2 * k + 1) nb); destruct (Z.compare_spec (2 * k) nb);
    cbn [loc_code]; lia.
Qed.

Lemma fdiv_rnd (mn mD : positive) (en eD : Z) :
  bounded prec emax mn en = true -> bounded prec emax mD eD = true ->
  fdiv (S754_finite false mn en) (S754_finite false mD eD) =
  rnd (-2148) (Zpos mn * 2 ^ (en + 1074) * 2 ^ 2148) (Zpos mD * 2 ^ (eD + 1074)).
Proof.
  intros Vn VD.
  pose proof (bounded_digits _ _ Vn) as (Hen & Hdn & _).
  pose proof (bounded_digits _ _ VD) as (HeD & HdD & _).
  assert (HeD' : eD <= 971).
  { unfold bounded in VD. apply andb_true_iff in VD as [_ H]. apply Z.leb_le in H.
    exact H. }
  pose proof (digits2_bounds mn) as [Hln _].
  pose proof (digits2_bounds mD) as [_ HuD].
  unfold fdiv. cbn [SFdiv xorb]. unfold SFdiv_core_binary. cbn [Zdigits2].
  set (dn := Zpos (digits2_pos mn)) in *. set (dD := Zpos (digits2_pos mD)) in *.
  set (e' := Z.min (fexp prec emax (dn + en - (dD + eD))) (en - eD)).
  assert (He' : -2148 <= e').
  { unfold e'. pose proof (fexp_least (dn + en - (dD + eD))). lia. }
  set (s := en - eD - e').
  assert (Hs : 0 <= s) by (unfold s, e'; lia).
  assert (Em : match s with
               | 0 => Zpos mn
               | Zpos _ => Z.shiftl (Zpos mn) s
               | Zneg _ => 0
               end = Zpos mn * 2 ^ s).
  { destruct s as [|p|p] eqn:Es; try lia.
    apply Z.shiftl_mul_pow2. lia. }
  rewrite Em.
  assert (Hps : 0 < 2 ^ s) by (apply Z.pow_pos_nonneg; lia).
  pose proof (Z.div_mod (Zpos mn * 2 ^ s) (Zpos mD) ltac:(lia)) as Edm.
  pose proof (Z.mod_pos_bound (Zpos mn * 2 ^ s) (Zpos mD) ltac:(lia)) as Hr.
  unfold Z.div, Z.modulo in Edm, Hr.
  destruct (Z.div_eucl (Zpos mn * 2 ^ s) (Zpos mD)) as [q r] eqn:Eqr.
  assert (Eq' : q = Zpos mn * 2 ^ s / Zpos mD) by (unfold Z.div; rewrite Eqr; reflexivity).
  assert (Er' : r = (Zpos mn * 2 ^ s) mod Zpos mD)
    by (unfold Z.modulo; rewrite Eqr; reflexivity).
  assert (Hq : 0 <= q) by (rewrite Eq'; apply Z.div_pos; lia).
  change (rnd (-2148) (Zpos mn * 2 ^ (en + 1074) * 2 ^ 2148) (Zpos mD * 2 ^ (eD + 1074)))
    with (signed false
            (rnd (-2148) (Zpos mn * 2 ^ (en + 1074) * 2 ^ 2148)
               (Zpos mD * 2 ^ (eD + 1074)))).
  assert (HpD : 0 < 2 ^ (eD + 1074)) by (apply Z.pow_pos_nonneg; lia).
  assert (Hpn : 0 < 2 ^ (en + 1074)) by (apply Z.pow_pos_nonneg; lia).
  apply binary_round_aux_rnd; try lia.
  - set (C := 2 ^ (eD + 1074 + (e' - -2148))).
    assert (HC : 0 < C) by (apply Z.pow_pos_nonneg; lia).
    assert (Ea : Zpos mn * 2 ^ (en + 1074) * 2 ^ 2148 = C * (Zpos mn * 2 ^ s)).
    { unfold C. rewrite <- !Z.mul_assoc, <- Z.pow_add_r by lia.
      rewrite (Z.mul_comm (2 ^ _) (Zpos mn * _)), <- Z.mul_assoc, <- Z.pow_add_r by lia.
      do 2 f_equal. unfold s. lia. }
    assert (Eb : Zpos mD * 2 ^ (eD + 1074) * 2 ^ (e' - -2148) = C * Zpos mD).
    { unfold C. rewrite <- Z.mul_assoc, <- Z.pow_add_r by lia. ring. }
    rewrite Ea, Eb, code_of_scale by lia.
    unfold code_of. rewrite <- Eq', <- Er', new_location_code by lia. reflexivity.
  - destruct (Z.le_gt_cases e' (-1074)) as [Hle|Hgt].
    + pose proof (fexp_least (Zdigits2 q + e')). lia.
    + assert (Hg : e' <= dn + en - (dD + eD) - 53).
      { unfold e' in *. rewrite fexp_max in *. lia. }
      assert (Hs53 : 53 - dn + dD <= s) by (unfold s; lia).
      assert (Hq52 : 2 ^ 52 <= q).
      { rewrite Eq'. apply Z.div_le_lower_bound; [lia|].
        assert (H1 : 2 ^ (dn - 1) * 2 ^ s <= Zpos mn * 2 ^ s) by nia.
        assert (H2 : 2 ^ (52 + dD) <= 2 ^ (dn - 1) * 2 ^ s).
        { rewrite <- Z.pow_add_r by (unfold dn; lia).
          apply Z.pow_le_mono_r; unfold dn, dD in *; lia. }
        assert (H3 : Zpos mD * 2 ^ 52 < 2 ^ (52 + dD)).
        { rewrite Z.pow_add_r by (unfold dD; lia).
          assert (0 < 2 ^ 52) by reflexivity. nia. }
        lia. }
      assert (Hd : 53 <= Zdigits2 q).
      { change 53 with (52 + 1). rewrite <- Zdigits2_pow by lia.
        apply Zdigits2_mono. split; [apply Z.pow_nonneg; lia|exact Hq52]. }
      rewrite fexp_max. lia.
Qed.


(** *** Infinities, zeros and NaN *)

Lemma same_valid (a b : spec_float) : same a b -> valid b -> valid a.
Proof.
  intros [->|(s & s' & -> & ->)]%SFcompare_Eq Hb; [exact Hb|reflexivity].
Qed.

Lemma SFleb_inf_r (a : spec_float) :
  is_nan a = false -> SFleb a (S754_infinity false) = true.
Proof. destruct a as [[|]|[|]| |[|] m e]; intros H; try discriminate; reflexivity. Qed.

Lemma SFleb_inf_l (a : spec_float) :
  is_nan a = false -> SFleb (S754_infinity true) a = true.
Proof. destruct a as [[|]|[|]| |[|] m e]; intros H; try discriminate; reflexivity. Qed.

Lemma positive_cases (a : spec_float) :
  SFltb (of_Z 0) a = true ->
  a = S754_infinity false \/ exists p e, a = S754_finite false p e.
Proof.
  destruct a as [[|]|[|]| |[|] m e]; intros H; try discriminate; eauto.
Qed.

Lemma fsub_valid (a c : spec_float) : valid a -> valid c -> valid (fsub a c).
Proof.
  intros Va Vc.
  destruct (finite a) eqn:Fa; [destruct (finite c) eqn:Fc|].
  - apply (same_valid _ _ (fsub_roundAt a c Va Vc Fa Fc)), roundAt_valid. lia.
  - destruct a as [sa|sa| |sa ma ea]; try discriminate;
      destruct c as [sc|sc| |sc mc ec]; try discriminate; reflexivity.
  - destruct a as [sa|sa| |sa ma ea]; try discriminate;
      destruct c as [sc|sc| |sc mc ec]; try reflexivity;
      destruct sa, sc; reflexivity.
Qed.

Lemma fmul_valid (t d : spec_float) : valid t -> valid d -> valid (fmul t d).
Proof.
  intros Vt Vd.
  destruct (finite t) eqn:Ft; [destruct (finite d) eqn:Fd|].
  - apply (same_valid _ _ (fmul_roundAt t d Vt Vd Ft Fd)), roundAt_valid. lia.
  - destruct t as [st|st| |st mt et]; try discriminate;
      destruct d as [sd|sd| |sd md ed]; try discriminate; reflexivity.
  - destruct t as [st|st| |st mt et]; try discriminate;
      destruct d as [sd|sd| |sd md ed]; reflexivity.
Qed.

(** *** Division of positive numbers *)

Lemma units_positive (m : positive) (e : Z) :
  -1074 <= e -> 0 < Zpos m * 2 ^ (e + 1074).
Proof. intros He. apply Z.mul_pos_pos; [lia|apply Z.pow_pos_nonneg; lia]. Qed.

Lemma fdiv_positive (n D : spec_float) :
  valid n -> valid D ->
  SFltb (of_Z 0) n = true -> SFltb (of_Z 0) D = true ->
  is_nan (fdiv n D) = false ->
  nonneg (fdiv n D) /\ valid (fdiv n D).
Proof.
  intros Vn VD [->|(mn & en & ->)]%positive_cases [->|(mD & eD & ->)]%positive_cases
    Hnan; try discriminate.
  - split; [right; left|]; reflexivity.
  - split; [left|]; reflexivity.
  - unfold valid in Vn, VD. cbn [valid_binary] in Vn, VD.
    pose proof (bounded_digits _ _ Vn) as (Hen & _).
    pose proof (bounded_digits _ _ VD) as (HeD & _).
    pose proof (units_positive mn en Hen). pose proof (units_positive mD eD HeD).
    rewrite (fdiv_rnd mn mD en eD Vn VD). split; [apply rnd_sign|].
    apply rnd_valid; lia.
Qed.

Lemma fdiv_mono_pos (n n' D : spec_float) :
  valid n -> valid n' -> valid D ->
  SFltb (of_Z 0) n = true -> SFltb (of_Z 0) n' = true -> SFltb (of_Z 0) D = true ->
  SFleb n n' = true ->
  is_nan (fdiv n D) = false -> is_nan (fdiv n' D) = false ->
  SFleb (fdiv n D) (fdiv n' D) = true.
Proof.
  intros Vn Vn' VD Pn Pn' PD Hle Hnan Hnan'.
  destruct (positive_cases _ PD) as [->|(mD & eD & ->)].
  - destruct (positive_cases _ Pn) as [->|(mn & en & ->)]; [discriminate|].
    destruct (positive_cases _ Pn') as [->|(mn' & en' & ->)]; [discriminate|].
    reflexivity.
  - destruct (positive_cases _ Pn') as [->|(mn' & en' & ->)].
    + apply SFleb_inf_r, Hnan.
    + destruct (positive_cases _ Pn) as [->|(mn & en & ->)]; [discriminate|].
      pose proof (SFleb_units _ _ Vn Vn' eq_refl eq_refl Hle) as Hu.
      cbn [units cond_Zopp] in Hu.
      unfold valid in Vn, Vn', VD. cbn [valid_binary] in Vn, Vn', VD.
      pose proof (bounded_digits _ _ Vn) as (Hen & _).
      pose proof (bounded_digits _ _ Vn') as (Hen' & _).
      pose proof (bounded_digits _ _ VD) as (HeD & _).
      pose proof (units_positive mn en Hen). pose proof (units_positive mn' en' Hen').
      pose proof (units_positive mD eD HeD).
      rewrite (fdiv_rnd mn mD en eD Vn VD), (fdiv_rnd mn' mD en' eD Vn' VD).
      apply rnd_mono; try lia.
      assert (0 < 2 ^ 2148) by reflexivity.
      apply Z.mul_le_mono_nonneg_r; [lia|]. apply Z.mul_le_mono_nonneg_r; lia.
Qed.

(** A quotient of positive numbers, the first not above the second, is at
    most one. *)
Lemma fdiv_le_one (n D : spec_float) :
  valid n -> valid D -> finite n = true ->
  SFltb (of_Z 0) n = true -> SFltb (of_Z 0) D = true ->
  SFleb n D = true ->
  SFleb (fdiv n D) (of_Z 1) = true /\ finite (fdiv n D) = true.
Proof.
  intros Vn VD Fn Pn PD Hle.
  destruct (positive_cases _ Pn) as [->|(mn & en & ->)]; [discriminate|].
  destruct (positive_cases _ PD) as [->|(mD & eD & ->)]; [split; reflexivity|].
  pose proof (SFleb_units _ _ Vn VD eq_refl eq_refl Hle) as Hu.
  cbn [units cond_Zopp] in Hu.
  unfold valid in Vn, VD. cbn [valid_binary] in Vn, VD.
  pose proof (bounded_digits _ _ Vn) as (Hen & _).
  pose proof (bounded_digits _ _ VD) as (HeD & _).
  pose proof (units_positive mn en Hen). pose proof (units_positive mD eD HeD).
  assert (H1 : of_Z 1 = rnd (-2148) (Zpos 4503599627370496 * 2 ^ (-52 - -2148)) 1).
  { rewrite rnd_exact; [reflexivity|lia|reflexivity]. }
  assert (Hone : SFleb (fdiv (S754_finite false mn en) (S754_finite false mD eD))
                   (of_Z 1) = true).
  { rewrite H1, (fdiv_rnd mn mD en eD Vn VD).
    assert (0 < 2 ^ 2148) by reflexivity.
    apply rnd_mono; lia. }
  split; [exact Hone|].
  rewrite (fdiv_rnd mn mD en eD Vn VD) in *.
  destruct (rnd_sign (-2148) (Zpos mn * 2 ^ (en + 1074) * 2 ^ 2148)
              (Zpos mD * 2 ^ (eD + 1074))) as [E|[E|(p & e & E)]];
    rewrite E in *; try reflexivity. discriminate Hone.
Qed.


(** *** Multiplication by a number of either sign, addition *)

Lemma units_zero : units (of_Z 0) = 0.
Proof. reflexivity. Qed.

Lemma fmul_mono (t t' d : spec_float) :
  valid t -> valid t' -> valid d -> nonneg t -> nonneg t' ->
  SFleb t t' = true ->
  is_nan (fmul t d) = false -> is_nan (fmul t' d) = false ->
  (SFleb (of_Z 0) d = true -> SFleb (fmul t d) (fmul t' d) = true) /\
  (SFleb d (of_Z 0) = true -> SFleb (fmul t' d) (fmul t d) = true).
Proof.
  intros Vt Vt' Vd Nt Nt' Hle Hnan Hnan'.
  destruct (finite t && finite t' && finite d) eqn:Fin.
  - apply andb_true_iff in Fin as [[Ft Ft']%andb_true_iff Fd].
    pose proof (SFleb_units _ _ Vt Vt' Ft Ft' Hle) as Hu.
    split; intros Hd.
    + pose proof (SFleb_units (of_Z 0) d eq_refl Vd eq_refl Fd Hd) as Hud.
      rewrite units_zero in Hud.
      rewrite (SFleb_same_l _ _ _ (fmul_roundAt t d Vt Vd Ft Fd)).
      rewrite (SFleb_same_r _ _ _ (fmul_roundAt t' d Vt' Vd Ft' Fd)).
      apply roundAt_mono; [lia|]. apply Z.mul_le_mono_nonneg_r; lia.
    + pose proof (SFleb_units d (of_Z 0) Vd eq_refl Fd eq_refl Hd) as Hud.
      rewrite units_zero in Hud.
      rewrite (SFleb_same_l _ _ _ (fmul_roundAt t' d Vt' Vd Ft' Fd)).
      rewrite (SFleb_same_r _ _ _ (fmul_roundAt t d Vt Vd Ft Fd)).
      apply roundAt_mono; [lia|]. apply Z.mul_le_mono_nonpos_r; lia.
  - destruct Nt as [->|[->|(p & e & ->)]], Nt' as [->|[->|(p' & e' & ->)]];
      destruct d as [[|]|[|]| |[|] md ed]; try discriminate Fin;
      try discriminate Hle; try discriminate Hnan; try discriminate Hnan';
      unfold fmul in *; cbn [SFmul xorb] in *;
      (split; intros Hd; try discriminate Hd; try reflexivity;
       first [apply SFleb_inf_r; assumption | apply SFleb_inf_l; assumption]).
Qed.

(** The sum of a finite number and a number is a number. *)
Lemma fadd_notnan (a b : spec_float) :
  finite a = true -> is_nan b = false -> is_nan (fadd a b) = false.
Proof.
  destruct a as [sa|sa| |sa ma ea], b as [sb|sb| |sb mb eb];
    try discriminate; intros _ _; unfold fadd; cbn [SFadd];
    try reflexivity; try (destruct sa, sb; reflexivity).
  apply binary_normalize_notnan.
Qed.

Lemma fadd_mono (a c c' : spec_float) :
  valid a -> valid c -> valid c' -> finite a = true ->
  SFleb c c' = true -> SFleb (fadd a c) (fadd a c') = true.
Proof.
  intros Va Vc Vc' Fa Hle.
  destruct (SFleb_notnan _ _ Hle) as [Nc Nc'].
  pose proof (fadd_notnan a c Fa Nc) as Hn. pose proof (fadd_notnan a c' Fa Nc') as Hn'.
  destruct (finite c && finite c') eqn:Fin.
  - apply andb_true_iff in Fin as [Fc Fc']. apply fadd_mono_finite; trivial.
  - destruct a as [sa|sa| |sa ma ea]; try discriminate Fa;
      destruct c as [[|]|[|]| |[|] mc ec]; try discriminate Nc;
      destruct c' as [[|]|[|]| |[|] mc' ec']; try discriminate Nc';
      try discriminate Fin; try discriminate Hle;
      unfold fadd in *; cbn [SFadd] in *; try reflexivity;
      first [apply SFleb_inf_r; assumption | apply SFleb_inf_l; assumption].
Qed.

Lemma fadd_nan_r (a : spec_float) : fadd a S754_nan = S754_nan.
Proof. destruct a as [sa|sa| |sa ma ea]; reflexivity. Qed.

Lemma fmul_nan_l (d : spec_float) : fmul S754_nan d = S754_nan.
Proof. reflexivity. Qed.

Lemma SFltb_leb_trans (a b c : spec_float) :
  SFltb a b = true -> SFleb b c = true -> SFltb a c = true.
Proof.
  intros Hab Hbc. ranks. apply SFltb_rank.
  do 2 eexists. repeat split; eauto. triples. lia.
Qed.

(** A difference is not negative when its terms are in order. *)
Lemma fsub_sign (a b : spec_float) :
  valid a -> valid b -> finite a = true -> finite b = true ->
  SFleb a b = true ->
  SFleb (of_Z 0) (fsub b a) = true /\ SFleb (fsub a b) (of_Z 0) = true.
Proof.
  intros Va Vb Fa Fb Hle. destruct (fsub_self a Fa) as [s Es].
  split.
  - pose proof (fsub_mono_l a b a Va Vb Va Fa Fb Fa Hle) as H.
    rewrite Es in H. destruct s; exact H.
  - pose proof (fsub_mono_r a a b Va Va Vb Fa Fa Fb Hle) as H.
    rewrite Es in H. rewrite <- H. destruct s; apply SFleb_same_r; reflexivity.
Qed.

(** *** The interpolation of getYAtX is monotone in the target *)

Theorem interpolate_mono (pi pj : point) (q q' : spec_float) :
  number64 (x pi) -> number64 (y pi) -> number64 (x pj) -> number64 (y pj) ->
  number64 q -> number64 q' ->
  SFltb (x pi) (x pj) = true -> SFltb (x pi) q = true -> SFleb q q' = true ->
  is_nan (interpolate pi pj q) = false -> is_nan (interpolate pi pj q') = false ->
  (SFleb (y pi) (y pj) = true ->
   SFleb (interpolate pi pj q) (interpolate pi pj q') = true) /\
  (SFleb (y pj) (y pi) = true ->
   SFleb (interpolate pi pj q') (interpolate pi pj q) = true).
Proof.
  intros [Vxi Fxi] [Vyi Fyi] [Vxj Fxj] [Vyj Fyj] [Vq Fq] [Vq' Fq'] Hij Hq Hqq'.
  unfold interpolate. cbn [add mul div sub arith].
  set (n := fsub q (x pi)). set (n' := fsub q' (x pi)).
  set (D := fsub (x pj) (x pi)). set (dy := fsub (y pj) (y pi)).
  intros Hnan Hnan'.
  assert (Pn : SFltb (of_Z 0) n = true) by (apply fsub_positive; trivial).
  assert (Pn' : SFltb (of_Z 0) n' = true).
  { apply fsub_positive; trivial. apply SFltb_leb_trans with q; trivial. }
  assert (PD : SFltb (of_Z 0) D = true) by (apply fsub_positive; trivial).
  assert (Vn : valid n) by (apply fsub_valid; trivial).
  assert (Vn' : valid n') by (apply fsub_valid; trivial).
  assert (VD : valid D) by (apply fsub_valid; trivial).
  assert (Vdy : valid dy) by (apply fsub_valid; trivial).
  assert (Hnn : SFleb n n' = true) by (apply fsub_mono_l; trivial).
  assert (Nt : is_nan (fdiv n D) = false).
  { destruct (fdiv n D); try reflexivity.
    rewrite fmul_nan_l, fadd_nan_r in Hnan. discriminate Hnan. }
  assert (Nt' : is_nan (fdiv n' D) = false).
  { destruct (fdiv n' D); try reflexivity.
    rewrite fmul_nan_l, fadd_nan_r in Hnan'. discriminate Hnan'. }
  destruct (fdiv_positive n D Vn VD Pn PD Nt) as [Nnt Vt].
  destruct (fdiv_positive n' D Vn' VD Pn' PD Nt') as [Nnt' Vt'].
  pose proof (fdiv_mono_pos n n' D Vn Vn' VD Pn Pn' PD Hnn Nt Nt') as Htt.
  assert (Np : is_nan (fmul (fdiv n D) dy) = false).
  { destruct (fmul (fdiv n D) dy); try reflexivity.
    rewrite fadd_nan_r in Hnan. discriminate Hnan. }
  assert (Np' : is_nan (fmul (fdiv n' D) dy) = false).
  { destruct (fmul (fdiv n' D) dy); try reflexivity.
    rewrite fadd_nan_r in Hnan'. discriminate Hnan'. }
  destruct (fmul_mono _ _ dy Vt Vt' Vdy Nnt Nnt' Htt Np Np') as [Hup Hdown].
  split; intros Hy.
  - apply fadd_mono; trivial; try (apply fmul_valid; trivial).
    apply Hup. apply (fsub_sign (y pi) (y pj)); trivial.
  - apply fadd_mono; trivial; try (apply fmul_valid; trivial).
    apply Hdown. apply (fsub_sign (y pj) (y pi)); trivial.
Qed.

(** *** The interpolation gives a number unless a difference overflows *)

Theorem interpolate_notnan (pi pj : point) (q : spec_float) :
  number64 (x pi) -> number64 (y pi) -> number64 (x pj) -> number64 (y pj) ->
  number64 q ->
  SFltb (x pi) q = true -> SFleb q (x pj) = true ->
  finite (fsub q (x pi)) = true -> finite (fsub (y pj) (y pi)) = true ->
  let t := fdiv (fsub q (x pi)) (fsub (x pj) (x pi)) in
  SFleb (of_Z 0) t = true /\ SFleb t (of_Z 1) = true /\
  is_nan (interpolate pi pj q) = false.
Proof.
  intros [Vxi Fxi] [Vyi Fyi] [Vxj Fxj] [Vyj Fyj] [Vq Fq] Hq Hqj Fn Fdy.
  assert (Hij : SFltb (x pi) (x pj) = true) by (apply SFltb_leb_trans with q; trivial).
  unfold interpolate. cbn [add mul div sub arith].
  set (n := fsub q (x pi)) in *. set (D := fsub (x pj) (x pi)).
  set (dy := fsub (y pj) (y pi)) in *.
  assert (Pn : SFltb (of_Z 0) n = true) by (apply fsub_positive; trivial).
  assert (PD : SFltb (of_Z 0) D = true) by (apply fsub_positive; trivial).
  assert (Vn : valid n) by (apply fsub_valid; trivial).
  assert (VD : valid D) by (apply fsub_valid; trivial).
  assert (Vdy : valid dy) by (apply fsub_valid; trivial).
  assert (HnD : SFleb n D = true) by (apply fsub_mono_l; trivial).
  destruct (fdiv_le_one n D Vn VD Fn Pn PD HnD) as [Hone Ft].
  assert (Nt : is_nan (fdiv n D) = false) by (destruct (fdiv n D); trivial; discriminate).
  destruct (fdiv_positive n D Vn VD Pn PD Nt) as [Nnt Vt].
  cbv zeta. split; [|split; [exact Hone|]].
  - destruct Nnt as [->|[->|(p & e & ->)]]; reflexivity.
  - apply fadd_notnan; trivial.
    pose proof (fmul_roundAt _ _ Vt Vdy Ft Fdy) as [_ H]%same_rank. exact H.
Qed.


(** *** Integer literals *)

Lemma of_Z_roundAt (z : Z) : of_Z z = roundAt (-1074) (z * 2 ^ 1074).
Proof. unfold of_Z. rewrite (binary_normalize_roundAt z 0 (-1074)) by lia. reflexivity. Qed.

Lemma of_Z_mono (z1 z2 : Z) : z1 <= z2 -> SFleb (of_Z z1) (of_Z z2) = true.
Proof.
  intros Hle. rewrite !of_Z_roundAt. apply roundAt_mono; [lia|].
  apply Z.mul_le_mono_nonneg_r; [|exact Hle]. apply Z.pow_nonneg. lia.
Qed.

Lemma of_Z_valid (z : Z) : valid (of_Z z).
Proof. rewrite of_Z_roundAt. apply roundAt_valid. lia. Qed.

Lemma of_Z_nonneg (z : Z) : 0 <= z -> nonneg (of_Z z).
Proof.
  intros Hz. rewrite of_Z_roundAt. unfold roundAt.
  assert (Hp : 0 < 2 ^ 1074) by reflexivity.
  destruct (z * 2 ^ 1074) as [|p|p] eqn:E; try nia.
  - left. reflexivity.
  - apply rnd_sign.
Qed.

(** *** The default opacity from the fifth series on *)

Lemma default_opacity_floor (idx : Z) :
  4 <= idx ->
  Binary64.max (decimal 15 2) (fsub (decimal 4 1) (fmul (of_Z idx) (decimal 8 2))) =
  decimal 15 2.
Proof.
  intros Hidx.
  assert (H8 : decimal 8 2 = S754_finite false 5764607523034235 (-56))
    by (vm_compute; reflexivity).
  set (w := of_Z idx). set (m := fmul w (decimal 8 2)).
  assert (Nw : is_nan w = false) by apply of_Z_notnan.
  assert (Nm : is_nan m = false) by (unfold m; rewrite H8; apply fmul_notnan, Nw).
  assert (Vm : valid m) by (apply fmul_valid; [apply of_Z_valid|reflexivity]).
  assert (Hm : SFleb (fmul (of_Z 4) (decimal 8 2)) m = true).
  { apply (fmul_mono (of_Z 4) w (decimal 8 2)); try reflexivity.
    - apply of_Z_valid.
    - right. right. eexists _, _. vm_compute. reflexivity.
    - apply of_Z_nonneg. lia.
    - apply of_Z_mono, Hidx.
    - exact Nm. }
  assert (Hv : SFleb (fsub (decimal 4 1) m)
                 (fsub (decimal 4 1) (fmul (of_Z 4) (decimal 8 2))) = true).
  { destruct (finite m) eqn:Fm.
    - apply fsub_mono_r; trivial; reflexivity.
    - destruct m as [sm|[|]| |sm mm em]; try discriminate; reflexivity. }
  assert (Nv : is_nan (fsub (decimal 4 1) m) = false)
    by (apply fsub_notnan; [reflexivity|exact Nm]).
  destruct (max_cases (decimal 15 2) _ eq_refl Nv) as [[E _]|[_ Hge]]; [exact E|].
  pose proof (SFleb_trans _ _ _ Hge Hv) as Hc. vm_compute in Hc. discriminate Hc.
Qed.

(** *** The position passed to the callback of map *)

Lemma mapIndexed_lookup {A B : Type} (f : A -> Z -> B) (l : list A) :
  forall (start i : Z) (a : A),
    lookup l i = Some a -> lookup (mapIndexed f l start) i = Some (f a (start + i)).
Proof.
  induction l as [|a0 l IH]; intros start i a Hi.
  - rewrite lookup_nil in Hi. discriminate.
  - pose proof (lookup_range _ _ _ Hi) as Hr. cbn [mapIndexed].
    destruct (Z.eq_dec i 0) as [->|Hne].
    + rewrite lookup_zero in *. injection Hi as <-. rewrite Z.add_0_r. reflexivity.
    + replace i with (i - 1 + 1) in Hi by lia. rewrite lookup_succ in Hi by lia.
      replace i with (i - 1 + 1) at 1 by lia. rewrite lookup_succ by lia.
      rewrite (IH (start + 1) (i - 1) a Hi). do 2 f_equal. lia.
Qed.

(** *** The first bracketing segment starts left of the target *)

Lemma first_bracket_strict (points : list (DataPoint spec_float)) (q : spec_float)
    (p0 pi : DataPoint spec_float) (i : Z) :
  ascending points = true ->
  lookup points 0 = Some p0 -> SFleb q (x p0) = false ->
  lookup points i = Some pi -> firstBracket points q i ->
  SFltb (x pi) q = true.
Proof.
  intros Hasc E0 Hle Ei [Hb Hfirst].
  pose proof (lookup_range _ _ _ Ei) as Hi.
  assert (Hge : fgeb q (x pi) = true).
  { unfold brackets in Hb. rewrite Ei in Hb.
    destruct (lookup points (i + 1)); [|discriminate].
    apply andb_true_iff in Hb as [H _]. exact H. }
  rewrite fgeb_SFleb in Hge. destruct (SFleb_notnan _ _ Hge) as [Ni Nq].
  destruct (Z.eq_dec i 0) as [->|Hne].
  - assert (pi = p0) as -> by congruence.
    apply SFleb_false_ltb; trivial.
  - destruct (lookup_defined points (i - 1)) as [pp Ep]; [lia|].
    assert (Hpi : SFltb (x pp) (x pi) = true).
    { apply (ascending_adjacent points (i - 1) pp pi Hasc Ep).
      rewrite <- Ei. f_equal. lia. }
    pose proof (Hfirst (i - 1) ltac:(lia)) as Hprev.
    unfold brackets in Hprev. replace (i - 1 + 1) with i in Hprev by lia.
    rewrite Ep, Ei in Hprev.
    assert (Hgp : fgeb q (x pp) = true).
    { rewrite fgeb_SFleb.
      exact (ltb_leb (x pp) q (SFltb_leb_trans _ _ _ Hpi Hge)). }
    cbn [geb leb arith] in Hprev. rewrite Hgp in Hprev. cbn [andb] in Hprev.
    apply SFleb_false_ltb; trivial.
Qed.

(** *** The interpolation does not leave the side of the left sample *)

Lemma fmul_sign (t d : spec_float) :
  valid t -> valid d -> nonneg t -> is_nan (fmul t d) = false ->
  (SFleb (of_Z 0) d = true -> SFleb (of_Z 0) (fmul t d) = true) /\
  (SFleb d (of_Z 0) = true -> SFleb (fmul t d) (of_Z 0) = true).
Proof.
  intros Vt Vd Nt Hnan.
  destruct (finite t && finite d) eqn:Fin.
  - apply andb_true_iff in Fin as [Ft Fd].
    assert (Hu : 0 <= units t).
    { destruct Nt as [->|[->|(p & e & ->)]]; cbn [units cond_Zopp]; lia. }
    split; intros Hd.
    + pose proof (SFleb_units (of_Z 0) d eq_refl Vd eq_refl Fd Hd) as Hud.
      rewrite units_zero in Hud.
      rewrite (SFleb_same_r _ _ _ (fmul_roundAt t d Vt Vd Ft Fd)).
      apply (roundAt_mono (-2148) 0); [lia|]. apply Z.mul_nonneg_nonneg; lia.
    + pose proof (SFleb_units d (of_Z 0) Vd eq_refl Fd eq_refl Hd) as Hud.
      rewrite units_zero in Hud.
      rewrite (SFleb_same_l _ _ _ (fmul_roundAt t d Vt Vd Ft Fd)).
      apply (roundAt_mono (-2148) _ 0); [lia|]. apply Z.mul_nonneg_nonpos; lia.
  - destruct Nt as [->|[->|(p & e & ->)]];
      destruct d as [[|]|[|]| |[|] md ed]; try discriminate Fin;
      try discriminate Hnan;
      (split; intros Hd; try discriminate Hd; reflexivity).
Qed.

Lemma fadd_zero_r (a : spec_float) : finite a = true -> same (fadd a (of_Z 0)) a.
Proof.
  change (of_Z 0) with (S754_zero false).
  destruct a as [[|]|[|]| |s m e]; try discriminate; intros _; try reflexivity.
  unfold fadd. cbn [SFadd]. apply same_refl. reflexivity.
Qed.

Lemma interpolate_from (pi pj : point) (q : spec_float) :
  number64 (x pi) -> number64 (y pi) -> number64 (x pj) -> number64 (y pj) ->
  number64 q ->
  SFltb (x pi) (x pj) = true -> SFltb (x pi) q = true ->
  is_nan (interpolate pi pj q) = false ->
  (SFleb (y pi) (y pj) = true -> SFleb (y pi) (interpolate pi pj q) = true) /\
  (SFleb (y pj) (y pi) = true -> SFleb (interpolate pi pj q) (y pi) = true).
Proof.
  intros [Vxi Fxi] [Vyi Fyi] [Vxj Fxj] [Vyj Fyj] [Vq Fq] Hij Hq.
  unfold interpolate. cbn [add mul div sub arith].
  set (n := fsub q (x pi)). set (D := fsub (x pj) (x pi)).
  set (dy := fsub (y pj) (y pi)). intros Hnan.
  assert (Pn : SFltb (of_Z 0) n = true) by (apply fsub_positive; trivial).
  assert (PD : SFltb (of_Z 0) D = true) by (apply fsub_positive; trivial).
  assert (Vn : valid n) by (apply fsub_valid; trivial).
  assert (VD : valid D) by (apply fsub_valid; trivial).
  assert (Vdy : valid dy) by (apply fsub_valid; trivial).
  assert (Nt : is_nan (fdiv n D) = false).
  { destruct (fdiv n D); try reflexivity.
    rewrite fmul_nan_l, fadd_nan_r in Hnan. discriminate Hnan. }
  destruct (fdiv_positive n D Vn VD Pn PD Nt) as [Nnt Vt].
  assert (Np : is_nan (fmul (fdiv n D) dy) = false).
  { destruct (fmul (fdiv n D) dy); try reflexivity.
    rewrite fadd_nan_r in Hnan. discriminate Hnan. }
  destruct (fmul_sign _ dy Vt Vdy Nnt Np) as [Hup Hdown].
  assert (Vp : valid (fmul (fdiv n D) dy)) by (apply fmul_valid; trivial).
  split; intros Hy.
  - rewrite <- (SFleb_same_l _ _ _ (fadd_zero_r (y pi) Fyi)).
    apply fadd_mono; trivial; [reflexivity|].
    apply Hup. apply (fsub_sign (y pi) (y pj)); trivial.
  - rewrite <- (SFleb_same_r _ _ _ (fadd_zero_r (y pi) Fyi)).
    apply fadd_mono; trivial; [reflexivity|].
    apply Hdown. apply (fsub_sign (y pj) (y pi)); trivial.
Qed.

(** *** getYAtX between two neighbours, after rounding *)

Theorem getYAtX_monotone64 (points : list point) (i : Z) (pi pj : point)
    (q1 q2 : spec_float) :
  Forall sound points -> ascending points = true ->
  lookup points i = Some pi -> lookup points (i + 1) = Some pj ->
  number64 q1 -> number64 q2 ->
  SFleb (x pi) q1 = true -> SFleb q1 q2 = true -> SFleb q2 (x pj) = true ->
  SFltb (x pi) q1 = true \/ i = 0 ->
  SFltb q2 (x pj) = true \/ i + 1 < len points - 1 ->
  exists v1 v2 : spec_float,
    getYAtX points q1 = Some v1 /\ getYAtX points q2 = Some v2 /\
    (is_nan v1 = false -> is_nan v2 = false ->
     (SFleb (y pi) (y pj) = true -> SFleb v1 v2 = true) /\
     (SFleb (y pj) (y pi) = true -> SFleb v2 v1 = true)).
Proof.
  intros Hall Hasc Ei Ej N1 N2 H1 H12 H2 Hleft Hright.
  destruct (lookup_Forall _ points i pi Hall Ei) as [Nxi Nyi].
  destruct (lookup_Forall _ points (i + 1) pj Hall Ej) as [Nxj Nyj].
  pose proof (ascending_adjacent points i pi pj Hasc Ei Ej) as Hij.
  assert (Hq2 : forall q, SFleb q q2 = true ->
                SFltb q2 (x pj) = true \/ i + 1 < len points - 1 ->
                SFltb q (x pj) = true \/ i + 1 < len points - 1).
  { intros q Hq [Hlt|Hidx]; [left|right; exact Hidx].
    exact (leb_ltb_trans q q2 (x pj) Hq Hlt). }
  assert (Inner : forall q, SFltb (x pi) q = true -> SFleb q (x pj) = true ->
                  SFltb q (x pj) = true \/ i + 1 < len points - 1 ->
                  getYAtX points q = Some (interpolate pi pj q)).
  { intros q Hq Hqj Hr.
    exact (getYAtX_within points q i pi pj Hasc Ei Ej Hq Hqj Hr). }
  destruct (SFltb (x pi) q1) eqn:Hs1.
  - (* both targets are right of the left sample *)
    assert (Hs2 : SFltb (x pi) q2 = true) by (apply SFltb_leb_trans with q1; trivial).
    exists (interpolate pi pj q1), (interpolate pi pj q2).
    split; [apply Inner; trivial|].
    { apply SFleb_trans with q2; trivial. }
    { apply Hq2; trivial. }
    split; [apply Inner; trivial|].
    intros Hn1 Hn2. apply interpolate_mono; trivial.
  - (* the first target is the first sample *)
    destruct Hleft as [Hc | ->]; [discriminate Hc|].
    assert (E1 : getYAtX points q1 = Some (y pi)).
    { apply (getYAtX_clamp_left points q1 pi); trivial.
      change (SFleb q1 (x pi) = true).
      destruct (SFleb_notnan _ _ H1) as [Na Nb].
      destruct (SFleb q1 (x pi)) eqn:E; [reflexivity|].
      apply SFleb_false_ltb in E; trivial. congruence. }
    destruct (SFltb (x pi) q2) eqn:Hs2.
    + exists (y pi), (interpolate pi pj q2).
      split; [exact E1|]. split; [apply Inner; trivial|].
      intros _ Hn2. apply interpolate_from; trivial.
    + exists (y pi), (y pi). split; [exact E1|]. split.
      * apply (getYAtX_clamp_left points q2 pi); trivial.
        change (SFleb q2 (x pi) = true).
        destruct (SFleb_notnan _ _ H12) as [Na Nb].
        destruct (SFleb_notnan _ _ H1) as [Nc _].
        destruct (SFleb q2 (x pi)) eqn:E; [reflexivity|].
        apply SFleb_false_ltb in E; trivial. congruence.
      * intros Hn _. split; intros _; apply SFleb_refl, Hn.
Qed.

End Binary64Round.

(** ** The primary series and the label of a point *)

Section Selection.
Context {number : Type} {arith : Arith number}.
Implicit Types (lines : list (ChartLine number)) (l : ChartLine number).

Lemma flagged_isPrimary l : flagged l = true <-> isPrimary l = Some true.
Proof. unfold flagged. destruct (isPrimary l) as [[|]|]; split; congruence. Qed.

Lemma unflagged_isPrimary l : flagged l = false <-> isPrimary l <> Some true.
Proof. unfold flagged. destruct (isPrimary l) as [[|]|]; split; congruence. Qed.

(** [find] stops at the first series whose isPrimary is true. *)
Lemma primaryLine_first_flagged (before after : list (ChartLine number)) l :
  (forall l', In l' before -> isPrimary l' <> Some true) ->
  isPrimary l = Some true ->
  primaryLine (before ++ l :: after) = Some l.
Proof.
  intros Hb Hl. unfold primaryLine.
  assert (E : find flagged (before ++ l :: after) = Some l).
  { induction before as [|b before IH]; cbn [app find].
    - rewrite (proj2 (flagged_isPrimary l) Hl). reflexivity.
    - rewrite (proj2 (unflagged_isPrimary b) (Hb b (or_introl eq_refl))).
      apply IH. intros l' Hin. apply Hb. right. exact Hin. }
  rewrite E. reflexivity.
Qed.

Lemma primaryLine_none_flagged lines :
  (forall l, In l lines -> isPrimary l <> Some true) ->
  primaryLine lines = lookup lines 0.
Proof.
  intros H. apply primaryLine_fallback. intros l Hin.
  apply unflagged_isPrimary, H, Hin.
Qed.

(** [p.label || '']: the label when there is one, else the empty string. *)
Lemma label_cases (p : DataPoint number) (r : option string) :
  r = Some (orEmpty (label p)) ->
  (forall s, label p = Some s -> r = Some s) /\
  (label p = None -> r = Some EmptyString).
Proof. intros ->. split; [intros s E|intros E]; rewrite E; reflexivity. Qed.

Lemma bracketed_none (points : list (DataPoint number)) (targetX : number) :
  (forall j, brackets points targetX j = false) ->
  bracketed points targetX = false.
Proof.
  intros Hnone. unfold bracketed.
  destruct (existsb _ _) eqn:E; [|reflexivity].
  apply existsb_exists in E as (n & _ & Hn). rewrite Hnone in Hn. discriminate Hn.
Qed.

End Selection.

(** * The claims, on the arithmetic of the program *)

Import ExactOrder Binary64Order.

(** C1: for points strictly ascending by x and a targetX strictly between
    the first and the last x, getYAtX returns
    pi.y + t * (pj.y - pi.y) with t = (targetX - pi.x) / (pj.x - pi.x)
    on the first segment (pi, pj) with pi.x <= targetX <= pj.x, and such a
    segment exists; on the series (0,0), (50,100), (100,0) the value is 50
    at 25, 50 at 75 and 100 at 50. *)
Theorem C1_getYAtX_interpolates_first_segment :
  (forall (points : list point) (targetX : spec_float) (p0 pl : point),
      ascending points = true ->
      lookup points 0 = Some p0 ->
      lookup points (len points - 1) = Some pl ->
      SFltb (x p0) targetX = true ->
      SFltb targetX (x pl) = true ->
      exists (i : Z) (pi pj : point),
        lookup points i = Some pi /\
        lookup points (i + 1) = Some pj /\
        firstBracket points targetX i /\
        getYAtX points targetX =
        Some (fadd (y pi)
                (fmul (fdiv (fsub targetX (x pi)) (fsub (x pj) (x pi)))
                      (fsub (y pj) (y pi))))) /\
  getYAtX tent (of_Z 25) = Some (of_Z 50) /\
  getYAtX tent (of_Z 75) = Some (of_Z 50) /\
  getYAtX tent (of_Z 50) = Some (of_Z 100).
Proof.
  split; [|repeat split; vm_compute; reflexivity].
  intros points targetX p0 pl Hasc E0 El H0 Hl.
  destruct (first_bracket_exists points targetX p0 pl Hasc E0 H0 El Hl)
    as (i & pi & pj & Ei & Ej & Hfirst).
  exists i, pi, pj. repeat split; trivial; try apply Hfirst.
  rewrite (getYAtX_segment points targetX p0 pl i pi pj); trivial.
  - apply ltb_not_leb, H0.
  - rewrite geb_leb. apply ltb_not_leb, Hl.
Qed.

(** C1 at the series (0,0), (50,100), (100,0) and targetX = 25. *)
Lemma C1_witness :
  exists (i : Z) (pi pj : point),
    lookup tent i = Some pi /\
    lookup tent (i + 1) = Some pj /\
    firstBracket tent (of_Z 25) i /\
    getYAtX tent (of_Z 25) =
    Some (fadd (y pi)
            (fmul (fdiv (fsub (of_Z 25) (x pi)) (fsub (x pj) (x pi)))
                  (fsub (y pj) (y pi)))).
Proof.
  apply (proj1 C1_getYAtX_interpolates_first_segment tent (of_Z 25)
           (pointAt 0 0) (pointAt 100 0)); vm_compute; reflexivity.
Defined.

(** C2: getLabelAtX takes the first series whose isPrimary is true, or the
    first series of the collection when no series has it; on the first
    segment (pi, pj) of that series bracketing targetX it returns pi's
    label when t < 0.5 and pj's label when t >= 0.5, '' standing for a
    missing label; with points at x = 0 and x = 100 the label at 49.9 is
    the left one and at 50 and 50.1 the right one, for a single series and
    for a flagged series placed after an unflagged one. *)
Theorem C2_getLabelAtX_primary_and_nearer_label :
  (forall (before after : list (ChartLine spec_float)) (l : ChartLine spec_float),
      (forall l', In l' before -> isPrimary l' <> Some true) ->
      isPrimary l = Some true ->
      primaryLine (before ++ l :: after) = Some l) /\
  (forall (lines : list (ChartLine spec_float)),
      (forall l, In l lines -> isPrimary l <> Some true) ->
      primaryLine lines = lookup lines 0) /\
  (forall (lines : list (ChartLine spec_float)) (l : ChartLine spec_float)
          (targetX : spec_float) (i : Z) (pi pj : point),
      primaryLine lines = Some l ->
      lookup (data l) i = Some pi ->
      lookup (data l) (i + 1) = Some pj ->
      firstBracket (data l) targetX i ->
      let t := fdiv (fsub targetX (x pi)) (fsub (x pj) (x pi)) in
      (SFltb t (decimal 5 1) = true ->
       (forall s, label pi = Some s -> getLabelAtX lines targetX = Some s) /\
       (label pi = None -> getLabelAtX lines targetX = Some EmptyString)) /\
      (fgeb t (decimal 5 1) = true ->
       (forall s, label pj = Some s -> getLabelAtX lines targetX = Some s) /\
       (label pj = None -> getLabelAtX lines targetX = Some EmptyString))) /\
  getLabelAtX span (decimal 499 1) = Some "left"%string /\
  getLabelAtX span (of_Z 50) = Some "right"%string /\
  getLabelAtX span (decimal 501 1) = Some "right"%string /\
  getLabelAtX marked (decimal 499 1) = Some "left"%string /\
  getLabelAtX marked (of_Z 50) = Some "right"%string /\
  getLabelAtX marked (decimal 501 1) = Some "right"%string.
Proof.
  split; [exact primaryLine_first_flagged|].
  split; [exact primaryLine_none_flagged|].
  split; [|repeat split; vm_compute; reflexivity].
  intros lines l targetX i pi pj Hl Ei Ej Hfirst t.
  pose proof (getLabelAtX_segment lines l targetX i pi pj Hl Ei Ej Hfirst) as E.
  split; intros Ht; apply label_cases; rewrite E; f_equal.
  - apply nearerLabel_left, Ht.
  - apply nearerLabel_right, Ht.
Qed.

(** C2 at two series, the second one flagged, with points at x = 0 and
    x = 100 and targetX = 49.9, where t < 0.5. *)
Lemma C2_witness :
  primaryLine marked =
  Some (seriesOf "main" (Some true) [labelled 0 "left"; labelled 100 "right"]) /\
  getLabelAtX marked (decimal 499 1) = Some "left"%string.
Proof.
  assert (Hp : primaryLine marked =
               Some (seriesOf "main" (Some true)
                       [labelled 0 "left"; labelled 100 "right"])).
  { apply (proj1 C2_getLabelAtX_primary_and_nearer_label
             [seriesOf "plain" None [labelled 0 "a"; labelled 100 "b"]] []).
    - intros l' [<-|[]]. discriminate.
    - reflexivity. }
  split; [exact Hp|].
  refine (proj1 (proj1 (proj1 (proj2 (proj2 C2_getLabelAtX_primary_and_nearer_label))
                          marked _ (decimal 499 1) 0
                          (labelled 0 "left") (labelled 100 "right") Hp _ _ _) _)
            "left"%string _).
  - reflexivity.
  - reflexivity.
  - split; [vm_compute; reflexivity | intros k Hk; lia].
  - vm_compute; reflexivity.
  - reflexivity.
Defined.

(** C3: generateSmoothPath returns the empty path for fewer than 2 points;
    for n >= 2 points it returns M at the first mapped point followed by
    n - 1 curves, the one at index i being
    C cp1, cp2, mapped p2 with cp1 = p1 + (p2 - p0) / 6 and
    cp2 = p2 - (p3 - p1) / 6 on each axis of the mapped points, where
    p0 = points[max(0, i - 1)], p1 = points[i], p2 = points[i + 1],
    p3 = points[min(n - 1, i + 2)], px = (x / 100) * width and
    py = height - (y / 100) * height. *)
Theorem C3_generateSmoothPath_shape :
  forall (points : list point) (width height : spec_float),
    let px (p : point) := fmul (fdiv (x p) (of_Z 100)) width in
    let py (p : point) := fsub height (fmul (fdiv (y p) (of_Z 100)) height) in
    (len points < 2 -> generateSmoothPath points width height = Some []) /\
    (2 <= len points ->
     exists (p : point) (cs : Path spec_float),
       lookup points 0 = Some p /\
       generateSmoothPath points width height = Some (MoveTo (px p) (py p) :: cs) /\
       len cs = len points - 1 /\
       forall i, 0 <= i < len points - 1 ->
         exists p0 p1 p2 p3 : point,
           lookup points (Z.max 0 (i - 1)) = Some p0 /\
           lookup points i = Some p1 /\
           lookup points (i + 1) = Some p2 /\
           lookup points (Z.min (len points - 1) (i + 2)) = Some p3 /\
           lookup cs i =
           Some (CurveTo
                   (fadd (px p1) (fdiv (fsub (px p2) (px p0)) (of_Z 6)))
                   (fadd (py p1) (fdiv (fsub (py p2) (py p0)) (of_Z 6)))
                   (fsub (px p2) (fdiv (fsub (px p3) (px p1)) (of_Z 6)))
                   (fsub (py p2) (fdiv (fsub (py p3) (py p1)) (of_Z 6)))
                   (px p2) (py p2))).
Proof.
  intros points width height px py. split.
  - apply generateSmoothPath_short.
  - intros Hge.
    destruct (generateSmoothPath_long points width height Hge)
      as (p & cs & E0 & Epath & Hlen & Hcs).
    exists p, cs. repeat split; trivial.
    intros i Hi.
    destruct (curveAt_defined points width height i Hi)
      as (p0 & p1 & p2 & p3 & Ep0 & Ep1 & Ep2 & Ep3 & Ec).
    exists p0, p1, p2, p3. repeat split; trivial.
    rewrite (Hcs i Hi), Ec. reflexivity.
Qed.

(** C3 at no points and at the series (0,0), (50,100), (100,0). *)
Lemma C3_witness :
  generateSmoothPath (@nil point) (of_Z 280) (of_Z 75) = Some [] /\
  exists (p : point) (cs : Path spec_float),
    lookup tent 0 = Some p /\
    generateSmoothPath tent (of_Z 280) (of_Z 75) =
      Some (MoveTo (fmul (fdiv (x p) (of_Z 100)) (of_Z 280))
              (fsub (of_Z 75) (fmul (fdiv (y p) (of_Z 100)) (of_Z 75))) :: cs) /\
    len cs = 2.
Proof.
  split.
  - apply (proj1 (C3_generateSmoothPath_shape [] (of_Z 280) (of_Z 75))).
    vm_compute; reflexivity.
  - destruct (proj2 (C3_generateSmoothPath_shape tent (of_Z 280) (of_Z 75)))
      as (p & cs & E0 & Epath & Hlen & _).
    + vm_compute; discriminate.
    + exists p, cs. repeat split; trivial.
Defined.

(** C4, as stated, fails: the points (5,1), (5,2) are sorted by x and
    targetX = 5 is at or after the last x, yet getYAtX returns the first
    point's y, 1, and not the last point's y, 2. *)
Lemma C4_counterexample :
  sorted level = true /\
  lookup level (len level - 1) = Some (pointAt 5 2) /\
  fgeb (of_Z 5) (x (pointAt 5 2)) = true /\
  getYAtX level (of_Z 5) = Some (of_Z 1) /\
  getYAtX level (of_Z 5) <> Some (y (pointAt 5 2)).
Proof. repeat split; try (vm_compute; reflexivity). vm_compute. discriminate. Qed.

(** C4 (amended): getYAtX raises no error and returns 0 for no points;
    the first point's y when targetX is at or before the first x; the last
    point's y when targetX is at or after the last x and not at or before
    the first x, hence for every strictly ascending sequence whenever
    targetX is at or after the last x; on the series (0,0), (50,100),
    (100,0) the value at -50 is the first y and at 500 the last y. *)
Theorem C4_getYAtX_defaults_and_clamps :
  (forall targetX : spec_float, getYAtX (@nil point) targetX = Some (of_Z 0)) /\
  (forall (points : list point) (targetX : spec_float) (p0 : point),
      lookup points 0 = Some p0 ->
      SFleb targetX (x p0) = true ->
      getYAtX points targetX = Some (y p0)) /\
  (forall (points : list point) (targetX : spec_float) (p0 pl : point),
      lookup points 0 = Some p0 ->
      lookup points (len points - 1) = Some pl ->
      SFleb targetX (x p0) = false ->
      fgeb targetX (x pl) = true ->
      getYAtX points targetX = Some (y pl)) /\
  (forall (points : list point) (targetX : spec_float) (pl : point),
      ascending points = true ->
      lookup points (len points - 1) = Some pl ->
      fgeb targetX (x pl) = true ->
      getYAtX points targetX = Some (y pl)) /\
  getYAtX tent (of_Z (-50)) = Some (y (pointAt 0 0)) /\
  getYAtX tent (of_Z 500) = Some (y (pointAt 100 0)).
Proof.
  split; [reflexivity|].
  split.
  { intros points targetX p0 E0 Hle.
    apply getYAtX_clamp_left with (p0 := p0); trivial. }
  split.
  { intros points targetX p0 pl E0 El Hle Hge.
    apply getYAtX_clamp_right with (p0 := p0); trivial. }
  split.
  { intros points targetX pl Hasc El Hge.
    apply getYAtX_clamp_right_ascending; trivial. }
  split; vm_compute; reflexivity.
Qed.

(** C4 (amended) at the points (5,1), (5,2) with targetX = 5 and
    targetX = 7, and at the series (0,0), (50,100), (100,0) with
    targetX = 100. *)
Lemma C4_witness :
  getYAtX level (of_Z 5) = Some (y (pointAt 5 1)) /\
  getYAtX level (of_Z 7) = Some (y (pointAt 5 2)) /\
  getYAtX tent (of_Z 100) = Some (y (pointAt 100 0)).
Proof.
  split; [|split].
  - apply (proj1 (proj2 C4_getYAtX_defaults_and_clamps) level (of_Z 5) (pointAt 5 1));
      vm_compute; reflexivity.
  - apply (proj1 (proj2 (proj2 C4_getYAtX_defaults_and_clamps))
             level (of_Z 7) (pointAt 5 1) (pointAt 5 2)); vm_compute; reflexivity.
  - apply (proj1 (proj2 (proj2 (proj2 C4_getYAtX_defaults_and_clamps)))
             tent (of_Z 100) (pointAt 100 0)); vm_compute; reflexivity.
Defined.

(** C5, as stated, fails: of the series "open" and "closed", the second
    being the flagged one, the path of "closed" is emitted first and the
    path of "open" last, on top of it. *)
Lemma C5_counterexample :
  primaryLine pair = Some closedLine /\
  option_map (map key) (seriesPaths pair (of_Z 75)) =
  Some ["closed"%string; "open"%string].
Proof. split; vm_compute; reflexivity. Qed.

(** C5 (amended): MetricsChart emits one path per series in reverse
    collection order, each with the key of its series and the path of its
    data, so the path of the first series of the collection is emitted last
    and painted on top; that series is the primary one when it is flagged
    or when no series is flagged. *)
Theorem C5_seriesPaths_reverse_collection_order :
  forall (lines : list (ChartLine spec_float)) (chartHeight : spec_float),
  exists els : list (PathElement spec_float),
    seriesPaths lines chartHeight = Some els /\
    map key els = rev (map id lines) /\
    Forall2 (drawn chartHeight) els (rev lines) /\
    (forall l : ChartLine spec_float,
        lookup lines 0 = Some l ->
        exists e, lookup els (len els - 1) = Some e /\ drawn chartHeight e l) /\
    (forall l : ChartLine spec_float,
        lookup lines 0 = Some l ->
        flagged l = true \/ (forall l', In l' lines -> flagged l' = false) ->
        primaryLine lines = Some l).
Proof.
  intros lines chartHeight.
  exists (map (elementOf chartHeight) (rev (processedLines lines))).
  split; [apply seriesPaths_spec|].
  split; [apply seriesPaths_keys|].
  split; [apply seriesPaths_drawn|].
  split; [intros l; apply seriesPaths_last|].
  intros l; apply primaryLine_first.
Qed.

(** C5 (amended) at the series "closed", flagged, and "open". *)
Lemma C5_witness :
  exists els : list (PathElement spec_float),
    seriesPaths [closedLine; openLine] (of_Z 75) = Some els /\
    map key els = ["open"%string; "closed"%string] /\
    primaryLine [closedLine; openLine] = Some closedLine.
Proof.
  destruct (C5_seriesPaths_reverse_collection_order [closedLine; openLine] (of_Z 75))
    as (els & Eels & Hkeys & _ & _ & Hprimary).
  exists els. split; [exact Eels|]. split; [exact Hkeys|].
  apply Hprimary; [reflexivity|]. left. reflexivity.
Defined.

(** C6, as stated, fails after rounding: for the points (0,0), (100,100)
    on the 280 x 75 canvas the curve runs from (0, 75) to (280, 0) with
    first control point (46.666666666666664, 62.5); the point of the
    segment at height 62.5 has abscissa 140/3, which is no binary64
    number. *)
Lemma C6_counterexample :
  generateSmoothPath diagonal (of_Z 280) (of_Z 75) =
  Some [MoveTo (of_Z 0) (of_Z 75);
        CurveTo (S754_finite false 6567749456581973 (-47)) (decimal 625 1)
                (S754_finite false 8209686820727467 (-45)) (decimal 125 1)
                (of_Z 280) (of_Z 0)] /\
  ~ onSegment64 (of_Z 0, of_Z 75) (of_Z 280, of_Z 0)
      (S754_finite false 6567749456581973 (-47), decimal 625 1).
Proof.
  split; [vm_compute; reflexivity|].
  intros Hon. apply ExactFacts.onSegment_cross in Hon.
  vm_compute in Hon. discriminate Hon.
Qed.

(** C6 (amended): for exactly 2 points generateSmoothPath returns M at the
    first mapped point and one curve to the second mapped point whose
    control points are cp1 = p1 + (p2 - p1) / 6 and cp2 = p2 - (p2 - p1) / 6
    on each axis of the mapped points, the neighbours being clamped to the
    two points; computed without rounding both control points lie on the
    segment between the mapped points. *)
Theorem C6_two_points_control_points :
  (forall (p1 p2 : point) (width height : spec_float),
      let px (p : point) := fmul (fdiv (x p) (of_Z 100)) width in
      let py (p : point) := fsub height (fmul (fdiv (y p) (of_Z 100)) height) in
      generateSmoothPath [p1; p2] width height =
      Some [MoveTo (px p1) (py p1);
            CurveTo (fadd (px p1) (fdiv (fsub (px p2) (px p1)) (of_Z 6)))
                    (fadd (py p1) (fdiv (fsub (py p2) (py p1)) (of_Z 6)))
                    (fsub (px p2) (fdiv (fsub (px p2) (px p1)) (of_Z 6)))
                    (fsub (py p2) (fdiv (fsub (py p2) (py p1)) (of_Z 6)))
                    (px p2) (py p2)]) /\
  (forall (p1 p2 : DataPoint Q) (width height : Q),
      exists c1x c1y c2x c2y : Q,
        generateSmoothPath [p1; p2] width height =
        Some [MoveTo (scaleX width (x p1)) (scaleY height (y p1));
              CurveTo c1x c1y c2x c2y
                      (scaleX width (x p2)) (scaleY height (y p2))] /\
        Exact.onSegment
          (scaleX width (x p1), scaleY height (y p1))
          (scaleX width (x p2), scaleY height (y p2)) (c1x, c1y) /\
        Exact.onSegment
          (scaleX width (x p1), scaleY height (y p1))
          (scaleX width (x p2), scaleY height (y p2)) (c2x, c2y)).
Proof.
  split.
  - intros p1 p2 width height px py. reflexivity.
  - exact ExactFacts.generateSmoothPath_two.
Qed.

(** C7, as stated, fails after rounding: at the sample x = 50 of
    (0,100), (50,0.1), (100,0) getYAtX returns 100 + 1 * (0.1 - 100),
    which is 0.09999999999999432 and not 0.1. *)
Lemma C7_counterexample :
  ascending dip = true /\
  lookup dip 1 = Some {| x := of_Z 50; y := decimal 1 1; label := None |} /\
  getYAtX dip (of_Z 50) = Some (S754_finite false 7205759403792384 (-56)) /\
  decimal 1 1 = S754_finite false 7205759403792794 (-56) /\
  SFeqb (S754_finite false 7205759403792384 (-56)) (decimal 1 1) = false.
Proof. repeat split; vm_compute; reflexivity. Qed.

(** C7 (amended): for points strictly ascending by x, getYAtX at the first
    and at the last sample's x returns that sample's y; at the x of a sample
    pi in between it returns pp.y + t * (pi.y - pp.y) with
    t = (pi.x - pp.x) / (pi.x - pp.x) on the segment from the previous
    sample pp, which is pi.y when computed without rounding. *)
Theorem C7_getYAtX_at_sample_points :
  (forall (points : list point) (p0 : point),
      ascending points = true ->
      lookup points 0 = Some p0 ->
      getYAtX points (x p0) = Some (y p0)) /\
  (forall (points : list point) (pl : point),
      ascending points = true ->
      lookup points (len points - 1) = Some pl ->
      getYAtX points (x pl) = Some (y pl)) /\
  (forall (points : list point) (i : Z) (pp pi : point),
      ascending points = true ->
      0 < i < len points - 1 ->
      lookup points (i - 1) = Some pp ->
      lookup points i = Some pi ->
      getYAtX points (x pi) =
      Some (fadd (y pp)
              (fmul (fdiv (fsub (x pi) (x pp)) (fsub (x pi) (x pp)))
                    (fsub (y pi) (y pp))))) /\
  (forall (points : list (DataPoint Q)) (i : Z) (pi : DataPoint Q),
      ascending points = true ->
      lookup points i = Some pi ->
      exists v : Q, getYAtX points (x pi) = Some v /\ (v == y pi)%Q).
Proof.
  split; [intros points p0 Hasc E0; apply getYAtX_at_first; trivial|].
  split; [intros points pl Hasc El; apply getYAtX_at_last; trivial|].
  split; [|exact ExactFacts.getYAtX_at_sample].
  intros points i pp pi Hasc Hi Ep Ei.
  rewrite (getYAtX_at_inner points i pp pi Hasc Hi Ep Ei). reflexivity.
Qed.

(** C7 (amended) at the three samples of (0,100), (50,0.1), (100,0). *)
Lemma C7_witness :
  getYAtX dip (of_Z 0) = Some (of_Z 100) /\
  getYAtX dip (of_Z 100) = Some (of_Z 0) /\
  getYAtX dip (of_Z 50) =
  Some (fadd (of_Z 100)
          (fmul (fdiv (fsub (of_Z 50) (of_Z 0)) (fsub (of_Z 50) (of_Z 0)))
                (fsub (decimal 1 1) (of_Z 100)))) /\
  exists v : Q,
    getYAtX [ {| x := 0%Q; y := 100%Q; label := None |};
              {| x := 50%Q; y := (1 # 10)%Q; label := None |};
              {| x := 100%Q; y := 0%Q; label := None |} ] 50%Q = Some v /\
    (v == 1 # 10)%Q.
Proof.
  split; [|split; [|split]].
  - apply (proj1 C7_getYAtX_at_sample_points dip (pointAt 0 100));
      vm_compute; reflexivity.
  - apply (proj1 (proj2 C7_getYAtX_at_sample_points) dip (pointAt 100 0));
      vm_compute; reflexivity.
  - apply (proj1 (proj2 (proj2 C7_getYAtX_at_sample_points)) dip 1
             (pointAt 0 100) {| x := of_Z 50; y := decimal 1 1; label := None |});
      try (vm_compute; reflexivity).
    vm_compute. split; reflexivity.
  - apply (proj2 (proj2 (proj2 C7_getYAtX_at_sample_points))
             [ {| x := 0%Q; y := 100%Q; label := None |};
               {| x := 50%Q; y := (1 # 10)%Q; label := None |};
               {| x := 100%Q; y := 0%Q; label := None |} ] 1
             {| x := 50%Q; y := (1 # 10)%Q; label := None |});
      vm_compute; reflexivity.
Defined.

(** C8, as stated, fails after rounding at both ends of the interval.  On
    (0,100), (50,0.1), (100,0.1) the samples at x = 50 and x = 100 have the
    same y, so between them the value must not increase; yet at 50 it is
    0.09999999999999432, taken from the segment to the left, and at 75 it
    is 0.1.  On (-2^54, 3), (2, 2^53 + 6) the value must not decrease; yet
    at 1 it is 2^53 + 8, since 1 and 2 are at the same rounded distance from
    the first sample, and at 2, the last sample, it is 2^53 + 6. *)
Lemma C8_counterexample :
  ascending shelf = true /\
  lookup shelf 1 = Some {| x := of_Z 50; y := decimal 1 1; label := None |} /\
  lookup shelf 2 = Some {| x := of_Z 100; y := decimal 1 1; label := None |} /\
  fgeb (decimal 1 1) (decimal 1 1) = true /\
  SFleb (of_Z 50) (of_Z 50) = true /\
  SFleb (of_Z 50) (of_Z 75) = true /\
  SFleb (of_Z 75) (of_Z 100) = true /\
  getYAtX shelf (of_Z 50) = Some (S754_finite false 7205759403792384 (-56)) /\
  getYAtX shelf (of_Z 75) = Some (decimal 1 1) /\
  fgeb (S754_finite false 7205759403792384 (-56)) (decimal 1 1) = false /\
  ascending ledge = true /\
  SFleb (of_Z 3) (of_Z (2 ^ 53 + 6)) = true /\
  SFleb (of_Z (- 2 ^ 54)) (of_Z 1) = true /\
  SFleb (of_Z 1) (of_Z 2) = true /\
  getYAtX ledge (of_Z 1) = Some (of_Z (2 ^ 53 + 8)) /\
  getYAtX ledge (of_Z 2) = Some (of_Z (2 ^ 53 + 6)) /\
  SFleb (of_Z (2 ^ 53 + 8)) (of_Z (2 ^ 53 + 6)) = false.
Proof. repeat split; vm_compute; reflexivity. Qed.

(** C8 (amended): for points strictly ascending by x and neighbours pi, pj,
    computed without rounding getYAtX restricted to [pi.x, pj.x] does not
    decrease when pi.y <= pj.y and does not increase when pi.y >= pj.y.  In
    the arithmetic of the program, for targetX strictly between pi.x and
    pj.x the value is pi.y + t * (pj.y - pi.y) with
    t = (targetX - pi.x) / (pj.x - pi.x); for finite coordinates the same
    monotonicity holds on [pi.x, pj.x] without pi.x, unless pi is the first
    sample, and without pj.x, if pj is the last sample, wherever the values
    are not NaN; and they are not NaN when neither targetX - pi.x nor
    pj.y - pi.y overflows. *)
Theorem C8_getYAtX_between_neighbours :
  (forall (points : list (DataPoint Q)) (i : Z) (pi pj : DataPoint Q) (q1 q2 : Q),
      ascending points = true ->
      lookup points i = Some pi ->
      lookup points (i + 1) = Some pj ->
      (x pi <= q1)%Q -> (q1 <= q2)%Q -> (q2 <= x pj)%Q ->
      exists v1 v2 : Q,
        getYAtX points q1 = Some v1 /\
        getYAtX points q2 = Some v2 /\
        ((y pi <= y pj)%Q -> (v1 <= v2)%Q) /\
        ((y pj <= y pi)%Q -> (v2 <= v1)%Q)) /\
  (forall (points : list point) (targetX : spec_float) (i : Z) (pi pj : point),
      ascending points = true ->
      lookup points i = Some pi ->
      lookup points (i + 1) = Some pj ->
      SFltb (x pi) targetX = true ->
      SFltb targetX (x pj) = true ->
      getYAtX points targetX =
      Some (fadd (y pi)
              (fmul (fdiv (fsub targetX (x pi)) (fsub (x pj) (x pi)))
                    (fsub (y pj) (y pi))))) /\
  (forall (points : list point) (i : Z) (pi pj : point) (q1 q2 : spec_float),
      Forall sound points ->
      ascending points = true ->
      lookup points i = Some pi ->
      lookup points (i + 1) = Some pj ->
      number64 q1 -> number64 q2 ->
      SFleb (x pi) q1 = true -> SFleb q1 q2 = true -> SFleb q2 (x pj) = true ->
      SFltb (x pi) q1 = true \/ i = 0 ->
      SFltb q2 (x pj) = true \/ i + 1 < len points - 1 ->
      exists v1 v2 : spec_float,
        getYAtX points q1 = Some v1 /\
        getYAtX points q2 = Some v2 /\
        (is_nan v1 = false -> is_nan v2 = false ->
         (SFleb (y pi) (y pj) = true -> SFleb v1 v2 = true) /\
         (SFleb (y pj) (y pi) = true -> SFleb v2 v1 = true))) /\
  (forall (points : list point) (i : Z) (pi pj : point) (targetX : spec_float),
      Forall sound points ->
      ascending points = true ->
      lookup points i = Some pi ->
      lookup points (i + 1) = Some pj ->
      number64 targetX ->
      SFltb (x pi) targetX = true -> SFleb targetX (x pj) = true ->
      SFltb targetX (x pj) = true \/ i + 1 < len points - 1 ->
      finite (fsub targetX (x pi)) = true ->
      finite (fsub (y pj) (y pi)) = true ->
      exists v : spec_float,
        getYAtX points targetX = Some v /\ is_nan v = false).
Proof.
  split; [exact ExactFacts.getYAtX_monotone|].
  split.
  { intros points targetX i pi pj Hasc Ei Ej Hi Hj.
    rewrite (getYAtX_strictly_inside points targetX i pi pj); trivial. }
  split; [exact Binary64Round.getYAtX_monotone64|].
  intros points i pi pj targetX Hall Hasc Ei Ej Nq Hi Hj Hright Fn Fdy.
  destruct (lookup_Forall _ points i pi Hall Ei) as [Nxi Nyi].
  destruct (lookup_Forall _ points (i + 1) pj Hall Ej) as [Nxj Nyj].
  exists (interpolate pi pj targetX). split.
  - exact (getYAtX_within points targetX i pi pj Hasc Ei Ej Hi Hj Hright).
  - apply (Binary64Round.interpolate_notnan pi pj targetX); trivial.
Qed.

Ltac sound_points :=
  repeat constructor; vm_compute; reflexivity.

(** C8 (amended) at (0,100), (50,0.1), (100,0.1) between x = 50 and
    x = 100, and at (0,0), (50,100), (100,0) between x = 0 and x = 50. *)
Lemma C8_witness :
  (exists v1 v2 : Q,
      getYAtX [ {| x := 0%Q; y := 100%Q; label := None |};
                {| x := 50%Q; y := (1 # 10)%Q; label := None |};
                {| x := 100%Q; y := (1 # 10)%Q; label := None |} ] 50%Q = Some v1 /\
      getYAtX [ {| x := 0%Q; y := 100%Q; label := None |};
                {| x := 50%Q; y := (1 # 10)%Q; label := None |};
                {| x := 100%Q; y := (1 # 10)%Q; label := None |} ] 75%Q = Some v2 /\
      (((1 # 10) <= (1 # 10))%Q -> (v1 <= v2)%Q) /\
      (((1 # 10) <= (1 # 10))%Q -> (v2 <= v1)%Q)) /\
  getYAtX shelf (of_Z 75) =
  Some (fadd (decimal 1 1)
          (fmul (fdiv (fsub (of_Z 75) (of_Z 50)) (fsub (of_Z 100) (of_Z 50)))
                (fsub (decimal 1 1) (decimal 1 1)))) /\
  (exists v1 v2 : spec_float,
      getYAtX tent (of_Z 0) = Some v1 /\
      getYAtX tent (of_Z 50) = Some v2 /\
      (is_nan v1 = false -> is_nan v2 = false -> SFleb v1 v2 = true)) /\
  (exists v : spec_float, getYAtX tent (of_Z 10) = Some v /\ is_nan v = false).
Proof.
  split; [|split; [|split]].
  - apply (proj1 C8_getYAtX_between_neighbours
             [ {| x := 0%Q; y := 100%Q; label := None |};
               {| x := 50%Q; y := (1 # 10)%Q; label := None |};
               {| x := 100%Q; y := (1 # 10)%Q; label := None |} ] 1
             {| x := 50%Q; y := (1 # 10)%Q; label := None |}
             {| x := 100%Q; y := (1 # 10)%Q; label := None |} 50%Q 75%Q);
      try reflexivity; vm_compute; discriminate.
  - apply (proj1 (proj2 C8_getYAtX_between_neighbours) shelf (of_Z 75) 1
             {| x := of_Z 50; y := decimal 1 1; label := None |}
             {| x := of_Z 100; y := decimal 1 1; label := None |});
      vm_compute; reflexivity.
  - destruct (proj1 (proj2 (proj2 C8_getYAtX_between_neighbours)) tent 0
                (pointAt 0 0) (pointAt 50 100) (of_Z 0) (of_Z 50))
      as (v1 & v2 & E1 & E2 & H).
    + unfold sound, number64, valid. sound_points.
    + reflexivity.
    + reflexivity.
    + reflexivity.
    + split; vm_compute; reflexivity.
    + split; vm_compute; reflexivity.
    + vm_compute; reflexivity.
    + vm_compute; reflexivity.
    + vm_compute; reflexivity.
    + right. reflexivity.
    + right. vm_compute. reflexivity.
    + exists v1, v2. split; [exact E1|]. split; [exact E2|].
      intros N1 N2. apply (H N1 N2). vm_compute. reflexivity.
  - apply (proj2 (proj2 (proj2 C8_getYAtX_between_neighbours)) tent 0
             (pointAt 0 0) (pointAt 50 100) (of_Z 10)).
    + unfold sound, number64, valid. sound_points.
    + reflexivity.
    + reflexivity.
    + reflexivity.
    + split; vm_compute; reflexivity.
    + vm_compute; reflexivity.
    + vm_compute; reflexivity.
    + left. vm_compute. reflexivity.
    + vm_compute; reflexivity.
    + vm_compute; reflexivity.
Defined.

(** C9: getLabelAtX raises no error and returns '' for no series, '' for a
    primary series without data, and the last point's label, '' standing
    for a missing one, when no segment of the primary series brackets
    targetX, as is the case right of the last point of a series strictly
    ascending by x; past the points x = 0 and x = 100 labelled left and
    right the label at 500 is the right one, and '' when the points have no
    labels. *)
Theorem C9_getLabelAtX_defaults :
  (forall targetX : spec_float,
      getLabelAtX (@nil (ChartLine spec_float)) targetX = Some EmptyString) /\
  (forall (lines : list (ChartLine spec_float)) (l : ChartLine spec_float)
          (targetX : spec_float),
      primaryLine lines = Some l -> data l = [] ->
      getLabelAtX lines targetX = Some EmptyString) /\
  (forall (lines : list (ChartLine spec_float)) (l : ChartLine spec_float)
          (targetX : spec_float) (pl : point),
      primaryLine lines = Some l ->
      lookup (data l) (len (data l) - 1) = Some pl ->
      bracketed (data l) targetX = false ->
      (forall s, label pl = Some s -> getLabelAtX lines targetX = Some s) /\
      (label pl = None -> getLabelAtX lines targetX = Some EmptyString)) /\
  (forall (lines : list (ChartLine spec_float)) (l : ChartLine spec_float)
          (targetX : spec_float) (pl : point),
      primaryLine lines = Some l ->
      ascending (data l) = true ->
      lookup (data l) (len (data l) - 1) = Some pl ->
      SFltb (x pl) targetX = true ->
      bracketed (data l) targetX = false /\
      (forall s, label pl = Some s -> getLabelAtX lines targetX = Some s) /\
      (label pl = None -> getLabelAtX lines targetX = Some EmptyString)) /\
  getLabelAtX span (of_Z 500) = Some "right"%string /\
  getLabelAtX marked (of_Z 500) = Some "right"%string /\
  getLabelAtX bare (of_Z 500) = Some EmptyString.
Proof.
  split; [reflexivity|].
  split.
  { intros lines l targetX Hl Hd. apply (getLabelAtX_no_data lines l); trivial. }
  assert (Hbeyond : forall (lines : list (ChartLine spec_float))
                      (l : ChartLine spec_float) (targetX : spec_float) (pl : point),
             primaryLine lines = Some l ->
             lookup (data l) (len (data l) - 1) = Some pl ->
             (forall j, brackets (data l) targetX j = false) ->
             (forall s, label pl = Some s -> getLabelAtX lines targetX = Some s) /\
             (label pl = None -> getLabelAtX lines targetX = Some EmptyString)).
  { intros lines l targetX pl Hl El Hnone. apply label_cases.
    rewrite (getLabelAtX_beyond lines l targetX Hl Hnone), El. reflexivity. }
  split.
  { intros lines l targetX pl Hl El Hnone.
    apply (Hbeyond lines l targetX pl Hl El), bracketed_false, Hnone. }
  split; [|repeat split; vm_compute; reflexivity].
  intros lines l targetX pl Hl Hasc El Hlt.
  pose proof (brackets_right (data l) targetX pl Hasc El Hlt) as Hnone.
  split; [apply bracketed_none, Hnone|].
  apply (Hbeyond lines l targetX pl Hl El Hnone).
Qed.

(** C9 at a series without data and at targetX = 500 past the points
    x = 0 and x = 100. *)
Lemma C9_witness :
  getLabelAtX [seriesOf "bare" None []] (of_Z 50) = Some EmptyString /\
  getLabelAtX span (of_Z 500) = Some "right"%string /\
  getLabelAtX marked (of_Z 500) = Some "right"%string.
Proof.
  split; [|split].
  - apply (proj1 (proj2 C9_getLabelAtX_defaults)
             [seriesOf "bare" None []] (seriesOf "bare" None [])); reflexivity.
  - refine (proj1 (proj1 (proj2 (proj2 C9_getLabelAtX_defaults)) span
                     (seriesOf "span" None [labelled 0 "left"; labelled 100 "right"])
                     (of_Z 500) (labelled 100 "right") _ _ _) "right"%string _);
      vm_compute; reflexivity.
  - refine (proj1 (proj2 (proj1 (proj2 (proj2 (proj2 C9_getLabelAtX_defaults))) marked
                     (seriesOf "main" (Some true)
                        [labelled 0 "left"; labelled 100 "right"])
                     (of_Z 500) (labelled 100 "right") _ _ _ _)) "right"%string _);
      vm_compute; reflexivity.
Defined.

(** C10, as stated, fails where a difference overflows: between the
    samples at the lowest and the largest number the denominator is
    +Infinity, greater than 0, and for the target 2^1023 the numerator is
    +Infinity as well, so that t and the value returned are NaN. *)
Lemma C10_counterexample :
  Forall sound steep /\
  ascending steep = true /\
  number64 far /\
  SFltb lowest far = true /\
  SFltb far largest = true /\
  fsub largest lowest = S754_infinity false /\
  SFltb (of_Z 0) (fsub largest lowest) = true /\
  fsub far lowest = S754_infinity false /\
  getYAtX steep far = Some S754_nan.
Proof.
  split; [unfold sound, number64, valid; repeat constructor; vm_compute; reflexivity|].
  repeat split; vm_compute; reflexivity.
Qed.

(** C10 (amended): for points that are binary64 numbers with strictly
    ascending x, the division that getYAtX and getLabelAtX evaluate on the
    first bracketing segment (pi, pj) has the denominator pj.x - pi.x, which
    is greater than 0 and so not a zero; both functions return a value for
    every input, raising no error; and the value of getYAtX is not NaN when
    the coordinates and targetX are finite and neither targetX - pi.x nor
    pj.y - pi.y overflows. *)
Theorem C10_denominators_positive_no_error :
  (forall (points : list point) (targetX : spec_float) (p0 pl : point) (i : Z)
          (pi pj : point),
      Forall (fun p => valid (x p)) points ->
      ascending points = true ->
      lookup points 0 = Some p0 ->
      lookup points (len points - 1) = Some pl ->
      SFleb targetX (x p0) = false ->
      fgeb targetX (x pl) = false ->
      lookup points i = Some pi ->
      lookup points (i + 1) = Some pj ->
      firstBracket points targetX i ->
      SFltb (of_Z 0) (fsub (x pj) (x pi)) = true /\
      (forall s : bool, fsub (x pj) (x pi) <> S754_zero s) /\
      getYAtX points targetX =
      Some (fadd (y pi)
              (fmul (fdiv (fsub targetX (x pi)) (fsub (x pj) (x pi)))
                    (fsub (y pj) (y pi))))) /\
  (forall (lines : list (ChartLine spec_float)) (l : ChartLine spec_float)
          (targetX : spec_float) (i : Z) (pi pj : point),
      primaryLine lines = Some l ->
      Forall (fun p => valid (x p)) (data l) ->
      ascending (data l) = true ->
      lookup (data l) i = Some pi ->
      lookup (data l) (i + 1) = Some pj ->
      firstBracket (data l) targetX i ->
      let p := if SFltb (fdiv (fsub targetX (x pi)) (fsub (x pj) (x pi)))
                        (decimal 5 1)
               then pi else pj in
      SFltb (of_Z 0) (fsub (x pj) (x pi)) = true /\
      (forall s : bool, fsub (x pj) (x pi) <> S754_zero s) /\
      (forall s, label p = Some s -> getLabelAtX lines targetX = Some s) /\
      (label p = None -> getLabelAtX lines targetX = Some EmptyString)) /\
  (forall (points : list point) (targetX : spec_float),
      exists v : spec_float, getYAtX points targetX = Some v) /\
  (forall (lines : list (ChartLine spec_float)) (targetX : spec_float),
      exists s : string, getLabelAtX lines targetX = Some s) /\
  (forall (points : list point) (targetX : spec_float) (p0 pl : point) (i : Z)
          (pi pj : point),
      Forall sound points ->
      ascending points = true ->
      number64 targetX ->
      lookup points 0 = Some p0 ->
      lookup points (len points - 1) = Some pl ->
      SFleb targetX (x p0) = false ->
      fgeb targetX (x pl) = false ->
      lookup points i = Some pi ->
      lookup points (i + 1) = Some pj ->
      firstBracket points targetX i ->
      finite (fsub targetX (x pi)) = true ->
      finite (fsub (y pj) (y pi)) = true ->
      exists v : spec_float,
        getYAtX points targetX = Some v /\ is_nan v = false).
Proof.
  assert (Hden : forall (points : list point) (i : Z) (pi pj : point),
             Forall (fun p => valid (x p)) points ->
             ascending points = true ->
             lookup points i = Some pi -> lookup points (i + 1) = Some pj ->
             SFltb (of_Z 0) (fsub (x pj) (x pi)) = true /\
             forall s : bool, fsub (x pj) (x pi) <> S754_zero s).
  { intros points i pi pj Hvalid Hasc Ei Ej.
    assert (Hpos : SFltb (of_Z 0) (fsub (x pj) (x pi)) = true).
    { apply Binary64Sub.fsub_positive.
      - apply (lookup_Forall _ points i pi Hvalid Ei).
      - apply (lookup_Forall _ points (i + 1) pj Hvalid Ej).
      - apply (ascending_adjacent points i pi pj Hasc Ei Ej). }
    split; [exact Hpos|].
    intros s Hzero. rewrite Hzero in Hpos. discriminate Hpos. }
  split.
  { intros points targetX p0 pl i pi pj Hvalid Hasc E0 El Hle Hge Ei Ej Hfirst.
    destruct (Hden points i pi pj Hvalid Hasc Ei Ej) as [Hpos Hnz].
    split; [exact Hpos|]. split; [exact Hnz|].
    rewrite (getYAtX_segment points targetX p0 pl i pi pj); trivial. }
  split.
  { intros lines l targetX i pi pj Hl Hvalid Hasc Ei Ej Hfirst p.
    destruct (Hden (data l) i pi pj Hvalid Hasc Ei Ej) as [Hpos Hnz].
    split; [exact Hpos|]. split; [exact Hnz|].
    apply label_cases.
    rewrite (getLabelAtX_segment lines l targetX i pi pj Hl Ei Ej Hfirst).
    reflexivity. }
  split; [exact getYAtX_total|].
  split; [exact getLabelAtX_total|].
  intros points targetX p0 pl i pi pj Hall Hasc Nq E0 El Hle Hge Ei Ej Hfirst Fn Fdy.
  destruct (lookup_Forall _ points i pi Hall Ei) as [Nxi Nyi].
  destruct (lookup_Forall _ points (i + 1) pj Hall Ej) as [Nxj Nyj].
  exists (interpolate pi pj targetX). split.
  - apply (getYAtX_segment points targetX p0 pl i pi pj); trivial.
  - assert (Hi : SFltb (x pi) targetX = true).
    { apply (Binary64Round.first_bracket_strict points targetX p0 pi i); trivial. }
    assert (Hj : SFleb targetX (x pj) = true).
    { destruct Hfirst as [Hb _]. unfold brackets in Hb.
      change point with (DataPoint spec_float) in *. rewrite Ei, Ej in Hb.
      apply andb_true_iff in Hb as [_ H]. exact H. }
    apply (Binary64Round.interpolate_notnan pi pj targetX); trivial.
Qed.

(** C10 (amended) on the series (0,0), (50,100), (100,0) at targetX = 25
    and on the labelled points at x = 0 and x = 100 at targetX = 49.9. *)
Lemma C10_witness :
  (SFltb (of_Z 0) (fsub (of_Z 50) (of_Z 0)) = true /\
   getYAtX tent (of_Z 25) =
   Some (fadd (of_Z 0)
           (fmul (fdiv (fsub (of_Z 25) (of_Z 0)) (fsub (of_Z 50) (of_Z 0)))
                 (fsub (of_Z 100) (of_Z 0))))) /\
  (SFltb (of_Z 0) (fsub (of_Z 100) (of_Z 0)) = true /\
   getLabelAtX span (decimal 499 1) = Some "left"%string) /\
  (exists v : spec_float, getYAtX tent (of_Z 25) = Some v /\ is_nan v = false).
Proof.
  split; [|split].
  - destruct (proj1 C10_denominators_positive_no_error tent (of_Z 25)
                (pointAt 0 0) (pointAt 100 0) 0 (pointAt 0 0) (pointAt 50 100))
      as (Hpos & _ & E); try (vm_compute; reflexivity).
    + repeat constructor.
    + split; [vm_compute; reflexivity | intros k Hk; lia].
    + split; [exact Hpos|exact E].
  - destruct (proj1 (proj2 C10_denominators_positive_no_error) span
                (seriesOf "span" None [labelled 0 "left"; labelled 100 "right"])
                (decimal 499 1) 0 (labelled 0 "left") (labelled 100 "right"))
      as (Hpos & _ & Hsome & _); try (vm_compute; reflexivity).
    + repeat constructor.
    + split; [vm_compute; reflexivity | intros k Hk; lia].
    + split; [exact Hpos|]. apply Hsome. vm_compute. reflexivity.
  - apply (proj2 (proj2 (proj2 (proj2 C10_denominators_positive_no_error)))
             tent (of_Z 25) (pointAt 0 0) (pointAt 100 0) 0
             (pointAt 0 0) (pointAt 50 100)); try (vm_compute; reflexivity).
    + unfold sound, number64, valid. repeat constructor; vm_compute; reflexivity.
    + split; vm_compute; reflexivity.
    + split; [vm_compute; reflexivity | intros k Hk; lia].
Defined.

(** * Further properties of the chart code *)

(** ** A target that compares with nothing, a single point, a target left
    of the points *)

Section Targets.
Context {number : Type} {arith : Arith number} {laws : OrderLaws number}.
Implicit Types (points : list (DataPoint number)) (targetX : number).

Lemma brackets_incomparable points targetX :
  (forall a, geb targetX a = false) ->
  forall j, brackets points targetX j = false.
Proof.
  intros Hge j. unfold brackets.
  destruct (lookup points j) as [pj|]; [|reflexivity].
  destruct (lookup points (j + 1)) as [pk|]; [|reflexivity].
  rewrite Hge. reflexivity.
Qed.

Lemma getYAtX_no_bracket points targetX p0 pl :
  lookup points 0 = Some p0 -> leb targetX (x p0) = false ->
  lookup points (len points - 1) = Some pl -> geb targetX (x pl) = false ->
  (forall j, brackets points targetX j = false) ->
  getYAtX points targetX = Some (y pl).
Proof.
  intros E0 Hle El Hge Hnone.
  rewrite (getYAtX_inside _ _ _ _ E0 Hle El Hge), getYAtX_loop_scan.
  pose proof (lookup_range _ _ _ El).
  rewrite scan_miss; try lia; [rewrite El; reflexivity|].
  intros j _. apply Hnone.
Qed.

Lemma getYAtX_incomparable points targetX pl :
  (forall a, leb targetX a = false) -> (forall a, geb targetX a = false) ->
  lookup points (len points - 1) = Some pl ->
  getYAtX points targetX = Some (y pl).
Proof.
  intros Hle Hge El. pose proof (lookup_range _ _ _ El).
  destruct (lookup_defined points 0) as [p0 E0]; [lia|].
  apply getYAtX_no_bracket with (p0 := p0); trivial.
  apply brackets_incomparable, Hge.
Qed.

Lemma getYAtX_single (p : DataPoint number) targetX :
  getYAtX [p] targetX = Some (y p).
Proof.
  unfold getYAtX. cbn.
  destruct (leb targetX (x p)); [reflexivity|].
  destruct (geb targetX (x p)); reflexivity.
Qed.

Lemma getLabelAtX_single (lines : list (ChartLine number)) (l : ChartLine number)
    (p : DataPoint number) targetX :
  primaryLine lines = Some l -> data l = [p] ->
  getLabelAtX lines targetX = Some (orEmpty (label p)).
Proof. unfold getLabelAtX. intros -> ->. reflexivity. Qed.

(** Left of the first point of an ascending sequence no segment
    brackets. *)
Lemma brackets_left points targetX p0 :
  ascending points = true ->
  lookup points 0 = Some p0 -> ltb targetX (x p0) = true ->
  forall j, brackets points targetX j = false.
Proof.
  intros Hasc E0 Hlt j. unfold brackets.
  destruct (lookup points j) as [pj|] eqn:Ej; [|reflexivity].
  destruct (lookup points (j + 1)) as [pk|]; [|reflexivity].
  assert (Hj : ltb targetX (x pj) = true).
  { pose proof (lookup_range _ _ _ Ej).
    destruct (Z.eq_dec j 0) as [->|Hne].
    - assert (p0 = pj) as -> by congruence. exact Hlt.
    - apply ltb_trans with (x p0); trivial.
      apply (ascending_lt_index points 0 j); trivial. lia. }
  rewrite geb_leb, (ltb_not_leb _ _ Hj). reflexivity.
Qed.

(** The value under the pointer is the result of getYAtX. *)
Lemma getYAtX_valueAt points targetX :
  getYAtX points targetX = Some (valueAt points targetX).
Proof.
  unfold valueAt. destruct (getYAtX_total points targetX) as [v ->]. reflexivity.
Qed.

Lemma markerOf_markerAt (chartHeight hoverX : number) (pl : ProcessedLine number) :
  markerOf chartHeight hoverX pl = Some (markerAt chartHeight hoverX pl).
Proof. unfold markerOf. rewrite getYAtX_valueAt. reflexivity. Qed.

Lemma hoverMarkers_spec (lines : list (ChartLine number)) (chartHeight hoverX : number) :
  hoverMarkers lines chartHeight (Some hoverX) =
  Some (map (markerAt chartHeight hoverX) (processedLines lines)).
Proof. cbn [hoverMarkers]. apply mapM_total, markerOf_markerAt. Qed.

Lemma markers_keys (lines : list (ChartLine number)) (chartHeight hoverX : number) :
  map markerKey (map (markerAt chartHeight hoverX) (processedLines lines)) =
  map id lines.
Proof.
  rewrite map_map. cbn [markerAt markerKey].
  rewrite <- (map_map line id). unfold processedLines.
  rewrite mapIndexed_line. reflexivity.
Qed.

Lemma markers_lines (P : Marker number -> ChartLine number -> Prop)
    (lines : list (ChartLine number)) (chartHeight hoverX : number) :
  (forall pl, P (markerAt chartHeight hoverX pl) (line pl)) ->
  Forall2 P (map (markerAt chartHeight hoverX) (processedLines lines)) lines.
Proof.
  intros HP. replace lines with (map line (processedLines lines)) at 2.
  - apply Forall2_map_both, HP.
  - unfold processedLines. apply mapIndexed_line.
Qed.

Lemma lookup_last_split {A : Type} (l : list A) (a : A) :
  lookup l (len l - 1) = Some a -> exists l', l = l' ++ [a].
Proof.
  destruct (rev l) as [|b r] eqn:Er.
  - apply (f_equal (@rev A)) in Er. rewrite rev_involutive in Er. cbn in Er.
    subst l. rewrite lookup_nil. discriminate.
  - apply (f_equal (@rev A)) in Er. rewrite rev_involutive in Er. cbn in Er.
    subst l. rewrite lookup_last_app. intros [= ->]. eauto.
Qed.

End Targets.

(** ** generateTimeSeriesData, point by point *)

Module Generator.
Import Binary64 Binary64Order Binary64Clamp.




(** The x of the generated points. *)
Lemma generateTimeSeriesData_loop_x (days : Z) (trend volatility : spec_float)
    (random : nat -> spec_float) (iters : nat) :
  forall (i : Z) (current : spec_float) (points : list point),
    map x (generateTimeSeriesData_loop days trend volatility random iters i
             current points) =
    map x points ++
    map (fun n => fmul (fdiv (of_Z (i + Z.of_nat n)) (of_Z days)) (of_Z 100))
        (seq 0 iters).
Proof.
  induction iters as [|n IH]; intros i current points.
  - cbn. rewrite app_nil_r. reflexivity.
  - cbn [generateTimeSeriesData_loop]. rewrite IH, map_app, <- app_assoc.
    f_equal. cbn [map app seq x]. rewrite Z.add_0_r. f_equal.
    rewrite <- seq_shift, map_map. apply map_ext. intros m.
    do 3 f_equal. lia.
Qed.

Lemma generateTimeSeriesData_x (days : Z) (startValue endValue : spec_float)
    (volatility : option spec_float) (random : nat -> spec_float) :
  map x (generateTimeSeriesData days startValue endValue volatility random) =
  dayPositions days.
Proof.
  unfold generateTimeSeriesData, dayPositions.
  rewrite generateTimeSeriesData_loop_x. cbn [map app]. reflexivity.
Qed.

Lemma ascending_increasing (points : list point) :
  ascending points = increasing (map x points).
Proof.
  induction points as [|p [|p' rest] IH]; try reflexivity.
  cbn [ascending map increasing] in *. rewrite IH. reflexivity.
Qed.

(** The positions for 1 to 366 days, computed. *)
Lemma dayPositions_increasing :
  forallb (fun d => increasing (dayPositions (Z.of_nat d))) (seq 1 366) = true.
Proof. vm_compute. reflexivity. Qed.

End Generator.

(** ** The properties *)

Import Binary64Clamp Binary64Finite Generator.

(** X1: for finite pointer and rectangle coordinates and a finite width
    that is not zero, handleMouseMove sets hoverX to a number between 0 and
    100, never to NaN. *)
Theorem X1_handleMouseMove_between_0_and_100 :
  forall (clientX left : spec_float) (s : bool) (m : positive) (e : Z),
    finite clientX = true ->
    finite left = true ->
    exists h : spec_float,
      handleMouseMove clientX left (S754_finite s m e) = Some h /\
      is_nan h = false /\
      SFleb (of_Z 0) h = true /\
      SFleb h (of_Z 100) = true.
Proof.
  intros clientX left s m e Hc Hl. eexists. split; [reflexivity|].
  apply clamp_range; [reflexivity|].
  assert (H100 : of_Z 100 = S754_finite false 7036874417766400 (-46))
    by (vm_compute; reflexivity).
  rewrite H100. apply fmul_notnan, fdiv_notnan, fsub_notnan; trivial.
  destruct left; try discriminate; reflexivity.
Qed.

(** X1 for the pointer at 150 over a chart from 100 of width 200. *)
Lemma X1_witness :
  exists h : spec_float,
    handleMouseMove (of_Z 150) (of_Z 100) (S754_finite false 7036874417766400 (-45))
    = Some h /\
    is_nan h = false /\ SFleb (of_Z 0) h = true /\ SFleb h (of_Z 100) = true.
Proof.
  apply (X1_handleMouseMove_between_0_and_100 (of_Z 150) (of_Z 100));
    vm_compute; reflexivity.
Defined.

(** X2: over a chart of width zero (either zero) with the pointer at its
    left edge, handleMouseMove sets hoverX to NaN: the quotient is 0 / 0 and
    neither Math.min nor Math.max removes it. *)
Theorem X2_handleMouseMove_zero_width :
  forall (left : spec_float) (s : bool),
    finite left = true ->
    handleMouseMove left left (S754_zero s) = Some S754_nan.
Proof.
  intros left s Hl. unfold handleMouseMove.
  destruct (fsub_self left Hl) as [s' ->].
  destruct s, s'; reflexivity.
Qed.

(** X2 for a chart whose left edge is at 100. *)
Lemma X2_witness : handleMouseMove (of_Z 100) (of_Z 100) (of_Z 0) = Some S754_nan.
Proof. apply (X2_handleMouseMove_zero_width (of_Z 100) false). reflexivity. Defined.

Lemma SFleb_antisym (a b : spec_float) :
  SFleb a b = true -> SFleb b a = true -> SFcompare a b = Some Eq.
Proof.
  unfold SFleb. rewrite (SFcompare_antisym a b).
  destruct (SFcompare a b) as [[ | | ]|]; cbn; congruence.
Qed.

(** X3: the tooltip's left, Math.min(80, Math.max(10, hoverX)), is between
    10 and 80 for every hoverX that is a number; it is 10 for hoverX at or
    below 10, 80 for hoverX at or above 80, and hoverX itself in between;
    it is NaN for NaN. *)
Theorem X3_tooltipLeft_pinned :
  (forall h : spec_float,
      is_nan h = false ->
      SFleb (of_Z 10) (tooltipLeft h) = true /\
      SFleb (tooltipLeft h) (of_Z 80) = true) /\
  (forall h : spec_float, SFleb h (of_Z 10) = true -> tooltipLeft h = of_Z 10) /\
  (forall h : spec_float, SFleb (of_Z 80) h = true -> tooltipLeft h = of_Z 80) /\
  (forall h : spec_float,
      SFleb (of_Z 10) h = true -> SFleb h (of_Z 80) = true -> tooltipLeft h = h) /\
  tooltipLeft S754_nan = S754_nan.
Proof.
  split; [|split; [|split; [|split; [|reflexivity]]]].
  - intros h Hh. apply (pin_range (of_Z 10) (of_Z 80) h); [reflexivity|exact Hh].
  - intros h Hle. destruct (SFleb_notnan _ _ Hle) as [Hh _]. unfold tooltipLeft.
    destruct (max_cases (of_Z 10) h eq_refl Hh) as [[-> _]|[Hm Hge]].
    + reflexivity.
    + destruct (SFcompare_Eq _ _ (SFleb_antisym _ _ Hle Hge)) as [->|(s & s' & _ & E)];
        [reflexivity|discriminate E].
  - intros h Hge. destruct (SFleb_notnan _ _ Hge) as [_ Hh]. unfold tooltipLeft.
    assert (H10 : SFleb (of_Z 10) h = true).
    { apply SFleb_trans with (of_Z 80); [reflexivity|exact Hge]. }
    assert (Hmax : Binary64.max (of_Z 10) h = h).
    { destruct (max_cases (of_Z 10) h eq_refl Hh) as [[Hm Hle]|[Hm _]]; trivial.
      destruct (SFcompare_Eq _ _ (SFleb_antisym _ _ H10 Hle)) as [<-|(s & s' & E & _)];
        [reflexivity|discriminate E]. }
    rewrite Hmax.
    destruct (min_cases (of_Z 80) h eq_refl Hh) as [[Hm _]|[Hm Hle]]; trivial.
    rewrite Hm.
    destruct (SFcompare_Eq _ _ (SFleb_antisym _ _ Hge Hle)) as [<-|(s & s' & E & _)];
      [reflexivity|discriminate E].
  - intros h H10 H80. destruct (SFleb_notnan _ _ H10) as [_ Hh]. unfold tooltipLeft.
    assert (Hmax : Binary64.max (of_Z 10) h = h).
    { destruct (max_cases (of_Z 10) h eq_refl Hh) as [[Hm Hle]|[Hm _]]; trivial.
      destruct (SFcompare_Eq _ _ (SFleb_antisym _ _ H10 Hle)) as [<-|(s & s' & E & _)];
        [reflexivity|discriminate E]. }
    rewrite Hmax.
    destruct (min_cases (of_Z 80) h eq_refl Hh) as [[Hm Hle]|[Hm _]]; trivial.
    rewrite Hm.
    destruct (SFcompare_Eq _ _ (SFleb_antisym _ _ Hle H80)) as [->|(s & s' & E & _)];
      [reflexivity|discriminate E].
Qed.

(** X3 at hoverX = 5, 95 and 50. *)
Lemma X3_witness :
  tooltipLeft (of_Z 5) = of_Z 10 /\
  tooltipLeft (of_Z 95) = of_Z 80 /\
  tooltipLeft (of_Z 50) = of_Z 50 /\
  SFleb (of_Z 10) (tooltipLeft (of_Z 50)) = true.
Proof.
  split; [|split; [|split]].
  - apply (proj1 (proj2 X3_tooltipLeft_pinned)). reflexivity.
  - apply (proj1 (proj2 (proj2 X3_tooltipLeft_pinned))). reflexivity.
  - apply (proj1 (proj2 (proj2 (proj2 X3_tooltipLeft_pinned)))); reflexivity.
  - apply (proj1 X3_tooltipLeft_pinned). reflexivity.
Defined.

(** X4: for the target NaN, which compares with nothing, getYAtX returns
    the last point's y of every non-empty sequence and getLabelAtX the
    last point's label of the primary series, '' standing for a missing
    label. *)
Theorem X4_nan_target_reads_last_point :
  (forall (points : list point) (pl : point),
      lookup points (len points - 1) = Some pl ->
      getYAtX points S754_nan = Some (y pl)) /\
  (forall (lines : list (ChartLine spec_float)) (l : ChartLine spec_float)
          (pl : point),
      primaryLine lines = Some l ->
      lookup (data l) (len (data l) - 1) = Some pl ->
      (forall s, label pl = Some s -> getLabelAtX lines S754_nan = Some s) /\
      (label pl = None -> getLabelAtX lines S754_nan = Some EmptyString)).
Proof.
  split.
  - intros points pl El. apply getYAtX_incomparable; trivial.
  - intros lines l pl Hl El. apply label_cases.
    rewrite (getLabelAtX_beyond lines l S754_nan Hl), El; [reflexivity|].
    apply brackets_incomparable. reflexivity.
Qed.

(** X4 on the points at x = 20, 60, 100 with the values 7, 8, 9 and the
    labels first, middle, last. *)
Lemma X4_witness :
  getYAtX [ {| x := of_Z 20; y := of_Z 7; label := Some "first"%string |};
            {| x := of_Z 60; y := of_Z 8; label := Some "middle"%string |};
            {| x := of_Z 100; y := of_Z 9; label := Some "last"%string |} ] S754_nan
  = Some (of_Z 9) /\
  getLabelAtX late S754_nan = Some "last"%string.
Proof.
  split.
  - apply (proj1 X4_nan_target_reads_last_point _
             {| x := of_Z 100; y := of_Z 9; label := Some "last"%string |}).
    reflexivity.
  - refine (proj1 (proj2 X4_nan_target_reads_last_point late
                     (seriesOf "late" None
                        [ {| x := of_Z 20; y := of_Z 7; label := Some "first"%string |};
                          {| x := of_Z 60; y := of_Z 8; label := Some "middle"%string |};
                          {| x := of_Z 100; y := of_Z 9; label := Some "last"%string |} ])
                     {| x := of_Z 100; y := of_Z 9; label := Some "last"%string |} _ _)
              "last"%string _); reflexivity.
Defined.

(** X5: for a series of a single point getYAtX returns that point's y and
    getLabelAtX that point's label, '' standing for a missing label,
    whatever the target is. *)
Theorem X5_single_point_series :
  (forall (p : point) (targetX : spec_float), getYAtX [p] targetX = Some (y p)) /\
  (forall (lines : list (ChartLine spec_float)) (l : ChartLine spec_float)
          (p : point) (targetX : spec_float),
      primaryLine lines = Some l -> data l = [p] ->
      (forall s, label p = Some s -> getLabelAtX lines targetX = Some s) /\
      (label p = None -> getLabelAtX lines targetX = Some EmptyString)).
Proof.
  split.
  - intros p targetX. apply getYAtX_single.
  - intros lines l p targetX Hl Hd. apply label_cases.
    apply (getLabelAtX_single lines l); trivial.
Qed.

(** X5 for the point (40, 7) labelled only and the target 500. *)
Lemma X5_witness :
  getYAtX [ {| x := of_Z 40; y := of_Z 7; label := Some "only"%string |} ] (of_Z 500)
  = Some (of_Z 7) /\
  getLabelAtX [seriesOf "one" None
                 [ {| x := of_Z 40; y := of_Z 7; label := Some "only"%string |} ]]
    (of_Z 500) = Some "only"%string.
Proof.
  split.
  - apply (proj1 X5_single_point_series).
  - refine (proj1 (proj2 X5_single_point_series _
                     (seriesOf "one" None
                        [ {| x := of_Z 40; y := of_Z 7; label := Some "only"%string |} ])
                     {| x := of_Z 40; y := of_Z 7; label := Some "only"%string |}
                     (of_Z 500) _ _) "only"%string _); reflexivity.
Defined.

(** X6: for a target strictly left of the first point of a strictly
    ascending series, getYAtX returns the first point's y, but getLabelAtX,
    which has no clamp, returns the last point's label || ''. *)
Theorem X6_left_of_first_point :
  forall (lines : list (ChartLine spec_float)) (l : ChartLine spec_float)
         (targetX : spec_float) (p0 pl : point),
    primaryLine lines = Some l ->
    ascending (data l) = true ->
    lookup (data l) 0 = Some p0 ->
    lookup (data l) (len (data l) - 1) = Some pl ->
    SFltb targetX (x p0) = true ->
    getYAtX (data l) targetX = Some (y p0) /\
    getLabelAtX lines targetX = Some (orEmpty (label pl)).
Proof.
  intros lines l targetX p0 pl Hl Hasc E0 El Hlt. split.
  - apply getYAtX_clamp_left with (p0 := p0); trivial. apply ltb_leb, Hlt.
  - rewrite (getLabelAtX_beyond lines l targetX Hl), El; [reflexivity|].
    apply brackets_left with (p0 := p0); trivial.
Qed.

(** X6 for points at x = 20, 60, 100 and the target 5. *)
Lemma X6_witness :
  getYAtX [ {| x := of_Z 20; y := of_Z 7; label := Some "first"%string |};
            {| x := of_Z 60; y := of_Z 8; label := Some "middle"%string |};
            {| x := of_Z 100; y := of_Z 9; label := Some "last"%string |} ] (of_Z 5)
  = Some (of_Z 7) /\
  getLabelAtX late (of_Z 5) = Some "last"%string.
Proof.
  apply (X6_left_of_first_point late
           (seriesOf "late" None
              [ {| x := of_Z 20; y := of_Z 7; label := Some "first"%string |};
                {| x := of_Z 60; y := of_Z 8; label := Some "middle"%string |};
                {| x := of_Z 100; y := of_Z 9; label := Some "last"%string |} ])
           (of_Z 5)
           {| x := of_Z 20; y := of_Z 7; label := Some "first"%string |}
           {| x := of_Z 100; y := of_Z 9; label := Some "last"%string |});
    vm_compute; reflexivity.
Defined.

(** X7: under the pointer MetricsChart emits one marker per series, in
    collection order, all at the abscissa of the crosshair, and raises no
    error; the paths are emitted in the reverse of that order; without a
    hover position no marker is emitted. *)
Theorem X7_markers_in_collection_order :
  forall (lines : list (ChartLine spec_float)) (chartHeight hoverX : spec_float),
    hoverMarkers lines chartHeight None = Some [] /\
    exists ms : list (Marker spec_float),
      hoverMarkers lines chartHeight (Some hoverX) = Some ms /\
      map markerKey ms = map id lines /\
      Forall (fun mk => cx mk = fmul (fdiv hoverX (of_Z 100)) (of_Z 280)) ms /\
      forall els : list (PathElement spec_float),
        seriesPaths lines chartHeight = Some els ->
        map key els = rev (map markerKey ms).
Proof.
  intros lines chartHeight hoverX. split; [reflexivity|].
  exists (map (markerAt chartHeight hoverX) (processedLines lines)).
  split; [apply hoverMarkers_spec|].
  split; [apply markers_keys|].
  split.
  - apply Forall_map, Forall_forall. intros pl _. reflexivity.
  - intros els Hels. rewrite seriesPaths_spec in Hels. injection Hels as <-.
    rewrite seriesPaths_keys, markers_keys. reflexivity.
Qed.

(** X7 for the series "open" and "closed". *)
Lemma X7_witness :
  exists ms : list (Marker spec_float),
    hoverMarkers pair (of_Z 75) (Some (of_Z 25)) = Some ms /\
    map markerKey ms = ["open"%string; "closed"%string] /\
    option_map (map key) (seriesPaths pair (of_Z 75)) = Some (rev (map markerKey ms)).
Proof.
  destruct (X7_markers_in_collection_order pair (of_Z 75) (of_Z 25))
    as (_ & ms & Ems & Hkeys & _ & Hpaths).
  exists ms. split; [exact Ems|]. split; [exact Hkeys|].
  destruct (seriesPaths pair (of_Z 75)) as [els|] eqn:Eels; [|discriminate].
  cbn [option_map]. f_equal. apply Hpaths. reflexivity.
Defined.

(** X8: a marker has radius 3.5 and stroke width 1.5 when isPrimary of its
    own series is true, else 2.5 and 1; so when no series has it, the
    first series is the primary one for getLabelAtX while every marker has
    radius 2.5. *)
Theorem X8_marker_emphasis_only_when_flagged :
  forall (lines : list (ChartLine spec_float)) (chartHeight hoverX : spec_float)
         (ms : list (Marker spec_float)),
    hoverMarkers lines chartHeight (Some hoverX) = Some ms ->
    Forall2 (fun mk l =>
               (isPrimary l = Some true ->
                radius mk = decimal 35 1 /\ markerStroke mk = decimal 15 1) /\
               (isPrimary l <> Some true ->
                radius mk = decimal 25 1 /\ markerStroke mk = of_Z 1))
            ms lines /\
    ((forall l, In l lines -> isPrimary l <> Some true) ->
     primaryLine lines = lookup lines 0 /\
     Forall (fun mk => radius mk = decimal 25 1 /\ markerStroke mk = of_Z 1) ms).
Proof.
  intros lines chartHeight hoverX ms Hms.
  rewrite hoverMarkers_spec in Hms. injection Hms as <-.
  assert (H2 : Forall2 (fun mk l =>
               (isPrimary l = Some true ->
                radius mk = decimal 35 1 /\ markerStroke mk = decimal 15 1) /\
               (isPrimary l <> Some true ->
                radius mk = decimal 25 1 /\ markerStroke mk = of_Z 1))
            (map (markerAt chartHeight hoverX) (processedLines lines)) lines).
  { apply markers_lines. intros pl. cbn [markerAt radius markerStroke].
    split; [intros Hp%flagged_isPrimary|intros Hp%unflagged_isPrimary];
      rewrite Hp; split; reflexivity. }
  split; [exact H2|].
  intros Hnone. split; [apply primaryLine_none_flagged, Hnone|].
  revert H2 Hnone.
  generalize (map (markerAt chartHeight hoverX) (processedLines lines)).
  intros ms H2. induction H2 as [|mk l ms' ls' [_ Hr] _ IH]; intros Hnone;
    constructor.
  - apply Hr, Hnone. left. reflexivity.
  - apply IH. intros l' Hin. apply Hnone. right. exact Hin.
Qed.

(** X8 for the series "open" and "closed", the second one flagged. *)
Lemma X8_witness :
  exists m1 m2 : Marker spec_float,
    hoverMarkers pair (of_Z 75) (Some (of_Z 25)) = Some [m1; m2] /\
    radius m1 = decimal 25 1 /\ markerStroke m1 = of_Z 1 /\
    radius m2 = decimal 35 1 /\ markerStroke m2 = decimal 15 1.
Proof.
  destruct (hoverMarkers pair (of_Z 75) (Some (of_Z 25))) as [[|m1 [|m2 [|m3 ms]]]|]
    eqn:E; try (vm_compute in E; discriminate E).
  destruct (X8_marker_emphasis_only_when_flagged pair (of_Z 75) (of_Z 25) [m1; m2] E)
    as [H2 _].
  inversion H2 as [|? ? ? ? [_ H1] H2']; subst.
  inversion H2' as [|? ? ? ? [H3 _] _]; subst.
  exists m1, m2. split; [reflexivity|].
  destruct H1 as [Hr1 Hs1]; [discriminate|].
  destruct H3 as [Hr2 Hs2]; [reflexivity|].
  repeat split; assumption.
Defined.

(** X9: for a series of at least 2 points strictly ascending by x, the
    marker at the first point's x sits on the point where the series' path
    starts and the marker at the last point's x on the point where it
    ends. *)
Theorem X9_markers_on_path_ends :
  forall (pl : ProcessedLine spec_float) (chartHeight : spec_float)
         (p0 plast : point),
    ascending (data (line pl)) = true ->
    2 <= len (data (line pl)) ->
    lookup (data (line pl)) 0 = Some p0 ->
    lookup (data (line pl)) (len (data (line pl)) - 1) = Some plast ->
    exists (path : Path spec_float) (m0 m1 : Marker spec_float),
      generateSmoothPath (data (line pl)) (of_Z 280) chartHeight = Some path /\
      markerOf chartHeight (x p0) pl = Some m0 /\
      startPoint path = Some (cx m0, cy m0) /\
      markerOf chartHeight (x plast) pl = Some m1 /\
      endPoint path = Some (cx m1, cy m1).
Proof.
  intros pl chartHeight p0 plast Hasc Hlen E0 El.
  destruct (generateSmoothPath_long (data (line pl)) (of_Z 280) chartHeight Hlen)
    as (p & cs & Ep & Epath & Hcs & Hnth).
  assert (p = p0) as -> by congruence.
  destruct (curveAt_defined (data (line pl)) (of_Z 280) chartHeight
              (len (data (line pl)) - 2))
    as (q0 & q1 & q2 & q3 & _ & _ & E2 & _ & Ec); [lia|].
  replace (len (data (line pl)) - 2 + 1) with (len (data (line pl)) - 1) in E2 by lia.
  assert (q2 = plast) as -> by congruence.
  assert (Elast : lookup cs (len cs - 1) = Some (curveOf (of_Z 280) chartHeight q0 q1 plast q3)).
  { rewrite Hcs. replace (len (data (line pl)) - 1 - 1) with (len (data (line pl)) - 2)
      by lia. rewrite Hnth by lia. exact Ec. }
  destruct (lookup_last_split cs _ Elast) as [cs' ->].
  eexists. exists (markerAt chartHeight (x p0) pl), (markerAt chartHeight (x plast) pl).
  split; [exact Epath|].
  split; [apply markerOf_markerAt|].
  split.
  { cbn [startPoint markerAt cx cy]. unfold valueAt.
    rewrite (getYAtX_at_first (data (line pl)) p0 Hasc E0). reflexivity. }
  split; [apply markerOf_markerAt|].
  unfold endPoint. cbn [rev]. rewrite rev_app_distr. cbn [rev app].
  cbn [curveOf markerAt cx cy]. unfold valueAt.
  rewrite (getYAtX_at_last (data (line pl)) plast Hasc El). reflexivity.
Qed.

(** X9 for the series (0,0), (50,100), (100,0) on the 280 x 75 canvas. *)
Lemma X9_witness :
  exists (path : Path spec_float) (m0 m1 : Marker spec_float),
    generateSmoothPath tent (of_Z 280) (of_Z 75) = Some path /\
    markerOf (of_Z 75) (of_Z 0) (processLine openLine 0) = Some m0 /\
    startPoint path = Some (cx m0, cy m0) /\
    markerOf (of_Z 75) (of_Z 100) (processLine openLine 0) = Some m1 /\
    endPoint path = Some (cx m1, cy m1).
Proof.
  apply (X9_markers_on_path_ends (processLine openLine 0) (of_Z 75)
           (pointAt 0 0) (pointAt 100 0)); vm_compute; try reflexivity.
  discriminate.
Defined.

(** X10: the series at position idx of the collection is processed with
    idx as its index.  An explicit lineOpacity is kept, even 0; without one
    a series whose isPrimary is true gets 0.9 and every other series
    Math.max(0.15, 0.4 - idx * 0.08), which is 0.4, 0.32,
    0.24000000000000002 and 0.16000000000000003 at the positions 0 to 3 and
    0.15 from position 4 on. *)
Theorem X10_default_opacity_by_position :
  forall (lines : list (ChartLine spec_float)) (idx : Z) (l : ChartLine spec_float),
    lookup lines idx = Some l ->
    exists pl : ProcessedLine spec_float,
      lookup (processedLines lines) idx = Some pl /\
      line pl = l /\
      (forall v, lineOpacity l = Some v -> opacity pl = v) /\
      (lineOpacity l = None -> isPrimary l = Some true ->
       opacity pl = decimal 9 1) /\
      (lineOpacity l = None -> isPrimary l <> Some true ->
       opacity pl =
       Binary64.max (decimal 15 2)
         (fsub (decimal 4 1) (fmul (of_Z idx) (decimal 8 2))) /\
       (idx = 0 -> opacity pl = decimal 4 1) /\
       (idx = 1 -> opacity pl = decimal 32 2) /\
       (idx = 2 -> opacity pl = S754_finite false 8646911284551353 (-55)) /\
       (idx = 3 -> opacity pl = S754_finite false 5764607523034236 (-55)) /\
       (4 <= idx -> opacity pl = decimal 15 2)).
Proof.
  intros lines idx l Hl. exists (processLine l idx).
  split.
  { unfold processedLines.
    rewrite (Binary64Round.mapIndexed_lookup processLine lines 0 idx l Hl).
    reflexivity. }
  split; [reflexivity|]. unfold processLine. cbn [opacity].
  split; [intros v ->; reflexivity|].
  split; [intros -> Hp%flagged_isPrimary; rewrite Hp; reflexivity|].
  intros -> Hp%unflagged_isPrimary. rewrite Hp.
  cbn [of_dec of_int fmax sub mul Binary64.arith].
  split; [reflexivity|].
  split; [intros ->; vm_compute; reflexivity|].
  split; [intros ->; vm_compute; reflexivity|].
  split; [intros ->; vm_compute; reflexivity|].
  split; [intros ->; vm_compute; reflexivity|].
  apply Binary64Round.default_opacity_floor.
Qed.

(** X10 for the fifth of five series, none flagged nor given an
    opacity, and for a flagged second series. *)
Lemma X10_witness :
  (exists pl : ProcessedLine spec_float,
      lookup (processedLines plainFive) 4 = Some pl /\ opacity pl = decimal 15 2) /\
  (exists pl : ProcessedLine spec_float,
      lookup (processedLines pair) 1 = Some pl /\ opacity pl = decimal 9 1).
Proof.
  split.
  - destruct (X10_default_opacity_by_position plainFive 4 (seriesOf "e" None tent))
      as (pl & E & _ & _ & _ & H); [reflexivity|].
    exists pl. split; [exact E|]. apply H; [reflexivity|discriminate|lia].
  - destruct (X10_default_opacity_by_position pair 1 closedLine)
      as (pl & E & _ & _ & H & _); [reflexivity|].
    exists pl. split; [exact E|]. apply H; reflexivity.
Defined.



(** X12: for every day count from 1 to 366 the points of
    generateTimeSeriesData are strictly ascending by x, whatever the values
    and the random numbers are: the data of the page meets the
    precondition of getYAtX and getLabelAtX. *)
Theorem X12_generateTimeSeriesData_ascending :
  forall (days : Z) (startValue endValue : spec_float)
         (volatility : option spec_float) (random : nat -> spec_float),
    1 <= days <= 366 ->
    ascending (generateTimeSeriesData days startValue endValue volatility random)
    = true.
Proof.
  intros days startValue endValue volatility random Hdays.
  rewrite ascending_increasing, generateTimeSeriesData_x.
  pose proof dayPositions_increasing as Hall.
  rewrite forallb_forall in Hall.
  specialize (Hall (Z.to_nat days)). rewrite Z2Nat.id in Hall by lia.
  apply Hall, in_seq. lia.
Qed.

(** X12 for the 30 days of the page. *)
Lemma X12_witness :
  ascending (generateTimeSeriesData 30 (of_Z 28) (of_Z 80) (Some (decimal 15 3))
               (fun _ => decimal 5 1)) = true.
Proof. apply X12_generateTimeSeriesData_ascending. lia. Defined.

(** X13: for days = 0 generateTimeSeriesData returns a single point
    labelled "1 Apr" whose x is NaN (0 / 0), whatever the other arguments
    are. *)
Theorem X13_generateTimeSeriesData_zero_days :
  forall (startValue endValue : spec_float) (volatility : option spec_float)
         (random : nat -> spec_float),
  exists p : point,
    generateTimeSeriesData 0 startValue endValue volatility random = [p] /\
    x p = S754_nan /\
    label p = Some "1 Apr"%string.
Proof.
  intros startValue endValue volatility random.
  eexists. split; [reflexivity|]. split; reflexivity.
Qed.
